(** * FO4-MA: the text-relevance ranking pipeline

    A shallow embedding of [src/lib/algorithms.ts] and [src/lib/search.ts]
    (the knowledge-base search of the Fallout 4 modding assistant), and the
    properties of the ranking pipeline proved over it.

    Conventions of the embedding.
    - A JS [number] is a value of [JSNum.num]: NaN, the two infinities, or
      an exact rational.  Finite arithmetic is exact (IEEE-754 rounding is
      not modelled, and there is no negative zero); NaN and the infinities
      arise and propagate as in IEEE-754.  Lengths, indices and counters,
      which the code only ever holds as integers, are [nat] or [Z].
    - A JS string is a [string] of code units: the Latin-1 range of
      UTF-16, the capital I with dot above (U+0130) and the combining dot
      above (U+0307).
    - A JS [Set<string>] is the list of its elements in insertion order.
    - A JS array is a list; where the identity of an array matters (what
      a run of the search changes, and what it leaves alone), the arrays
      are objects of a store.
    Where a property could turn on the rounding of a number, it is stated
    so that it does not: a score as the sequence of its additions in the
    order of the code, a test of a computed number against a threshold as
    a parameter that stands for either outcome. *)

From Stdlib Require Import List Bool Arith ZArith QArith Qround Lia Lqa.
From Stdlib Require Import Ascii Permutation Sorted.
Import ListNotations.

Local Close Scope Q_scope.
Local Open Scope nat_scope.
Local Open Scope list_scope.

(* ===================================================================== *)
(** ** JS numbers *)
(* ===================================================================== *)

Module JSNum.

Inductive num : Type :=
| NaN
| NegInf
| Fin (q : Q)
| PosInf.

Definition of_Z (z : Z) : num := Fin (inject_Z z).
Definition of_nat (n : nat) : num := of_Z (Z.of_nat n).

(** Sign of a finite value, as a comparison with 0. *)
Definition sgn (q : Q) : comparison := Qcompare q 0%Q.

Definition neg (a : num) : num :=
  match a with
  | NaN => NaN
  | NegInf => PosInf
  | PosInf => NegInf
  | Fin q => Fin (Qred (- q)%Q)
  end.

Definition add (a b : num) : num :=
  match a, b with
  | NaN, _ | _, NaN => NaN
  | PosInf, NegInf | NegInf, PosInf => NaN
  | PosInf, _ | _, PosInf => PosInf
  | NegInf, _ | _, NegInf => NegInf
  | Fin p, Fin q => Fin (Qred (p + q)%Q)
  end.

Definition sub (a b : num) : num :=
  match a, b with
  | NaN, _ | _, NaN => NaN
  | PosInf, PosInf | NegInf, NegInf => NaN
  | PosInf, _ | _, NegInf => PosInf
  | NegInf, _ | _, PosInf => NegInf
  | Fin p, Fin q => Fin (Qred (p - q)%Q)
  end.

(** An infinity of the sign of [c] times the sign of a positive ([true])
    or negative ([false]) infinity; [0 * Infinity] is NaN. *)
Definition inf_signed (c : comparison) (positive : bool) : num :=
  match c with
  | Eq => NaN
  | Gt => if positive then PosInf else NegInf
  | Lt => if positive then NegInf else PosInf
  end.

Definition mul (a b : num) : num :=
  match a, b with
  | NaN, _ | _, NaN => NaN
  | Fin p, Fin q => Fin (Qred (p * q)%Q)
  | Fin p, PosInf | PosInf, Fin p => inf_signed (sgn p) true
  | Fin p, NegInf | NegInf, Fin p => inf_signed (sgn p) false
  | PosInf, PosInf | NegInf, NegInf => PosInf
  | PosInf, NegInf | NegInf, PosInf => NegInf
  end.

Definition div (a b : num) : num :=
  match a, b with
  | NaN, _ | _, NaN => NaN
  | Fin p, Fin q =>
      match sgn q with
      | Eq => inf_signed (sgn p) true
      | _ => Fin (Qred (p / q)%Q)
      end
  | Fin _, _ => Fin 0%Q
  | PosInf, Fin q => match sgn q with Lt => NegInf | _ => PosInf end
  | NegInf, Fin q => match sgn q with Lt => PosInf | _ => NegInf end
  | _, _ => NaN
  end.

(** [a < b]; every comparison with NaN is false. *)
Definition lt (a b : num) : bool :=
  match a, b with
  | NaN, _ | _, NaN => false
  | _, NegInf => false
  | NegInf, _ => true
  | PosInf, _ => false
  | _, PosInf => true
  | Fin p, Fin q => match Qcompare p q with Lt => true | _ => false end
  end.

Definition gt (a b : num) : bool := lt b a.

(** [a <= b]. *)
Definition le (a b : num) : bool :=
  match a, b with
  | NaN, _ | _, NaN => false
  | NegInf, _ => true
  | _, PosInf => true
  | _, NegInf => false
  | PosInf, _ => false
  | Fin p, Fin q => match Qcompare p q with Gt => false | _ => true end
  end.

Definition ge (a b : num) : bool := le b a.

Definition is_nan (a : num) : bool :=
  match a with NaN => true | _ => false end.

(** [Math.log].  The logarithm of a positive finite number is whatever the
    engine's approximation [ln] returns. *)
Definition Math_log (ln : Q -> Q) (a : num) : num :=
  match a with
  | NaN | NegInf => NaN
  | PosInf => PosInf
  | Fin q =>
      match sgn q with
      | Lt => NaN
      | Eq => NegInf
      | Gt => Fin (Qred (ln q))
      end
  end.

(** [ToIntegerOrInfinity] restricted to finite values: truncation toward
    zero. *)
Definition Qtrunc (q : Q) : Z := Z.quot (Qnum q) (Zpos (Qden q)).

End JSNum.

Import JSNum.

Declare Scope num_scope.
Delimit Scope num_scope with num.
Bind Scope num_scope with num.
Infix "+" := add : num_scope.
Infix "-" := sub : num_scope.
Infix "*" := mul : num_scope.
Infix "/" := div : num_scope.
Infix ">?" := gt (at level 70) : num_scope.
Infix ">=?" := ge (at level 70) : num_scope.
Infix "<?" := lt (at level 70) : num_scope.
Infix "<=?" := le (at level 70) : num_scope.

(* ===================================================================== *)
(** ** JS strings *)
(* ===================================================================== *)

(** A code unit of a JS string.  Beyond the Latin-1 range the model has
    the capital I with dot above (U+0130), the one code unit whose lower
    case is two code units long, and the combining dot above (U+0307),
    with which that lower case ends. *)
Inductive codeUnit : Set :=
  | Latin1 (c : ascii)
  | CapitalIDot
  | CombiningDot.

Inductive string : Set :=
  | EmptyString
  | String (c : codeUnit) (s : string).

Declare Scope string_scope.
Delimit Scope string_scope with string.
Bind Scope string_scope with string.

Module CodeUnit.

(** The number of the code unit. *)
Definition code (c : codeUnit) : nat :=
  match c with
  | Latin1 a => nat_of_ascii a
  | CapitalIDot => 304
  | CombiningDot => 775
  end.

(** [===] on code units. *)
Definition eqb (a b : codeUnit) : bool :=
  match a, b with
  | Latin1 x, Latin1 y => Ascii.eqb x y
  | CapitalIDot, CapitalIDot => true
  | CombiningDot, CombiningDot => true
  | _, _ => false
  end.

End CodeUnit.

Module String.

(** [s.length]. *)
Fixpoint length (s : string) : nat :=
  match s with
  | EmptyString => 0
  | String _ s' => S (length s')
  end.

(** [s + t]. *)
Fixpoint append (s t : string) : string :=
  match s with
  | EmptyString => t
  | String c s' => String c (append s' t)
  end.

(** [s === t]. *)
Fixpoint eqb (s t : string) : bool :=
  match s, t with
  | EmptyString, EmptyString => true
  | String a s', String b t' => CodeUnit.eqb a b && eqb s' t'
  | _, _ => false
  end.

(** The code unit at index [n], if there is one. *)
Fixpoint get (n : nat) (s : string) : option codeUnit :=
  match s, n with
  | EmptyString, _ => None
  | String c _, O => Some c
  | String _ s', S n' => get n' s'
  end.

(** A string literal denotes its bytes as Latin-1 code units; only
    ASCII literals are written in this development. *)
Fixpoint of_bytes (l : list Byte.byte) : string :=
  match l with
  | [] => EmptyString
  | b :: l' => String (Latin1 (ascii_of_byte b)) (of_bytes l')
  end.

Fixpoint to_bytes (s : string) : option (list Byte.byte) :=
  match s with
  | EmptyString => Some []
  | String (Latin1 a) s' =>
      match to_bytes s' with
      | Some l => Some (byte_of_ascii a :: l)
      | None => None
      end
  | String _ _ => None
  end.

End String.

Infix "++" := String.append : string_scope.

String Notation string String.of_bytes String.to_bytes : string_scope.

Module JSString.

Definition code (c : codeUnit) : nat := CodeUnit.code c.

(** [\s] of a regular expression and the white space of [trim], among
    the code units of the model: TAB, LF, VT, FF, CR, SPACE and NBSP. *)
Definition isSpace (c : codeUnit) : bool :=
  let n := code c in
  ((9 <=? n) && (n <=? 13)) || (n =? 32) || (n =? 160).

(** The lower case of a Latin-1 code unit: A-Z, and the Latin-1 capitals
    U+00C0..U+00DE except the multiplication sign U+00D7. *)
Definition lowerLatin1 (a : ascii) : ascii :=
  let n := nat_of_ascii a in
  if ((65 <=? n) && (n <=? 90))
     || ((192 <=? n) && (n <=? 222) && negb (n =? 215))
  then ascii_of_nat (n + 32) else a.

(** [toLowerCase] on one code unit.  The lower case of U+0130 is the two
    code units U+0069 U+0307. *)
Definition lowerChar (c : codeUnit) : string :=
  match c with
  | Latin1 a => String (Latin1 (lowerLatin1 a)) EmptyString
  | CapitalIDot => String (Latin1 "i") (String CombiningDot EmptyString)
  | CombiningDot => String CombiningDot EmptyString
  end.

Fixpoint toLowerCase (s : string) : string :=
  match s with
  | EmptyString => EmptyString
  | String c s' => lowerChar c ++ toLowerCase s'
  end.

Fixpoint trimStart (s : string) : string :=
  match s with
  | EmptyString => EmptyString
  | String c s' => if isSpace c then trimStart s' else s
  end.

(** [trimEnd], right to left: a white-space character is dropped when
    everything after it has been dropped. *)
Fixpoint trimEnd (s : string) : string :=
  match s with
  | EmptyString => EmptyString
  | String c s' =>
      match trimEnd s' with
      | EmptyString => if isSpace c then EmptyString else String c EmptyString
      | t => String c t
      end
  end.

Definition trim (s : string) : string := trimEnd (trimStart s).

Definition len (s : string) : Z := Z.of_nat (String.length s).

Fixpoint startsWith (t s : string) : bool :=
  match t, s with
  | EmptyString, _ => true
  | String a t', String b s' => CodeUnit.eqb a b && startsWith t' s'
  | String _ _, EmptyString => false
  end.

Fixpoint drop (n : nat) (s : string) : string :=
  match n, s with
  | O, _ => s
  | S n', String _ s' => drop n' s'
  | S _, EmptyString => EmptyString
  end.

(** The search of [StringIndexOf]: the first [i], counted from [i0], at
    which [t] starts in [s]; [-1] when there is none. *)
Fixpoint search (t s : string) (i0 : Z) : Z :=
  if startsWith t s then i0
  else match s with
       | EmptyString => (-1)%Z
       | String _ s' => search t s' (i0 + 1)%Z
       end.

(** [s.indexOf(t, from)]: [from] is clamped to [0 .. s.length]. *)
Definition indexOf (s t : string) (from : Z) : Z :=
  let start := Z.min (Z.max from 0) (len s) in
  search t (drop (Z.to_nat start) s) start.

(** [s.includes(t)]. *)
Definition includes (s t : string) : bool :=
  negb (indexOf s t 0 =? -1)%Z.

(** [s.split(/\s+/)]: [cur] is the token read so far and [inRun] tells
    whether the previous character was white space. *)
Fixpoint splitWsFrom (s cur : string) (inRun : bool) : list string :=
  match s with
  | EmptyString => [cur]
  | String c s' =>
      if isSpace c
      then if inRun then splitWsFrom s' cur true
           else cur :: splitWsFrom s' EmptyString true
      else splitWsFrom s' (cur ++ String c EmptyString) false
  end.

Definition splitWs (s : string) : list string :=
  splitWsFrom s EmptyString false.

(** [s.split(sep)] for a string separator: [skip] counts the characters
    of a separator occurrence still to be passed over. *)
Fixpoint splitOn (sep s cur : string) (skip : nat) : list string :=
  match s with
  | EmptyString => [cur]
  | String c s' =>
      match skip with
      | S k => splitOn sep s' cur k
      | O =>
          if startsWith sep s
          then cur :: splitOn sep s' EmptyString (String.length sep - 1)
          else splitOn sep s' (cur ++ String c EmptyString) 0
      end
  end.

Fixpoint chars (s : string) : list string :=
  match s with
  | EmptyString => []
  | String c s' => String c EmptyString :: chars s'
  end.

Definition split (s sep : string) : list string :=
  match sep with
  | EmptyString => chars s
  | _ => splitOn sep s EmptyString 0
  end.

(** [arr.join(sep)]. *)
Fixpoint join (sep : string) (l : list string) : string :=
  match l with
  | [] => EmptyString
  | [x] => x
  | x :: l' => x ++ sep ++ join sep l'
  end.

(** [s[i]]: [None] stands for [undefined]. *)
Definition charAt (s : string) (i : nat) : option codeUnit :=
  String.get i s.

(** [arr.includes(x)] on an array of strings. *)
Definition arrIncludes (l : list string) (x : string) : bool :=
  existsb (String.eqb x) l.

End JSString.

Import JSString.

(* ===================================================================== *)
(** ** JS arrays *)
(* ===================================================================== *)

Module JSArray.

(** [arr[i] = v] for [i] inside the array (the only writes the code
    performs on a pre-sized array); outside, the list is left as it is. *)
Fixpoint upd {A} (l : list A) (i : nat) (v : A) : list A :=
  match l, i with
  | [], _ => []
  | _ :: l', O => v :: l'
  | x :: l', S i' => x :: upd l' i' v
  end.

(** A table of numbers: [track[j][i]]. *)
Definition get2 (t : list (list nat)) (j i : nat) : nat :=
  nth i (nth j t []) 0.

Definition set2 (t : list (list nat)) (j i v : nat) : list (list nat) :=
  upd t j (upd (nth j t []) i v).

(** [for (let i = start; i < start + n; i += 1) body]. *)
Definition for_range {T} (start n : nat) (body : T -> nat -> T) (t : T) : T :=
  fold_left body (seq start n) t.

End JSArray.

Import JSArray.

(* ===================================================================== *)
(** ** algorithms.ts: edit distance *)
(* ===================================================================== *)

Definition min3 (a b c : nat) : nat := Nat.min (Nat.min a b) c.

(** [str1[i] === str2[j] ? 0 : 1]. *)
Definition indicator (str1 str2 : string) (i j : nat) : nat :=
  match charAt str1 i, charAt str2 j with
  | Some a, Some b => if CodeUnit.eqb a b then 0 else 1
  | None, None => 0
  | _, _ => 1
  end.

(** [levenshteinDistance].  The cells of [track], created as [null], are
    created here as [0]; each one is written before it is read. *)
Definition levenshteinDistance (str1 str2 : string) : nat :=
  let n1 := String.length str1 in
  let n2 := String.length str2 in
  let track := repeat (repeat 0 (n1 + 1)) (n2 + 1) in
  let track := for_range 0 (n1 + 1) (fun t i => set2 t 0 i i) track in
  let track := for_range 0 (n2 + 1) (fun t j => set2 t j 0 j) track in
  let track :=
    for_range 1 n2 (fun t j =>
      for_range 1 n1 (fun t i =>
        set2 t j i
          (min3 (get2 t j (i - 1) + 1)
                (get2 t (j - 1) i + 1)
                (get2 t (j - 1) (i - 1) + indicator str1 str2 (i - 1) (j - 1))))
        t) track in
  get2 track n2 n1.

(** [levenshteinSimilarity]. *)
Definition levenshteinSimilarity (str1 str2 : string) : num :=
  let maxLength := Nat.max (String.length str1) (String.length str2) in
  if maxLength =? 0 then Fin 1
  else
    let distance := levenshteinDistance str1 str2 in
    (Fin 1 - of_nat distance / of_nat maxLength)%num.

(** The Wagner-Fischer recurrence of the unit-cost edit distance between
    the first [i] characters of [str1] and the first [j] of [str2]. *)
Fixpoint lev_rec (str1 str2 : string) (j : nat) : nat -> nat :=
  match j with
  | O => fun i => i
  | S j' =>
      fix row (i : nat) : nat :=
        match i with
        | O => S j'
        | S i' =>
            min3 (row i' + 1)
                 (lev_rec str1 str2 j' (S i') + 1)
                 (lev_rec str1 str2 j' i' + indicator str1 str2 i' j')
        end
  end.

(* ===================================================================== *)
(** ** More of the JS run time: sets, slices, sorting *)
(* ===================================================================== *)

Module JSSet.

(** A [Set<string>]: its elements, without repetition, in insertion
    order (the order in which [[...set]] lists them). *)
Definition t := list string.

Definition has (s : t) (x : string) : bool := existsb (String.eqb x) s.

Definition add (s : t) (x : string) : t := if has s x then s else s ++ [x].

(** [new Set(iterable)]. *)
Definition of_list (l : list string) : t := fold_left add l [].

Definition size (s : t) : nat := List.length s.

End JSSet.

(** [arr.slice(0, e)]: [e] goes through [ToIntegerOrInfinity]; a negative
    end counts from the end of the array. *)
Definition slice0 {A} (l : list A) (e : num) : list A :=
  let n := Z.of_nat (List.length l) in
  match e with
  | NaN | NegInf => []
  | PosInf => l
  | Fin q =>
      let z := Qtrunc q in
      firstn (Z.to_nat (if (z <? 0)%Z then Z.max (n + z) 0 else Z.min z n)) l
  end.

(** [Array.prototype.sort(comparefn)].  The sort is stable; a comparator
    result that is NaN counts as [+0], and [x] is placed after [y] only
    when [comparefn(x, y) > 0].  With a consistent comparator every stable
    sort gives this order; with one that returns NaN the standard leaves
    the order to the engine, and this is the order of an insertion sort. *)
Fixpoint sort_insert {A} (comparefn : A -> A -> num) (x : A) (l : list A)
  : list A :=
  match l with
  | [] => [x]
  | y :: l' =>
      if (comparefn x y >? Fin 0)%num
      then y :: sort_insert comparefn x l'
      else x :: l
  end.

Definition sort {A} (comparefn : A -> A -> num) (l : list A) : list A :=
  fold_right (sort_insert comparefn) [] l.

(* ===================================================================== *)
(** ** types *)
(* ===================================================================== *)

Record KnowledgeEntry := mkEntry {
  id : string;
  moduleId : string;
  title : string;
  content : string;
  keywords : list string;
  createdAt : option num;
  updatedAt : option num
}.

Record FieldMatch := mkMatch {
  field : string;
  positions : list (Z * Z)
}.

Record SearchResult := mkResult {
  entry : KnowledgeEntry;
  score : num;
  matches : option (list FieldMatch)
}.

(** The required fields of [Settings]. *)
Record Settings := mkSettings {
  darkMode : bool;
  relevanceThreshold : num;
  maxResults : num;
  debugMode : bool;
  autoExpandModules : bool
}.

(** [entry.title + " " + entry.content]. *)
Definition documentOf (e : KnowledgeEntry) : string :=
  (title e ++ " " ++ content e)%string.

(** [text.split(/\s+/).filter((t) => t.length > n)]. *)
Definition longerThan (n : nat) (l : list string) : list string :=
  filter (fun t => n <? String.length t) l.

(** [text.toLowerCase().split(/\s+/).filter((t) => t.length > 2)]. *)
Definition tokenize (text : string) : list string :=
  longerThan 2 (splitWs (toLowerCase text)).

(* ===================================================================== *)
(** ** algorithms.ts and search.ts: the similarity measures *)
(* ===================================================================== *)

(** [jaccardSimilarity]. *)
Definition jaccardSimilarity (set1 set2 : JSSet.t) : num :=
  let intersection := JSSet.of_list (filter (fun x => JSSet.has set2 x) set1) in
  let union := JSSet.of_list (set1 ++ set2) in
  (of_nat (JSSet.size intersection) / of_nat (JSSet.size union))%num.

(** [calculateSimilarity] of search.ts.  No operation of its body throws
    on strings, so its [catch] branch is never taken. *)
Definition calculateSimilarity (text1 text2 : string) : num :=
  let tokens1 := tokenize text1 in
  let tokens2 := tokenize text2 in
  let set1 := JSSet.of_list tokens1 in
  let set2 := JSSet.of_list tokens2 in
  let intersection := JSSet.of_list (filter (fun x => JSSet.has set2 x) set1) in
  let union := JSSet.of_list (set1 ++ set2) in
  let jaccardScore :=
    (of_nat (JSSet.size intersection) / of_nat (JSSet.size union))%num in
  let levenshteinScore :=
    if (String.length text1 <? 100) && (String.length text2 <? 100)
    then levenshteinSimilarity text1 text2
    else Fin 0 in
  (jaccardScore * Fin (7 # 10) + levenshteinScore * Fin (3 # 10))%num.

(** [calculateTF]. *)
Definition calculateTF (term document : string) : num :=
  let termCount :=
    (Z.of_nat (List.length (split (toLowerCase document) (toLowerCase term)))
     - 1)%Z in
  let wordCount := List.length (splitWs document) in
  (of_Z termCount / of_nat wordCount)%num.

Section WithLog.

(** The engine's [Math.log] on positive finite numbers. *)
Variable ln : Q -> Q.

(** [calculateIDF]. *)
Definition calculateIDF (term : string) (documents : list string) : num :=
  let numDocsWithTerm :=
    List.length
      (filter (fun doc => includes (toLowerCase doc) (toLowerCase term))
              documents) in
  (Math_log ln (of_nat (List.length documents) / of_nat (numDocsWithTerm + 1))
   + Fin 1)%num.

(** [calculateTFIDF]. *)
Definition calculateTFIDF (term document : string) (documents : list string)
  : num :=
  let tf := calculateTF term document in
  let idf := calculateIDF term documents in
  (tf * idf)%num.

(** [calculateBM25]; [rankResults] calls it with the default [k1 = 1.5]
    and [b = 0.75]. *)
Definition calculateBM25 (query document : string) (avgDocLength : num)
  (documents : list string) (k1 b : num) : num :=
  let terms := tokenize query in
  let docLength := List.length (splitWs document) in
  fold_left
    (fun score term =>
       let tf := calculateTF term document in
       let idf := calculateIDF term documents in
       let numerator := (tf * (k1 + Fin 1))%num in
       let denominator :=
         (tf + k1 * (Fin 1 - b + b * (of_nat docLength / avgDocLength)))%num in
       (score + idf * (numerator / denominator))%num)
    terms (Fin 0).

End WithLog.

(* ===================================================================== *)
(** ** algorithms.ts: query expansion *)
(* ===================================================================== *)

(** The alternatives of the stop-word pattern of [expandQuery]. *)
Definition stopwords : list string :=
  ["the"; "and"; "but"; "for"; "or"; "nor"; "so"; "yet"; "a"; "an"; "in";
   "to"; "of"; "at"; "by"; "for"; "with"; "about"; "against"; "between";
   "into"; "through"; "during"; "before"; "after"; "above"; "below"; "from";
   "up"; "down"; "on"; "off"; "over"; "under"; "again"; "further"; "then";
   "once"; "here"; "there"; "when"; "where"; "why"; "how"; "all"; "any";
   "both"; "each"; "few"; "more"; "most"; "other"; "some"; "such"; "no";
   "nor"; "not"; "only"; "own"; "same"; "so"; "than"; "too"; "very"; "can";
   "will"; "just"]%string.

(** [term.match(/^(the|and|...)$/i)] is not null: the whole term is one
    of the alternatives, letter case ignored. *)
Definition matchesStopword (term : string) : bool :=
  arrIncludes stopwords (toLowerCase term).

(** The test under which a term of an entry joins the expansion. *)
Definition relatedTo (queryTerms : list string) (term : string) : bool :=
  existsb
    (fun qTerm =>
       (levenshteinSimilarity qTerm term >? Fin (7 # 10))%num
       || includes term qTerm || includes qTerm term)
    queryTerms.

(** The set [expandedTerms] when the loop over the entries is done. *)
Definition expandedTermSet (query : string) (entries : list KnowledgeEntry)
  : JSSet.t :=
  let queryTerms := tokenize query in
  fold_left
    (fun expandedTerms entry =>
       let similarity := calculateSimilarity query (documentOf entry) in
       if (similarity >? Fin (3 # 10))%num then
         let entryTerms :=
           filter
             (fun term =>
                (3 <? String.length term)
                && negb (arrIncludes queryTerms term)
                && negb (matchesStopword term))
             (splitWs (toLowerCase (documentOf entry))) in
         fold_left
           (fun expandedTerms term =>
              if relatedTo queryTerms term
              then JSSet.add expandedTerms term
              else expandedTerms)
           entryTerms expandedTerms
       else expandedTerms)
    entries (JSSet.of_list queryTerms).

(** [finalTerms] of [expandQuery]. *)
Definition finalTerms (query : string) (entries : list KnowledgeEntry)
  : list string :=
  let queryTerms := tokenize query in
  slice0 (expandedTermSet query entries) (of_nat (List.length queryTerms + 3)).

(** [expandQuery]. *)
Definition expandQuery (query : string) (entries : list KnowledgeEntry)
  : string :=
  join " " (finalTerms query entries).

(* ===================================================================== *)
(** ** algorithms.ts: the second ranking pass *)
(* ===================================================================== *)

Section Ranking.

Variable ln : Q -> Q.

(** The comparator [(a, b) => b.score - a.score]. *)
Definition byScoreDesc (a b : SearchResult) : num := (score b - score a)%num.

(** The body of the [results.map] of [rankResults]. *)
Definition rescore (query : string) (avgDocLength : num)
  (allDocuments : list string) (result : SearchResult) : SearchResult :=
  let entry := entry result in
  let document := documentOf entry in
  let finalScore := score result in
  let bm25Score :=
    calculateBM25 ln query document avgDocLength allDocuments
                  (Fin (3 # 2)) (Fin (3 # 4)) in
  let finalScore := (finalScore + bm25Score * Fin 5)%num in
  let queryTerms := tokenize query in
  let finalScore :=
    fold_left
      (fun finalScore term =>
         let tfIdfScore := calculateTFIDF ln term document allDocuments in
         (finalScore + tfIdfScore * Fin 3)%num)
      queryTerms finalScore in
  let titleSimilarity :=
    levenshteinSimilarity (toLowerCase query) (toLowerCase (title entry)) in
  let finalScore := (finalScore + titleSimilarity * Fin 2)%num in
  let querySet := JSSet.of_list queryTerms in
  let keywordSet := JSSet.of_list (map toLowerCase (keywords entry)) in
  let keywordSimilarity := jaccardSimilarity querySet keywordSet in
  let finalScore := (finalScore + keywordSimilarity * Fin 4)%num in
  {| entry := entry; score := finalScore; matches := matches result |}.

(** [avgDocLength] of [rankResults]. *)
Definition averageDocLength (allEntries : list KnowledgeEntry) : num :=
  (fold_left
     (fun sum entry =>
        (sum + of_nat (List.length (splitWs (content entry))))%num)
     allEntries (Fin 0)
   / of_nat (List.length allEntries))%num.

(** [rankResults]. *)
Definition rankResults (query : string) (results : list SearchResult)
  (allEntries : list KnowledgeEntry) : list SearchResult :=
  if List.length results =? 0 then []
  else
    let avgDocLength := averageDocLength allEntries in
    let allDocuments := map documentOf allEntries in
    let scoredResults :=
      map (rescore query avgDocLength allDocuments) results in
    sort byScoreDesc scoredResults.

End Ranking.

(* ===================================================================== *)
(** ** search.ts: first-pass scoring and the pipeline *)
(* ===================================================================== *)

(** A computation that may not return: [None] is a loop that never
    ends. *)
Definition bind {A B} (m : option A) (k : A -> option B) : option B :=
  match m with
  | Some a => k a
  | None => None
  end.

Notation "x <- m ;; k" := (bind m (fun x => k))
  (at level 61, m at next level, right associativity).

Fixpoint foldM {A B} (f : B -> A -> option B) (l : list A) (b : B)
  : option B :=
  match l with
  | [] => Some b
  | x :: l' => b' <- f b x ;; foldM f l' b'
  end.

Fixpoint mapM {A B} (f : A -> option B) (l : list A) : option (list B) :=
  match l with
  | [] => Some []
  | x :: l' => y <- f x ;; ys <- mapM f l' ;; Some (y :: ys)
  end.

(** [while ((pos = text.indexOf(term, pos)) !== -1) { positions.push(...);
    pos += term.length }], run for at most [fuel] tests of its
    condition. *)
Fixpoint occurrences (fuel : nat) (text term : string) (pos : Z)
  (positions : list (Z * Z)) : option (list (Z * Z)) :=
  match fuel with
  | O => None
  | S fuel' =>
      let pos := indexOf text term pos in
      if (pos =? -1)%Z then Some positions
      else occurrences fuel' text term (pos + len term)%Z
                       (positions ++ [(pos, (pos + len term)%Z)])
  end.

(** The loop started at [pos = 0].  With a non-empty [term] it ends
    within [text.length + 1] tests (lemma [allOccurrences_returns]); with
    the empty term it never ends. *)
Definition allOccurrences (text term : string) : option (list (Z * Z)) :=
  occurrences (S (String.length text)) text term 0%Z [].

(** The running [score] and [matches] of one entry. *)
Definition Acc : Type := num * list FieldMatch.

(** The "exact match" step on one field. *)
Definition exactMatch (fieldName : string) (weight : num)
  (text normalizedQuery : string) (acc : Acc) : Acc :=
  let '(score, matches) := acc in
  if includes text normalizedQuery then
    let startPos := indexOf text normalizedQuery 0 in
    ((score + weight)%num,
     matches ++ [mkMatch fieldName
                   [(startPos, (startPos + len normalizedQuery)%Z)]])
  else acc.

(** The "term matches" loop on one field; the code has it four times,
    for the query terms and the expanded terms, on the title and on the
    content. *)
Definition termMatches (fieldName : string) (weight : num) (text : string)
  (terms : list string) (acc : Acc) : option Acc :=
  foldM
    (fun (acc : Acc) term =>
       let '(score, matches) := acc in
       if includes text term then
         positions <- allOccurrences text term ;;
         Some ((score + weight)%num,
               if 0 <? List.length positions
               then matches ++ [mkMatch fieldName positions]
               else matches)
       else Some acc)
    terms acc.

(** The loop over [entry.keywords]. *)
Definition keywordMatches (normalizedQuery : string)
  (queryTerms keywords : list string) (score : num) : num :=
  fold_left
    (fun score keyword =>
       let keywordLower := toLowerCase keyword in
       let score :=
         if String.eqb keywordLower normalizedQuery then (score + Fin 5)%num
         else if includes keywordLower normalizedQuery then (score + Fin 3)%num
         else score in
       let score :=
         fold_left
           (fun score term =>
              if includes keywordLower term then (score + Fin 2)%num else score)
           queryTerms score in
       fold_left
         (fun score term =>
            let similarity := levenshteinSimilarity term keywordLower in
            if (similarity >? Fin (4 # 5))%num
            then (score + similarity * Fin 2)%num
            else score)
         queryTerms score)
    keywords score.

Section Search.

Variable ln : Q -> Q.

(** The steps of the [allEntries.map] callback that follow the keyword
    loop: TF-IDF over the query terms and the Jaccard score. *)
Definition statisticalScore (queryTerms : list string)
  (allEntries : list KnowledgeEntry) (entry : KnowledgeEntry) (score : num)
  : num :=
  let allDocuments := map documentOf allEntries in
  let document := documentOf entry in
  let score :=
    fold_left
      (fun score term =>
         let tfidf := calculateTFIDF ln term document allDocuments in
         (score + tfidf * Fin 2)%num)
      queryTerms score in
  let documentTerms := JSSet.of_list (tokenize document) in
  let queryTermSet := JSSet.of_list queryTerms in
  let jaccardScore := jaccardSimilarity queryTermSet documentTerms in
  (score + jaccardScore * Fin 3)%num.

(** The two "term matches" loops on the title. *)
Definition titleTerms (titleText : string)
  (queryTerms expandedTerms : list string) (acc : Acc) : option Acc :=
  acc <- termMatches "title" (Fin 3) titleText queryTerms acc ;;
  termMatches "title" (Fin (3 # 2)) titleText expandedTerms acc.

(** The two "term matches" loops on the content. *)
Definition contentTerms (contentText : string)
  (queryTerms expandedTerms : list string) (acc : Acc) : option Acc :=
  acc <- termMatches "content" (Fin 1) contentText queryTerms acc ;;
  termMatches "content" (Fin (1 # 2)) contentText expandedTerms acc.

(** The end of the callback: keyword loop, TF-IDF, Jaccard score and the
    returned object. *)
Definition finish (normalizedQuery : string) (queryTerms : list string)
  (allEntries : list KnowledgeEntry) (entry : KnowledgeEntry) (acc : Acc)
  : SearchResult :=
  let '(score, matches) := acc in
  let score :=
    keywordMatches normalizedQuery queryTerms (keywords entry) score in
  let score := statisticalScore queryTerms allEntries entry score in
  {| entry := entry; score := score; matches := Some matches |}.

(** The callback of [allEntries.map] in [searchKnowledgeBase]. *)
Definition scoreEntry (normalizedQuery : string)
  (queryTerms expandedTerms : list string) (allEntries : list KnowledgeEntry)
  (entry : KnowledgeEntry) : option SearchResult :=
  let titleText := toLowerCase (title entry) in
  let contentText := toLowerCase (content entry) in
  let acc : Acc := (Fin 0, []) in
  let acc := exactMatch "title" (Fin 10) titleText normalizedQuery acc in
  acc <- titleTerms titleText queryTerms expandedTerms acc ;;
  let acc := exactMatch "content" (Fin 5) contentText normalizedQuery acc in
  acc <- contentTerms contentText queryTerms expandedTerms acc ;;
  Some (finish normalizedQuery queryTerms allEntries entry acc).

(** [searchKnowledgeBase], as a function of the query and of the two
    values it awaits, the settings and the entries.  On well-typed
    entries and settings no operation of its body throws, so its [catch]
    branch is never taken. *)
Definition searchKnowledgeBase (query : string)
  (allEntries : list KnowledgeEntry) (settings : Settings)
  : option (list SearchResult) :=
  if String.eqb (trim query) "" then Some []
  else
    let normalizedQuery := trim (toLowerCase query) in
    let queryTerms := longerThan 2 (splitWs normalizedQuery) in
    if List.length queryTerms =? 0 then Some []
    else
      let expandedQuery := expandQuery normalizedQuery allEntries in
      let expandedTerms :=
        filter (fun term => negb (arrIncludes queryTerms term))
               (splitWs expandedQuery) in
      scoredEntries <-
        mapM (scoreEntry normalizedQuery queryTerms expandedTerms allEntries)
             allEntries ;;
      let filteredResults :=
        slice0
          (sort byScoreDesc
             (filter
                (fun item =>
                   (score item >? relevanceThreshold settings * Fin 10)%num)
                scoredEntries))
          (maxResults settings) in
      Some (rankResults ln normalizedQuery filteredResults allEntries).

End Search.

(* ===================================================================== *)
(** ** Vocabulary of the properties *)
(* ===================================================================== *)

Definition shape (t : list (list nat)) (rows cols : nat) : Prop :=
  List.length t = rows /\ forall j, j < rows -> List.length (nth j t []) = cols.

(** The cells of [t] selected by [known] are in range and hold the value
    of the recurrence. *)
Definition filled (str1 str2 : string) (t : list (list nat))
  (known : nat -> nat -> Prop) : Prop :=
  shape t (String.length str2 + 1) (String.length str1 + 1)
  /\ forall j i,
       j <= String.length str2 -> i <= String.length str1 -> known j i ->
       get2 t j i = lev_rec str1 str2 j i.

(** The cell written by the body of the inner loop. *)
Definition cell (str1 str2 : string) (t : list (list nat)) (j i : nat)
  : nat :=
  min3 (get2 t j (i - 1) + 1)
       (get2 t (j - 1) i + 1)
       (get2 t (j - 1) (i - 1) + indicator str1 str2 (i - 1) (j - 1)).

(** A string without white space. *)
Fixpoint noSpace (s : string) : bool :=
  match s with
  | EmptyString => true
  | String c s' => negb (isSpace c) && noSpace s'
  end.

(** A string without the code unit U+0130. *)
Fixpoint undotted (s : string) : bool :=
  match s with
  | EmptyString => true
  | String c s' => negb (CodeUnit.eqb c CapitalIDot) && undotted s'
  end.

(** What a token of a white-space split is, when it is not empty. *)
Definition isWord (s : string) : Prop := s <> EmptyString /\ noSpace s = true.


(** The list the pipeline returns, in terms of the scored entries. *)
Definition pipelineOutput (ln : Q -> Q) (query : string)
  (allEntries : list KnowledgeEntry)
  (settings : Settings) (scoredEntries : list SearchResult)
  : list SearchResult :=
  rankResults ln (trim (toLowerCase query))
    (slice0
       (sort byScoreDesc
          (filter
             (fun item =>
                (score item >? relevanceThreshold settings * Fin 10)%num)
             scoredEntries))
       (maxResults settings))
    allEntries.

(** A string made of white space only (the empty string included). *)
Fixpoint allSpace (s : string) : bool :=
  match s with
  | EmptyString => true
  | String c s' => isSpace c && allSpace s'
  end.

(** Two settings that agree on everything but [relevanceThreshold]. *)
Definition sameButThreshold (s1 s2 : Settings) : Prop :=
  darkMode s1 = darkMode s2
  /\ maxResults s1 = maxResults s2
  /\ debugMode s1 = debugMode s2
  /\ autoExpandModules s1 = autoExpandModules s2.





(** A list of results in descending order of score. *)
Definition descending (l : list SearchResult) : Prop :=
  StronglySorted (fun a b => (score a >=? score b)%num = true) l.

(** What the second pass leaves alone in a result. *)
Definition frame (r : SearchResult)
  : KnowledgeEntry * option (list FieldMatch) :=
  (entry r, matches r).

(** A result whose score is a number. *)
Definition scored (r : SearchResult) : Prop := is_nan (score r) = false.

(* ===================================================================== *)
(** ** Sample data *)
(* ===================================================================== *)

Module Sample.

Local Open Scope string_scope.

(** A stand-in for the engine's logarithm: the first term of the series
    [ln q = 2 artanh ((q - 1) / (q + 1))]. *)
Definition ln (q : Q) : Q := (2 * (q - 1) / (q + 1))%Q.

Definition ballistic : KnowledgeEntry :=
  mkEntry "e1" "armor" "Ballistic Weave"
          "How to unlock the ballistic weave armor mod"
          ["ballistic"; "weave"] None None.

Definition enb : KnowledgeEntry :=
  mkEntry "e2" "graphics" "ENB Basics" "Install an enb preset for graphics"
          ["enb"] None None.

Definition shortTitle : KnowledgeEntry :=
  mkEntry "e3" "misc" "a bc" "notes about a bc" ["a bc"] None None.

Definition untagged : KnowledgeEntry :=
  mkEntry "e4" "misc" "Load order" "Sort plugins with a tool" [] None None.

Definition defaults : Settings :=
  mkSettings true (Fin (1 # 2)) (Fin 3) false true.

Definition strict : Settings :=
  mkSettings true (Fin 4) (Fin 3) false true.

(** Three results handed to the second pass. *)
Definition firstPass : list SearchResult :=
  [mkResult enb (Fin 1) (Some []);
   mkResult untagged (Fin 0) (Some []);
   mkResult ballistic (Fin 5) (Some [])].

End Sample.

(* ===================================================================== *)
(** ** search.ts: highlighting and fuzzy search *)
(* ===================================================================== *)

Module JSSubstring.

Fixpoint take (n : nat) (s : string) : string :=
  match n, s with
  | O, _ => EmptyString
  | S n', String c s' => String c (take n' s')
  | S _, EmptyString => EmptyString
  end.

(** An index argument of [substring], brought into [0 .. s.length]. *)
Definition clampIndex (s : string) (i : Z) : nat :=
  Z.to_nat (Z.min (Z.max i 0) (len s)).

(** [s.substring(a, b)]: both ends are clamped, and swapped when the
    first is the larger. *)
Definition substring (s : string) (a b : Z) : string :=
  let a' := clampIndex s a in
  let b' := clampIndex s b in
  take (Nat.max a' b' - Nat.min a' b') (drop (Nat.min a' b') s).

(** [s.substring(a)]. *)
Definition substringFrom (s : string) (a : Z) : string :=
  substring s a (len s).

End JSSubstring.

Import JSSubstring.

(** The opening tag written by [highlightMatches]; [034] is the double
    quote. *)
Definition markOpen : string :=
  ("<mark class="
   ++ String (Latin1 "034") "bg-[#1aff80]/30 text-white px-0.5 rounded"
   ++ String (Latin1 "034") ">")%string.

Definition markClose : string := "</mark>"%string.

(** The body of the loop of [highlightMatches]. *)
Definition insertMark (result : string) (position : Z * Z) : string :=
  let '(start, end_) := position in
  let prefix := substring result 0 start in
  let match_ := substring result start end_ in
  let suffix := substringFrom result end_ in
  (prefix ++ markOpen ++ match_ ++ markClose ++ suffix)%string.

(** The comparator [(a, b) => b[0] - a[0]]. *)
Definition byStartDesc (a b : Z * Z) : num := (of_Z (fst b) - of_Z (fst a))%num.

(** [highlightMatches].  No operation of its body throws, so its [catch]
    branch is never taken. *)
Definition highlightMatches (text : string) (positions : list (Z * Z))
  : string :=
  if List.length positions =? 0 then text
  else
    let sortedPositions := sort byStartDesc positions in
    fold_left insertMark sortedPositions text.

(** [getMatchContext]; the default [contextSize] is 50. *)
Definition getMatchContext (text : string) (position : Z * Z)
  (contextSize : Z) : string :=
  let '(start, end_) := position in
  let contextStart := Z.max 0 (start - contextSize) in
  let contextEnd := Z.min (len text) (end_ + contextSize) in
  let context := substring text contextStart contextEnd in
  let context :=
    if (0 <? contextStart)%Z then ("..." ++ context)%string else context in
  if (contextEnd <? len text)%Z then (context ++ "...")%string else context.

(** [fuzzySearch]. *)
Definition fuzzySearch (text query : string) : num :=
  levenshteinSimilarity (toLowerCase text) (toLowerCase query).

(* ===================================================================== *)
(** ** algorithms.ts: the response *)
(* ===================================================================== *)

Module Chat.

(** A message of the conversation history, as the functions below take
    it: [{ role, content }]. *)
Record Message := mkMessage {
  role : string;
  content : string
}.

(** An element of the result of [retrieveContextualMemory]. *)
Record Exchange := mkExchange {
  query : string;
  response : string;
  relevance : num
}.

End Chat.

Definition noResultsMessage : string :=
  ("I don't have specific information about that in my knowledge base. "
   ++ "Try asking about mod installation, weapon modifications, armor "
   ++ "customization, settlement building, or graphics enhancements. "
   ++ "You can also browse the Knowledge Base tab to see all available "
   ++ "information.")%string.

Definition followUpPrefix : string :=
  "To follow up on your previous question: "%string.

(** The note appended for a second relevant result; [010] is the line
    feed. *)
Definition moreInformationNote : string :=
  String (Latin1 "010")
    (String (Latin1 "010")
       ("I have more information on this topic. "
        ++ "Would you like to know more about any specific aspect?"))%string.

(** [generateResponse]. *)
Definition generateResponse (query : string) (results : list SearchResult)
  (conversationHistory : list Chat.Message) : string :=
  match results with
  | [] => noResultsMessage
  | topResult :: others =>
      let response := content (entry topResult) in
      let n := List.length conversationHistory in
      let isFollowUp :=
        (3 <=? n)
        && match nth_error conversationHistory (n - 2) with
           | Some m => String.eqb (Chat.role m) "user"
           | None => false
           end in
      let response :=
        if isFollowUp then
          let previousQuery :=
            match nth_error conversationHistory (n - 2) with
            | Some m => Chat.content m
            | None => EmptyString
            end in
          let similarity := calculateSimilarity previousQuery query in
          if (similarity >? Fin (3 # 10))%num
          then (followUpPrefix ++ response)%string
          else response
        else response in
      match others with
      | second :: _ =>
          if (score second >? score topResult * Fin (7 # 10))%num
          then (response ++ moreInformationNote)%string
          else response
      | [] => response
      end
  end.

(* ===================================================================== *)
(** ** database.ts: the keyword search *)
(* ===================================================================== *)

Module Database.

(** The score that the callback of [allEntries.map] gives an entry;
    [queryKeywords] is the array [keywords] of the function. *)
Definition entryScore (query : string) (queryKeywords : list string)
  (entry : KnowledgeEntry) : nat :=
  let titleText := toLowerCase (title entry) in
  let contentText := toLowerCase (content entry) in
  let score := 0 in
  let score :=
    if includes titleText (toLowerCase query) then score + 10 else score in
  let score :=
    fold_left
      (fun score keyword =>
         if includes titleText keyword then score + 3 else score)
      queryKeywords score in
  let score :=
    if includes contentText (toLowerCase query) then score + 5 else score in
  let score :=
    fold_left
      (fun score keyword =>
         if includes contentText keyword then score + 1 else score)
      queryKeywords score in
  fold_left
    (fun score keyword =>
       if existsb (fun k => includes (toLowerCase k) keyword) (keywords entry)
       then score + 2 else score)
    queryKeywords score.

(** The comparator [(a, b) => b.score - a.score] on the scored items. *)
Definition byScoreDesc (a b : KnowledgeEntry * nat) : num :=
  (of_nat (snd b) - of_nat (snd a))%num.

(** The [keywords] of the query: its tokens longer than one character. *)
Definition queryKeywords (query : string) : list string :=
  longerThan 1 (splitWs (toLowerCase query)).

(** [searchKnowledgeBase] of database.ts, as a function of the query, the
    limit (3 by default) and the entries it awaits.  The write to the
    recent searches does not take part in the result;
    [addRecentSearch] catches its own errors. *)
Definition searchKnowledgeBase (query : string) (limit : num)
  (allEntries : list KnowledgeEntry) : list KnowledgeEntry :=
  if String.eqb (trim query) "" then []
  else
    let keywords := queryKeywords query in
    let scoredEntries :=
      map (fun entry => (entry, entryScore query keywords entry)) allEntries in
    map fst
      (slice0
         (sort byScoreDesc (filter (fun item => 0 <? snd item) scoredEntries))
         limit).

End Database.

(* ===================================================================== *)
(** ** Contextual memory (the module that imports [fuzzySearch]) *)
(* ===================================================================== *)

(** The inner statement of the two loops of [neuralTextSimilarity], on
    the pair [(fuzzyScore, matchCount)]. *)
Definition fuzzyStep (token1 : string) (acc : num * nat) (token2 : string)
  : num * nat :=
  let '(fuzzyScore, matchCount) := acc in
  if negb (String.eqb token1 token2) then
    let similarity := fuzzySearch token1 token2 in
    if (similarity >? Fin (4 # 5))%num
    then ((fuzzyScore + similarity)%num, S matchCount)
    else acc
  else acc.

(** [neuralTextSimilarity]. *)
Definition neuralTextSimilarity (text1 text2 : string) : num :=
  let tokens1 := tokenize text1 in
  let tokens2 := tokenize text2 in
  let set1 := JSSet.of_list tokens1 in
  let set2 := JSSet.of_list tokens2 in
  let intersection := JSSet.of_list (filter (fun x => JSSet.has set2 x) set1) in
  let union := JSSet.of_list (set1 ++ set2) in
  let jaccardScore :=
    (of_nat (JSSet.size intersection) / of_nat (JSSet.size union))%num in
  let '(fuzzyScore, matchCount) :=
    fold_left
      (fun acc token1 => fold_left (fuzzyStep token1) tokens2 acc)
      tokens1 (Fin 0, 0) in
  let normalizedFuzzyScore :=
    if 0 <? matchCount then (fuzzyScore / of_nat matchCount)%num
    else Fin 0 in
  (jaccardScore * Fin (7 # 10) + normalizedFuzzyScore * Fin (3 # 10))%num.

(** The loop of [retrieveContextualMemory]: [i] advances by 2 while
    [i < length - 1], that is, while two messages are left. *)
Fixpoint relevantExchanges (currentQuery : string)
  (conversationHistory : list Chat.Message) : list Chat.Exchange :=
  match conversationHistory with
  | m :: m' :: rest =>
      let found :=
        if String.eqb (Chat.role m) "user"
           && String.eqb (Chat.role m') "assistant"
        then
          let pastQuery := Chat.content m in
          let pastResponse := Chat.content m' in
          let relevance := neuralTextSimilarity currentQuery pastQuery in
          if (relevance >? Fin (3 # 10))%num
          then [Chat.mkExchange pastQuery pastResponse relevance]
          else []
        else [] in
      found ++ relevantExchanges currentQuery rest
  | _ => []
  end.

(** The comparator [(a, b) => b.relevance - a.relevance]. *)
Definition byRelevanceDesc (a b : Chat.Exchange) : num :=
  (Chat.relevance b - Chat.relevance a)%num.

(** [retrieveContextualMemory]. *)
Definition retrieveContextualMemory (currentQuery : string)
  (conversationHistory : list Chat.Message) : list Chat.Exchange :=
  if List.length conversationHistory <? 4 then []
  else
    slice0
      (sort byRelevanceDesc
         (relevantExchanges currentQuery conversationHistory))
      (Fin 3).

(* ===================================================================== *)
(** ** search.ts: the arrays of the pipeline as objects *)
(* ===================================================================== *)

Module Store.

(** An array object of the pipeline: the array of the entries, or an
    array of results.  Its elements are held in it, so that a write to a
    field of an element would be a change of the array. *)
Inductive array : Type :=
  | Entries (items : list KnowledgeEntry)
  | Results (items : list SearchResult).

(** The store holds the array objects in the order of their creation; a
    reference is the position of its object. *)
Definition t : Type := list array.

Definition ref : Type := nat.

(** A computation on the store.  [None] stands for a run that does not
    return a value: the loop that never ends, or the use of a reference
    that holds no array of the expected kind. *)
Definition M (A : Type) : Type := t -> option (A * t).

Definition bind {A B} (m : M A) (k : A -> M B) : M B :=
  fun h =>
    match m h with
    | Some (a, h') => k a h'
    | None => None
    end.

Definition lift {A} (o : option A) : M A :=
  fun h =>
    match o with
    | Some a => Some (a, h)
    | None => None
    end.

(** A new array object: [[]], and the results of [map], [filter] and
    [slice]. *)
Definition alloc (a : array) : M ref :=
  fun h => Some (List.length h, h ++ [a]).

Definition readEntries (r : ref) : M (list KnowledgeEntry) :=
  fun h =>
    match nth_error h r with
    | Some (Entries items) => Some (items, h)
    | _ => None
    end.

Definition readResults (r : ref) : M (list SearchResult) :=
  fun h =>
    match nth_error h r with
    | Some (Results items) => Some (items, h)
    | _ => None
    end.

(** [arr.sort(comparefn)] on an array of results: the array object is
    sorted in place, and the call returns the reference it was given. *)
Definition sortResults (comparefn : SearchResult -> SearchResult -> num)
  (r : ref) : M ref :=
  fun h =>
    match nth_error h r with
    | Some (Results items) =>
        Some (r, upd h r (Results (sort comparefn items)))
    | _ => None
    end.

End Store.

Notation "x <~ m ;; k" := (Store.bind m (fun x => k))
  (at level 61, m at next level, right associativity).

Section SearchObjects.

Variable ln : Q -> Q.

(** [rankResults] on array objects: [[]] for no results; otherwise
    [results.map] makes a new array, which [sort] orders in place and
    returns. *)
Definition rankResultsIn (query : string) (results allEntries : Store.ref)
  : Store.M Store.ref :=
  items <~ Store.readResults results ;;
  if List.length items =? 0 then Store.alloc (Store.Results [])
  else
    entries <~ Store.readEntries allEntries ;;
    let avgDocLength := averageDocLength entries in
    let allDocuments := map documentOf entries in
    scoredResults <~
      Store.alloc
        (Store.Results
           (map (rescore ln query avgDocLength allDocuments) items)) ;;
    Store.sortResults byScoreDesc scoredResults.

(** [searchKnowledgeBase] on array objects.  [allEntries] refers to the
    array that [getAllEntries] has returned; each of [map], [filter] and
    [slice] makes a new array, and the two calls of [sort] order in
    place the array they are called on. *)
Definition searchKnowledgeBaseIn (query : string) (allEntries : Store.ref)
  (settings : Settings) : Store.M Store.ref :=
  if String.eqb (trim query) "" then Store.alloc (Store.Results [])
  else
    entries <~ Store.readEntries allEntries ;;
    let normalizedQuery := trim (toLowerCase query) in
    let queryTerms := longerThan 2 (splitWs normalizedQuery) in
    if List.length queryTerms =? 0 then Store.alloc (Store.Results [])
    else
      let expandedQuery := expandQuery normalizedQuery entries in
      let expandedTerms :=
        filter (fun term => negb (arrIncludes queryTerms term))
               (splitWs expandedQuery) in
      scored <~
        Store.lift
          (mapM (scoreEntry ln normalizedQuery queryTerms expandedTerms entries)
                entries) ;;
      scoredEntries <~ Store.alloc (Store.Results scored) ;;
      items <~ Store.readResults scoredEntries ;;
      filtered <~
        Store.alloc
          (Store.Results
             (filter
                (fun item =>
                   (score item >? relevanceThreshold settings * Fin 10)%num)
                items)) ;;
      sorted <~ Store.sortResults byScoreDesc filtered ;;
      items <~ Store.readResults sorted ;;
      filteredResults <~
        Store.alloc (Store.Results (slice0 items (maxResults settings))) ;;
      rankResultsIn normalizedQuery filteredResults allEntries.

End SearchObjects.

(* ===================================================================== *)
(** ** Vocabulary of the further properties *)
(* ===================================================================== *)

(** A number between 0 and 1. *)
Definition inUnit (a : num) : bool := (Fin 0 <=? a)%num && (a <=? Fin 1)%num.

(** A finite number. *)
Definition finite (a : num) : Prop := exists q, a = Fin q.

(** A span inside [text]: [0 <= start < end <= text.length]. *)
Definition spanIn (text : string) (p : Z * Z) : Prop :=
  (0 <= fst p /\ fst p < snd p /\ snd p <= len text)%Z.

(** Spans in ascending order, the first one starting at [lo] or later and
    none starting before the end of the one before it. *)
Fixpoint ascendingFrom (lo : Z) (ps : list (Z * Z)) : Prop :=
  match ps with
  | [] => True
  | p :: ps' => (lo <= fst p /\ fst p <= snd p)%Z /\ ascendingFrom (snd p) ps'
  end.

(** [t] occurs in [s] at position [i]. *)
Definition occursAt (t s : string) (i : nat) : Prop :=
  startsWith t (drop i s) = true.

(** [relatedTo] with its floating-point test,
    [levenshteinSimilarity(qTerm, term) > 0.7], as the parameter
    [close]. *)
Definition relatedWhen (close : string -> string -> bool)
  (queryTerms : list string) (term : string) : bool :=
  existsb
    (fun qTerm =>
       close qTerm term || includes term qTerm || includes qTerm term)
    queryTerms.

(** The set [expandedTerms] of [expandQuery] with its two floating-point
    tests as parameters: [similar entry] stands for [similarity > 0.3]
    and [close qTerm term] for
    [levenshteinSimilarity(qTerm, term) > 0.7]. *)
Definition expandedTermSetWhen (similar : KnowledgeEntry -> bool)
  (close : string -> string -> bool) (query : string)
  (entries : list KnowledgeEntry) : JSSet.t :=
  let queryTerms := tokenize query in
  fold_left
    (fun expandedTerms entry =>
       if similar entry then
         let entryTerms :=
           filter
             (fun term =>
                (3 <? String.length term)
                && negb (arrIncludes queryTerms term)
                && negb (matchesStopword term))
             (splitWs (toLowerCase (documentOf entry))) in
         fold_left
           (fun expandedTerms term =>
              if relatedWhen close queryTerms term
              then JSSet.add expandedTerms term
              else expandedTerms)
           entryTerms expandedTerms
       else expandedTerms)
    entries (JSSet.of_list queryTerms).

(** [finalTerms] of [expandQuery], with the same two parameters. *)
Definition finalTermsWhen (similar : KnowledgeEntry -> bool)
  (close : string -> string -> bool) (query : string)
  (entries : list KnowledgeEntry) : list string :=
  slice0 (expandedTermSetWhen similar close query entries)
         (of_nat (List.length (tokenize query) + 3)).

(** The two tests as [expandedTermSet] decides them. *)
Definition similarEnough (query : string) (entry : KnowledgeEntry) : bool :=
  (calculateSimilarity query (documentOf entry) >? Fin (3 # 10))%num.

Definition closeEnough (qTerm term : string) : bool :=
  (levenshteinSimilarity qTerm term >? Fin (7 # 10))%num.

(** [term] is a term that [expandQuery] may add to the terms of [query]:
    a word of an entry that passes the similarity test, longer than three
    characters, neither a query term nor a stop word, and related to a
    query term. *)
Definition expansionWhen (similar : KnowledgeEntry -> bool)
  (close : string -> string -> bool) (query : string)
  (entries : list KnowledgeEntry) (term : string) : Prop :=
  exists entry,
    In entry entries
    /\ similar entry = true
    /\ In term (splitWs (toLowerCase (documentOf entry)))
    /\ 3 < String.length term
    /\ ~ In term (tokenize query)
    /\ matchesStopword term = false
    /\ relatedWhen close (tokenize query) term = true.

(** A match record of a result for [entry]: it names the title or the
    content, and its spans, of which there is at least one, lie inside
    the lowercased text of that field. *)
Definition recordIn (entry : KnowledgeEntry) (m : FieldMatch) : Prop :=
  positions m <> []
  /\ ((field m = "title"%string
       /\ Forall (spanIn (toLowerCase (title entry))) (positions m))
      \/ (field m = "content"%string
          /\ Forall (spanIn (toLowerCase (content entry))) (positions m))).

(** A finite number that is not negative. *)
Definition nonnegative (a : num) : Prop := exists q, a = Fin q /\ (0 <= q)%Q.

(** A finite number above 0. *)
Definition positive (a : num) : Prop := exists q, a = Fin q /\ (0 < q)%Q.

(** The entries of [l] in descending order of their keyword-search
    score. *)
Definition byDatabaseScore (query : string) (l : list KnowledgeEntry) : Prop :=
  StronglySorted
    (fun a b =>
       Database.entryScore query (Database.queryKeywords query) b
       <= Database.entryScore query (Database.queryKeywords query) a)
    l.

(** The entry mentions the query or one of its keywords: in its title,
    in its content or, for a keyword, in one of its own keywords. *)
Definition mentions (query : string) (entry : KnowledgeEntry) : Prop :=
  includes (toLowerCase (title entry)) (toLowerCase query) = true
  \/ includes (toLowerCase (content entry)) (toLowerCase query) = true
  \/ exists keyword,
       In keyword (Database.queryKeywords query)
       /\ (includes (toLowerCase (title entry)) keyword = true
           \/ includes (toLowerCase (content entry)) keyword = true
           \/ exists k,
                In k (keywords entry)
                /\ includes (toLowerCase k) keyword = true).

(** The exchange is made of a message of the user and the answer of the
    assistant that follows it, at an even position of the history. *)
Definition exchangeOf (history : list Chat.Message) (x : Chat.Exchange)
  : Prop :=
  exists i m m',
    nth_error history (2 * i) = Some m
    /\ nth_error history (2 * i + 1) = Some m'
    /\ Chat.role m = "user"%string
    /\ Chat.role m' = "assistant"%string
    /\ Chat.content m = Chat.query x
    /\ Chat.content m' = Chat.response x.

(** The text from position [lo] on, written from left to right with
    every span of [ps] between the opening and the closing tag. *)
Fixpoint markedFrom (text : string) (lo : Z) (ps : list (Z * Z)) : string :=
  match ps with
  | [] => substringFrom text lo
  | p :: ps' =>
      (substring text lo (fst p) ++ markOpen
       ++ substring text (fst p) (snd p) ++ markClose
       ++ markedFrom text (snd p) ps')%string
  end.

(** The message before the last one of the history is a message of the
    user with the text [query], the history has three messages or more,
    and the query has a word of more than two characters. *)
Definition asksAgain (query : string) (history : list Chat.Message) : Prop :=
  3 <= List.length history
  /\ tokenize query <> []
  /\ exists m,
       nth_error history (List.length history - 2) = Some m
       /\ Chat.role m = "user"%string
       /\ Chat.content m = query.

(* ===================================================================== *)
(** * Properties *)
(* ===================================================================== *)

(** ** Code units and strings *)

Lemma codeUnit_eqb_spec (a b : codeUnit) : reflect (a = b) (CodeUnit.eqb a b).
Proof.
  destruct a as [x| |], b as [y| |]; simpl; try (constructor; congruence).
  destruct (Ascii.eqb_spec x y); constructor; congruence.
Qed.

Lemma codeUnit_eqb_refl (a : codeUnit) : CodeUnit.eqb a a = true.
Proof. now destruct (codeUnit_eqb_spec a a). Qed.

Lemma codeUnit_eqb_sym (a b : codeUnit) : CodeUnit.eqb a b = CodeUnit.eqb b a.
Proof.
  destruct (codeUnit_eqb_spec a b), (codeUnit_eqb_spec b a); congruence.
Qed.

Lemma string_eqb_spec (s t : string) : reflect (s = t) (String.eqb s t).
Proof.
  revert t. induction s as [|a s IH]; intros [|b t]; simpl;
    try (constructor; congruence).
  destruct (codeUnit_eqb_spec a b); simpl; [|constructor; congruence].
  destruct (IH t); constructor; congruence.
Qed.

Lemma string_eqb_refl (s : string) : String.eqb s s = true.
Proof. now destruct (string_eqb_spec s s). Qed.

Lemma string_eqb_eq (s t : string) : String.eqb s t = true <-> s = t.
Proof. destruct (string_eqb_spec s t); split; congruence. Qed.

Lemma string_dec (s t : string) : {s = t} + {s <> t}.
Proof. destruct (string_eqb_spec s t); [now left | now right]. Qed.

(** ** Arithmetic of JS numbers *)

Lemma Fin_Qred_eq (p q : Q) : (p == q)%Q -> Fin (Qred p) = Fin (Qred q).
Proof. intros H. f_equal. now apply Qred_complete. Qed.

Lemma le_Fin (p q : Q) : (Fin p <=? Fin q)%num = true <-> (p <= q)%Q.
Proof.
  unfold le. rewrite Qle_alt.
  destruct (p ?= q)%Q; split; intros; congruence.
Qed.

Lemma lt_Fin (p q : Q) : (Fin p <? Fin q)%num = true <-> (p < q)%Q.
Proof.
  unfold lt. rewrite Qlt_alt.
  destruct (p ?= q)%Q; split; intros; congruence.
Qed.

Lemma sgn_pos (q : Q) : (0 < q)%Q -> sgn q = Gt.
Proof. intros H. unfold sgn. now apply Qgt_alt. Qed.

Lemma inject_nat_pos (n : nat) : 0 < n -> (0 < inject_Z (Z.of_nat n))%Q.
Proof.
  intros H. change 0%Q with (inject_Z 0). rewrite <- Zlt_Qlt. lia.
Qed.

Lemma div_of_nat (a b : nat) :
  0 < b ->
  (of_nat a / of_nat b)%num
  = Fin (Qred (inject_Z (Z.of_nat a) / inject_Z (Z.of_nat b))).
Proof.
  intros H. unfold of_nat, of_Z, div.
  now rewrite (sgn_pos _ (inject_nat_pos b H)).
Qed.

Lemma div_self (n : nat) : 0 < n -> (of_nat n / of_nat n)%num = Fin 1.
Proof.
  intros H. rewrite div_of_nat by assumption.
  change (Fin 1) with (Fin (Qred 1)). apply Fin_Qred_eq.
  apply Qmult_inv_r. apply Qnot_eq_sym, Qlt_not_eq, inject_nat_pos, H.
Qed.

Lemma ratio_bounds (a b : nat) :
  a <= b -> 0 < b ->
  (0 <= inject_Z (Z.of_nat a) / inject_Z (Z.of_nat b) <= 1)%Q.
Proof.
  intros Hab Hb.
  pose proof (inject_nat_pos b Hb) as Hpos.
  assert (Ha : (0 <= inject_Z (Z.of_nat a))%Q).
  { change 0%Q with (inject_Z 0). rewrite <- Zle_Qle. lia. }
  assert (Hle : (inject_Z (Z.of_nat a) <= inject_Z (Z.of_nat b))%Q).
  { rewrite <- Zle_Qle. lia. }
  split.
  - apply Qle_shift_div_l; [assumption|]. now rewrite Qmult_0_l.
  - apply Qle_shift_div_r; [assumption|]. now rewrite Qmult_1_l.
Qed.

(** ** Tables *)

Lemma length_upd {A} (l : list A) i v : List.length (upd l i v) = List.length l.
Proof.
  revert i; induction l as [|x l IH]; intros [|i]; simpl; auto.
Qed.

Lemma nth_upd {A} (l : list A) i k v d :
  nth k (upd l i v) d
  = if (k =? i) && (i <? List.length l) then v else nth k l d.
Proof.
  revert i k; induction l as [|x l IH]; intros [|i] [|k]; simpl; auto.
  now rewrite andb_false_r.
Qed.


Lemma shape_repeat rows cols : shape (repeat (repeat 0 cols) rows) rows cols.
Proof.
  split.
  - apply repeat_length.
  - intros j Hj. rewrite nth_repeat_lt by assumption. apply repeat_length.
Qed.

Lemma shape_set2 t rows cols j i v :
  shape t rows cols -> shape (set2 t j i v) rows cols.
Proof.
  intros [Hr Hc]. unfold set2. split.
  - now rewrite length_upd.
  - intros k Hk. rewrite nth_upd.
    destruct ((k =? j) && (j <? List.length t)) eqn:E.
    + apply andb_prop in E as [E _]. apply Nat.eqb_eq in E. subst k.
      rewrite length_upd. now apply Hc.
    + now apply Hc.
Qed.

Lemma get2_set2 t rows cols j i v j' i' :
  shape t rows cols -> j < rows -> i < cols ->
  get2 (set2 t j i v) j' i'
  = if (j' =? j) && (i' =? i) then v else get2 t j' i'.
Proof.
  intros [Hr Hc] Hj Hi. unfold get2, set2. rewrite nth_upd.
  assert (Hlt : (j <? List.length t) = true) by (apply Nat.ltb_lt; lia).
  rewrite Hlt, andb_true_r.
  destruct (j' =? j) eqn:E; simpl; [|reflexivity].
  apply Nat.eqb_eq in E. subst j'. rewrite nth_upd.
  assert (Hlt' : (i <? List.length (nth j t [])) = true).
  { apply Nat.ltb_lt. rewrite Hc; assumption. }
  now rewrite Hlt', andb_true_r.
Qed.

Lemma for_range_inv {T} (P : nat -> T -> Prop) (body : T -> nat -> T) n :
  forall start t,
    P start t ->
    (forall i t, start <= i < start + n -> P i t -> P (S i) (body t i)) ->
    P (start + n) (for_range start n body t).
Proof.
  unfold for_range. induction n as [|n IH]; intros start t H0 Hstep; simpl.
  - now rewrite Nat.add_0_r.
  - rewrite <- Nat.add_succ_comm. apply IH.
    + apply Hstep; [lia | assumption].
    + intros i t' Hi. apply Hstep. lia.
Qed.

(** ** The edit-distance table *)

Section Table.

Variables str1 str2 : string.
Abbreviation n1 := (String.length str1).
Abbreviation n2 := (String.length str2).


Lemma lev_rec_row0 j : lev_rec str1 str2 j 0 = j.
Proof. destruct j; reflexivity. Qed.

Lemma lev_rec_step j i :
  lev_rec str1 str2 (S j) (S i)
  = min3 (lev_rec str1 str2 (S j) i + 1)
         (lev_rec str1 str2 j (S i) + 1)
         (lev_rec str1 str2 j i + indicator str1 str2 i j).
Proof. reflexivity. Qed.

Lemma first_row_filled :
  filled str1 str2 (for_range 0 (n1 + 1) (fun t i => set2 t 0 i i)
            (repeat (repeat 0 (n1 + 1)) (n2 + 1)))
         (fun j _ => j = 0).
Proof.
  pose (P := fun k t => filled str1 str2 t (fun j i => j = 0 /\ i < k)).
  assert (H : P (0 + (n1 + 1))
                (for_range 0 (n1 + 1) (fun t i => set2 t 0 i i)
                   (repeat (repeat 0 (n1 + 1)) (n2 + 1)))).
  { apply for_range_inv with (P := P).
    - split; [apply shape_repeat | intros j i _ _ [_ H]; lia].
    - intros k t Hk [Hs Hv]. split; [now apply shape_set2|].
      intros j i Hj Hi [-> Hik].
      rewrite (get2_set2 _ _ _ _ _ _ _ _ Hs) by lia.
      destruct (Nat.eq_dec i k) as [ -> | Hne].
      + now rewrite !Nat.eqb_refl.
      + replace (i =? k) with false by (symmetry; now apply Nat.eqb_neq).
        rewrite andb_false_r. apply Hv; auto. split; [reflexivity | lia]. }
  destruct H as [Hs Hv]. split; [assumption|].
  intros j i Hj Hi ->. apply Hv; auto. split; [reflexivity | lia].
Qed.

Lemma first_column_filled t :
  filled str1 str2 t (fun j _ => j = 0) ->
  filled str1 str2 (for_range 0 (n2 + 1) (fun t j => set2 t j 0 j) t)
         (fun j i => j = 0 \/ i = 0).
Proof.
  intros [Hs0 Hv0].
  pose (P := fun k t =>
               filled str1 str2 t (fun j i => j = 0 \/ (i = 0 /\ j < k))).
  assert (H : P (0 + (n2 + 1))
                (for_range 0 (n2 + 1) (fun t j => set2 t j 0 j) t)).
  { apply for_range_inv with (P := P).
    - split; [assumption|]. intros j i Hj Hi [ -> | [_ H]]; [|lia].
      now apply Hv0.
    - intros k t' Hk [Hs Hv]. split; [now apply shape_set2|].
      intros j i Hj Hi Hkn.
      rewrite (get2_set2 _ _ _ _ _ _ _ _ Hs) by lia.
      destruct ((j =? k) && (i =? 0)) eqn:E.
      + apply andb_prop in E as [E1 E2].
        apply Nat.eqb_eq in E1, E2. subst. now rewrite lev_rec_row0.
      + apply Hv; auto. apply andb_false_iff in E as [E|E];
          apply Nat.eqb_neq in E; destruct Hkn as [ -> | [ -> Hlt]]; auto;
          right; split; auto; lia. }
  destruct H as [Hs Hv]. split; [assumption|].
  intros j i Hj Hi [ -> | -> ]; apply Hv; auto.
  right. split; [reflexivity | lia].
Qed.


Lemma inner_loop_filled t j :
  1 <= j <= n2 ->
  filled str1 str2 t (fun j' i => j' = 0 \/ i = 0 \/ j' < j) ->
  filled str1 str2
         (for_range 1 n1 (fun t i => set2 t j i (cell str1 str2 t j i)) t)
         (fun j' i => j' = 0 \/ i = 0 \/ j' < S j).
Proof.
  intros Hj [Hs0 Hv0].
  pose (P := fun k t =>
               filled str1 str2 t (fun j' i => j' = 0 \/ i = 0 \/ j' < j
                                     \/ (j' = j /\ i < k))).
  assert (H : P (1 + n1)
                (for_range 1 n1
                   (fun t i => set2 t j i (cell str1 str2 t j i)) t)).
  { apply for_range_inv with (P := P).
    - split; [assumption|]. intros j' i Hj' Hi Hkn. apply Hv0; auto.
      destruct Hkn as [H|[H|[H|[_ H]]]]; auto. right; left; lia.
    - intros k t' Hk [Hs Hv]. split; [now apply shape_set2|].
      intros j' i Hj' Hi Hkn.
      rewrite (get2_set2 _ _ _ _ _ _ _ _ Hs) by lia.
      destruct ((j' =? j) && (i =? k)) eqn:E.
      + apply andb_prop in E as [E1 E2].
        apply Nat.eqb_eq in E1, E2. subst j' i.
        destruct j as [|j0]; [lia|]. destruct k as [|k0]; [lia|].
        rewrite lev_rec_step. unfold cell. simpl Nat.sub.
        rewrite !Nat.sub_0_r.
        rewrite !Hv by (try lia; auto 6 with arith).
        reflexivity.
      + apply Hv; auto. apply andb_false_iff in E as [E|E];
          apply Nat.eqb_neq in E;
          destruct Hkn as [H|[H|[H|[H1 H2]]]]; auto;
          do 3 right; split; auto; lia. }
  destruct H as [Hs Hv]. split; [assumption|].
  intros j' i Hj' Hi Hkn. apply Hv; auto.
  destruct Hkn as [H|[H|H]]; auto.
  destruct (Nat.eq_dec j' j) as [ -> | Hne].
  - do 3 right. split; [reflexivity | lia].
  - right; right; left. lia.
Qed.

Lemma outer_loop_filled t :
  filled str1 str2 t (fun j i => j = 0 \/ i = 0) ->
  filled str1 str2 (for_range 1 n2
            (fun t j =>
               for_range 1 n1
                 (fun t i => set2 t j i (cell str1 str2 t j i)) t)
            t)
         (fun _ _ => True).
Proof.
  intros [Hs0 Hv0].
  pose (P := fun k t =>
               filled str1 str2 t (fun j i => j = 0 \/ i = 0 \/ j < k)).
  assert (H : P (1 + n2)
                (for_range 1 n2
                   (fun t j =>
                      for_range 1 n1
                        (fun t i => set2 t j i (cell str1 str2 t j i)) t)
                   t)).
  { apply for_range_inv with (P := P).
    - split; [assumption|]. intros j i Hj Hi Hkn. apply Hv0; auto.
      destruct Hkn as [H|[H|H]]; auto. left; lia.
    - intros k t' Hk Hf. apply inner_loop_filled; [lia | exact Hf]. }
  destruct H as [Hs Hv]. split; [assumption|].
  intros j i Hj Hi _. apply Hv; auto. right; right; lia.
Qed.

(** The table-filling loops compute the recurrence. *)
Lemma levenshteinDistance_rec :
  levenshteinDistance str1 str2 = lev_rec str1 str2 n2 n1.
Proof.
  unfold levenshteinDistance.
  pose proof (outer_loop_filled _ (first_column_filled _ first_row_filled))
    as [_ Hv].
  apply Hv; auto.
Qed.

Lemma lev_rec_le_max j i : lev_rec str1 str2 j i <= Nat.max i j.
Proof.
  revert i. induction j as [|j IHj]; intros i.
  - simpl. lia.
  - induction i as [|i IHi].
    + simpl. lia.
    + rewrite lev_rec_step. unfold min3.
      pose proof (IHj i) as H. unfold indicator.
      destruct (charAt str1 i), (charAt str2 j);
        try destruct (CodeUnit.eqb _ _); lia.
Qed.

End Table.

Lemma lev_rec_diag (s : string) i : lev_rec s s i i = 0.
Proof.
  induction i as [|i IH]; [reflexivity|].
  rewrite lev_rec_step, IH. unfold indicator, min3.
  destruct (charAt s i); [rewrite codeUnit_eqb_refl|]; lia.
Qed.

Lemma levenshteinDistance_le_max (a b : string) :
  levenshteinDistance a b <= Nat.max (String.length a) (String.length b).
Proof. rewrite levenshteinDistance_rec. apply lev_rec_le_max. Qed.

Lemma levenshteinDistance_refl (a : string) : levenshteinDistance a a = 0.
Proof. rewrite levenshteinDistance_rec. apply lev_rec_diag. Qed.

Lemma levenshteinSimilarity_formula (a b : string) :
  0 < Nat.max (String.length a) (String.length b) ->
  levenshteinSimilarity a b
  = Fin (Qred (1 - Qred (inject_Z (Z.of_nat (lev_rec a b (String.length b)
                                                     (String.length a)))
                         / inject_Z (Z.of_nat (Nat.max (String.length a)
                                                       (String.length b)))))).
Proof.
  intros H. unfold levenshteinSimilarity.
  destruct (Nat.eqb_spec (Nat.max (String.length a) (String.length b)) 0);
    [lia|].
  rewrite div_of_nat by assumption. rewrite levenshteinDistance_rec.
  reflexivity.
Qed.

(** C4.  [levenshteinSimilarity(a, b)] is a number between 0 and 1, it is
    1 when the two strings are equal, in particular for two empty
    strings, and it is [1 - distance / max(len(a), len(b))], where the
    distance obeys the recurrence of the unit-cost edit distance
    (insertion, deletion and substitution each cost 1). *)
Theorem levenshteinSimilarity_bounds (a b : string) :
  ((Fin 0 <=? levenshteinSimilarity a b)%num = true
   /\ (levenshteinSimilarity a b <=? Fin 1)%num = true)
  /\ levenshteinSimilarity a a = Fin 1
  /\ levenshteinSimilarity "" "" = Fin 1
  /\ levenshteinDistance a b = lev_rec a b (String.length b) (String.length a)
  /\ levenshteinSimilarity a b
     = (if Nat.max (String.length a) (String.length b) =? 0 then Fin 1
        else (Fin 1
              - of_nat (levenshteinDistance a b)
                / of_nat (Nat.max (String.length a) (String.length b)))%num).
Proof.
  split; [|split; [|split; [|split]]].
  - destruct (Nat.eq_dec (Nat.max (String.length a) (String.length b)) 0)
      as [E|E].
    + unfold levenshteinSimilarity. rewrite E. simpl. split; reflexivity.
    + rewrite levenshteinSimilarity_formula by lia.
      pose proof (lev_rec_le_max a b (String.length b) (String.length a)) as Hd.
      pose proof (ratio_bounds _ _ Hd ltac:(lia)) as [H0 H1].
      split; apply le_Fin; rewrite !Qred_correct; lra.
  - unfold levenshteinSimilarity. rewrite Nat.max_id.
    destruct (Nat.eqb_spec (String.length a) 0) as [|E]; [reflexivity|].
    rewrite levenshteinDistance_refl, div_of_nat by lia.
    change (Fin 1) with (Fin (Qred 1)) at 2. apply Fin_Qred_eq.
    rewrite Qred_correct. unfold Qdiv. simpl inject_Z. rewrite Qmult_0_l. lra.
  - reflexivity.
  - apply levenshteinDistance_rec.
  - reflexivity.
Qed.

(** ** Sets *)

Lemma has_In (s : JSSet.t) (x : string) : JSSet.has s x = true <-> In x s.
Proof.
  unfold JSSet.has. rewrite existsb_exists. split.
  - intros [y [Hy E]]. apply string_eqb_eq in E. now subst.
  - intros H. exists x. split; [assumption | apply string_eqb_refl].
Qed.

Lemma In_add (s : JSSet.t) (x y : string) :
  In y (JSSet.add s x) <-> In y s \/ y = x.
Proof.
  unfold JSSet.add. destruct (JSSet.has s x) eqn:E.
  - apply has_In in E. split; [auto | intros [H| ->]; assumption].
  - rewrite in_app_iff. simpl. intuition.
Qed.

Lemma NoDup_add (s : JSSet.t) (x : string) : NoDup s -> NoDup (JSSet.add s x).
Proof.
  intros H. unfold JSSet.add. destruct (JSSet.has s x) eqn:E; [assumption|].
  assert (Hx : ~ In x s) by (rewrite <- has_In; congruence).
  apply NoDup_rev in H. rewrite <- (rev_involutive (s ++ [x])).
  apply NoDup_rev. rewrite rev_app_distr. simpl. constructor; [|assumption].
  now rewrite <- in_rev.
Qed.

Lemma fold_add_spec (l : list string) :
  forall acc, NoDup acc ->
    NoDup (fold_left JSSet.add l acc)
    /\ forall y, In y (fold_left JSSet.add l acc) <-> In y acc \/ In y l.
Proof.
  induction l as [|x l IH]; intros acc Hnd; simpl.
  - split; [assumption | intros y; tauto].
  - destruct (IH _ (NoDup_add acc x Hnd)) as [H1 H2]. split; [assumption|].
    intros y. rewrite H2, In_add. intuition.
Qed.

Lemma NoDup_of_list (l : list string) : NoDup (JSSet.of_list l).
Proof. apply (fold_add_spec l []). constructor. Qed.

Lemma In_of_list (l : list string) (y : string) :
  In y (JSSet.of_list l) <-> In y l.
Proof.
  unfold JSSet.of_list.
  destruct (fold_add_spec l [] (NoDup_nil _)) as [_ H].
  rewrite H. simpl. tauto.
Qed.

(** Two sets built from lists with the same elements have the same
    size. *)
Lemma size_of_list_ext (l1 l2 : list string) :
  (forall y, In y l1 <-> In y l2) ->
  JSSet.size (JSSet.of_list l1) = JSSet.size (JSSet.of_list l2).
Proof.
  intros H. unfold JSSet.size. apply Permutation_length.
  apply NoDup_Permutation; try apply NoDup_of_list.
  intros y. rewrite !In_of_list. apply H.
Qed.

Lemma of_list_nonempty (l : list string) : l <> [] -> JSSet.of_list l <> [].
Proof.
  destruct l as [|x l]; [congruence|]. intros _ E.
  assert (H : In x (JSSet.of_list (x :: l))) by (apply In_of_list; now left).
  rewrite E in H. contradiction.
Qed.

(** ** Jaccard similarity *)

Lemma jaccardSimilarity_sym (A B : JSSet.t) :
  jaccardSimilarity A B = jaccardSimilarity B A.
Proof.
  unfold jaccardSimilarity. f_equal; f_equal; apply size_of_list_ext; intros y.
  - rewrite !filter_In, !has_In. tauto.
  - rewrite !in_app_iff. tauto.
Qed.

Lemma jaccardSimilarity_self (A : JSSet.t) :
  A <> [] -> jaccardSimilarity A A = Fin 1.
Proof.
  intros HA. unfold jaccardSimilarity.
  rewrite (size_of_list_ext (filter (fun x => JSSet.has A x) A) (A ++ A)).
  - apply div_self. unfold JSSet.size.
    assert (H : JSSet.of_list (A ++ A) <> []).
    { apply of_list_nonempty. destruct A; [congruence | discriminate]. }
    destruct (JSSet.of_list (A ++ A)); [congruence | simpl; lia].
  - intros y. rewrite filter_In, has_In, in_app_iff. tauto.
Qed.

(** C3.  On two empty sets [jaccardSimilarity] divides 0 by 0 and
    returns NaN, which is neither a number between 0 and 1 nor equal to
    itself; so does [calculateSimilarity] on two texts without tokens, by
    the same division.  (On other inputs the function is symmetric, and
    it is 1 on two equal non-empty sets: [jaccardSimilarity_sym],
    [jaccardSimilarity_self].) *)
Theorem jaccardSimilarity_empty_NaN :
  jaccardSimilarity [] [] = NaN
  /\ (Fin 0 <=? jaccardSimilarity [] [])%num = false
  /\ calculateSimilarity "" "" = NaN.
Proof. repeat split. Qed.

(** ** Characters and tokens *)

Lemma append_assoc (a b c : string) : ((a ++ b) ++ c = a ++ (b ++ c))%string.
Proof. induction a as [|x a IH]; simpl; congruence. Qed.

Lemma append_empty_r (a : string) : (a ++ "")%string = a.
Proof. induction a as [|x a IH]; simpl; congruence. Qed.

Lemma append_length (a b : string) :
  String.length (a ++ b) = String.length a + String.length b.
Proof. induction a as [|c a IH]; simpl; congruence. Qed.

Lemma noSpace_app (s t : string) :
  noSpace (s ++ t) = noSpace s && noSpace t.
Proof.
  induction s as [|c s IH]; simpl; [reflexivity|].
  now rewrite IH, andb_assoc.
Qed.

(** White space is its own lower case. *)
Lemma lowerChar_space (c : codeUnit) :
  isSpace c = true -> lowerChar c = String c EmptyString.
Proof.
  destruct c as [[[] [] [] [] [] [] [] []]| |]; try discriminate; reflexivity.
Qed.

(** The lower case of any other code unit has no white space. *)
Lemma lowerChar_word (c : codeUnit) :
  isSpace c = false -> isWord (lowerChar c).
Proof.
  destruct c as [[[] [] [] [] [] [] [] []]| |]; try discriminate;
    intros _; split; (discriminate || reflexivity).
Qed.

Lemma lowerChar_idem (c : codeUnit) : toLowerCase (lowerChar c) = lowerChar c.
Proof. destruct c as [[[] [] [] [] [] [] [] []]| |]; reflexivity. Qed.

Lemma lowerChar_length (c : codeUnit) : 1 <= String.length (lowerChar c).
Proof. destruct c; simpl; lia. Qed.

Lemma toLowerCase_app (s t : string) :
  toLowerCase (s ++ t) = (toLowerCase s ++ toLowerCase t)%string.
Proof.
  induction s as [|c s IH]; simpl; [reflexivity|].
  now rewrite IH, append_assoc.
Qed.

Lemma toLowerCase_idem (s : string) :
  toLowerCase (toLowerCase s) = toLowerCase s.
Proof.
  induction s as [|c s IH]; simpl; [reflexivity|].
  now rewrite toLowerCase_app, lowerChar_idem, IH.
Qed.

(** Lowercasing never shortens a string: the lower case of U+0130 is two
    code units long, that of any other code unit is one. *)
Lemma toLowerCase_length (s : string) :
  String.length s <= String.length (toLowerCase s).
Proof.
  induction s as [|c s IH]; simpl; [lia|].
  rewrite append_length. pose proof (lowerChar_length c). lia.
Qed.

Lemma toLowerCase_empty (s : string) :
  toLowerCase s = EmptyString -> s = EmptyString.
Proof.
  intros H. pose proof (toLowerCase_length s) as Hl. rewrite H in Hl.
  destruct s; [reflexivity | simpl in Hl; lia].
Qed.

Lemma trimStart_word (w t : string) :
  isWord w -> trimStart (w ++ t) = (w ++ t)%string.
Proof.
  intros [Hne Hw]. destruct w as [|c w]; [congruence|].
  simpl in Hw. apply andb_prop in Hw as [Hc _]. apply negb_true_iff in Hc.
  simpl. now rewrite Hc.
Qed.

Lemma trimEnd_word (w t : string) :
  noSpace w = true -> trimEnd (w ++ t) = (w ++ trimEnd t)%string.
Proof.
  induction w as [|c w IH]; intros Hw; [reflexivity|].
  simpl in Hw. apply andb_prop in Hw as [Hc Hw]. apply negb_true_iff in Hc.
  simpl. rewrite (IH Hw), Hc. now destruct (w ++ trimEnd t)%string.
Qed.

Lemma toLowerCase_trimStart (s : string) :
  toLowerCase (trimStart s) = trimStart (toLowerCase s).
Proof.
  induction s as [|c s IH]; simpl; [reflexivity|].
  destruct (isSpace c) eqn:Ec.
  - rewrite (lowerChar_space c Ec). simpl. now rewrite Ec.
  - rewrite trimStart_word by now apply lowerChar_word. reflexivity.
Qed.

Lemma toLowerCase_trimEnd (s : string) :
  toLowerCase (trimEnd s) = trimEnd (toLowerCase s).
Proof.
  induction s as [|c s IH]; simpl; [reflexivity|].
  destruct (isSpace c) eqn:Ec.
  - rewrite (lowerChar_space c Ec). simpl. rewrite <- IH.
    destruct (trimEnd s) as [|d u] eqn:E; simpl; [now rewrite Ec|].
    rewrite (lowerChar_space c Ec).
    destruct (lowerChar d ++ toLowerCase u)%string eqn:E'; [|reflexivity].
    pose proof (lowerChar_length d) as Hd.
    apply (f_equal String.length) in E'. rewrite append_length in E'.
    simpl in E'. lia.
  - rewrite trimEnd_word by now apply lowerChar_word. rewrite <- IH.
    destruct (trimEnd s); simpl; [|reflexivity].
    now rewrite append_empty_r.
Qed.

Lemma toLowerCase_trim (s : string) :
  toLowerCase (trim s) = trim (toLowerCase s).
Proof. unfold trim. now rewrite toLowerCase_trimEnd, toLowerCase_trimStart. Qed.

Lemma splitWsFrom_noSpace (s : string) :
  forall cur b t,
    noSpace cur = true -> In t (splitWsFrom s cur b) -> noSpace t = true.
Proof.
  induction s as [|c s IH]; intros cur b t Hcur; simpl.
  - intros [<-|[]]. assumption.
  - destruct (isSpace c) eqn:Ec.
    + destruct b; [now apply IH|]. intros [<-|H]; [assumption|].
      now apply (IH EmptyString true).
    + apply IH. rewrite noSpace_app, Hcur. simpl. now rewrite Ec.
Qed.

Lemma splitWs_noSpace (s t : string) : In t (splitWs s) -> noSpace t = true.
Proof. now apply splitWsFrom_noSpace. Qed.

Lemma splitWsFrom_word (w : string) :
  forall rest cur b,
    noSpace w = true -> w <> EmptyString ->
    splitWsFrom (w ++ rest) cur b = splitWsFrom rest (cur ++ w) false.
Proof.
  induction w as [|c w IH]; intros rest cur b Hw Hne; [congruence|].
  simpl in Hw. apply andb_prop in Hw as [Hc Hw]. apply negb_true_iff in Hc.
  simpl. rewrite Hc. destruct w as [|d w].
  - reflexivity.
  - rewrite IH by (assumption || discriminate).
    now rewrite append_assoc.
Qed.

(** Splitting the join of words at white space gives the words back. *)
Lemma splitWs_join (ts : list string) :
  ts <> [] -> Forall isWord ts ->
  forall b, splitWsFrom (join " " ts) EmptyString b = ts.
Proof.
  induction ts as [|x ts IH]; intros Hne Hall b; [congruence|].
  inversion Hall as [|? ? [Hx1 Hx2] Hts]; subst.
  destruct ts as [|y ts].
  - simpl. rewrite <- (append_empty_r x) at 1.
    rewrite splitWsFrom_word by assumption. reflexivity.
  - change (join " " (x :: y :: ts))
      with (x ++ (" " ++ join " " (y :: ts)))%string.
    rewrite splitWsFrom_word by assumption.
    simpl String.append at 1. cbn [splitWsFrom]. 
    change (isSpace (Latin1 " ")) with true. cbn iota.
    f_equal. apply IH; [discriminate | assumption].
Qed.

Lemma longerThan_In (n : nat) (l : list string) (t : string) :
  In t (longerThan n l) <-> In t l /\ n < String.length t.
Proof. unfold longerThan. rewrite filter_In, Nat.ltb_lt. tauto. Qed.

Lemma longer_isWord (n : nat) (s t : string) :
  In t (longerThan n (splitWs s)) -> isWord t.
Proof.
  rewrite longerThan_In. intros [Hin Hlen]. split.
  - intros ->. simpl in Hlen. lia.
  - eapply splitWs_noSpace; eassumption.
Qed.

(** ** Slices *)

Lemma In_firstn {A} (n : nat) (l : list A) (x : A) :
  In x (firstn n l) -> In x l.
Proof.
  revert l; induction n as [|n IH]; intros [|y l]; simpl; try tauto.
  intros [H|H]; [now left | right; now apply IH].
Qed.

Lemma Qtrunc_inject_Z (z : Z) : Qtrunc (inject_Z z) = z.
Proof. unfold Qtrunc. simpl. apply Z.quot_1_r. Qed.

Lemma slice0_of_nat {A} (l : list A) (k : nat) :
  slice0 l (of_nat k) = firstn k l.
Proof.
  unfold slice0, of_nat, of_Z. rewrite Qtrunc_inject_Z.
  destruct (Z.ltb_spec (Z.of_nat k) 0); [lia|].
  destruct (Nat.le_gt_cases k (List.length l)).
  - f_equal. lia.
  - rewrite Z.min_r by lia. rewrite Nat2Z.id.
    now rewrite !firstn_all2 by lia.
Qed.

(** ** Query expansion *)

Lemma finalTerms_firstn (query : string) (entries : list KnowledgeEntry) :
  finalTerms query entries
  = firstn (List.length (tokenize query) + 3) (expandedTermSet query entries).
Proof. apply slice0_of_nat. Qed.

Lemma fold_left_inv {A B} (P : B -> Prop) (f : B -> A -> B) (l : list A) :
  (forall b a, P b -> P (f b a)) -> forall b, P b -> P (fold_left f l b).
Proof.
  intros Hf. induction l as [|a l IH]; intros b Hb; simpl; auto.
Qed.

(** Every element of the expansion set is a query term or a word of an
    entry. *)
Lemma expandedTermSet_words (query : string) (entries : list KnowledgeEntry) :
  Forall isWord (expandedTermSet query entries).
Proof.
  unfold expandedTermSet. apply fold_left_inv.
  - intros s e Hs. destruct (_ >? _)%num; [|assumption].
    set (terms := filter _ _).
    assert (Hterms : Forall isWord terms).
    { apply Forall_forall. intros t Ht. unfold terms in Ht.
      apply filter_In in Ht as [Ht Hc].
      apply andb_prop in Hc as [Hc _]. apply andb_prop in Hc as [Hc _].
      apply Nat.ltb_lt in Hc. split.
      - intros ->. simpl in Hc. lia.
      - eapply splitWs_noSpace; eassumption. }
    clearbody terms. revert s Hs.
    induction Hterms as [|t terms Ht _ IH]; intros s Hs; simpl; [assumption|].
    apply IH. destruct (relatedTo _ t); [|assumption].
    apply Forall_forall. intros y Hy. apply In_add in Hy as [Hy| ->];
      [|assumption]. revert y Hy. now apply Forall_forall.
  - apply Forall_forall. intros t Ht. rewrite In_of_list in Ht.
    eapply longer_isWord. exact Ht.
Qed.

(** The query terms stay at the front of the expansion set. *)
Lemma expandedTermSet_nonempty (query : string)
  (entries : list KnowledgeEntry) :
  tokenize query <> [] -> expandedTermSet query entries <> [].
Proof.
  intros Hq. unfold expandedTermSet. apply fold_left_inv.
  - intros s e Hs. destruct (_ >? _)%num; [|assumption].
    apply fold_left_inv; [|assumption].
    intros s' t Hs'. destruct (relatedTo _ t); [|assumption].
    unfold JSSet.add. destruct (JSSet.has s' t); [assumption|].
    destruct s'; discriminate.
  - now apply of_list_nonempty.
Qed.

(** What the caller of [expandQuery] gets back when it splits the
    returned string again. *)
Lemma splitWs_expandQuery (query : string) (entries : list KnowledgeEntry) :
  tokenize query <> [] ->
  splitWs (expandQuery query entries) = finalTerms query entries.
Proof.
  intros Hq. unfold expandQuery, splitWs. apply splitWs_join.
  - rewrite finalTerms_firstn.
    pose proof (expandedTermSet_nonempty query entries Hq) as Hne.
    destruct (expandedTermSet query entries); [congruence|].
    rewrite Nat.add_comm. discriminate.
  - rewrite finalTerms_firstn. apply Forall_forall. intros t Ht.
    apply In_firstn in Ht. revert t Ht. apply Forall_forall.
    apply expandedTermSet_words.
Qed.

(** C5.  The term list that [expandQuery] joins into its result has at
    most [queryTerms.length + 3] elements, [queryTerms] being the tokens
    of the lowercased query that are longer than 2; the string returned
    splits at white space into at most that many terms; a query of two
    terms expands to at most five. *)
Theorem expandQuery_cap (query : string) (entries : list KnowledgeEntry) :
  List.length (finalTerms query entries) <= List.length (tokenize query) + 3
  /\ List.length (splitWs (expandQuery query entries))
     <= List.length (tokenize query) + 3
  /\ expandQuery query entries = join " " (finalTerms query entries).
Proof.
  assert (H : List.length (finalTerms query entries)
              <= List.length (tokenize query) + 3).
  { rewrite finalTerms_firstn. apply firstn_le_length. }
  split; [exact H|]. split; [|reflexivity].
  destruct (tokenize query) as [|t ts] eqn:E.
  - assert (Hset : expandedTermSet query entries = []).
    { unfold expandedTermSet. rewrite E.
      apply (fold_left_inv (fun s : JSSet.t => s = [])); [|reflexivity].
      intros s e ->. destruct (_ >? _)%num; [|reflexivity].
      apply fold_left_inv; [|reflexivity]. now intros s t ->. }
    assert (Hempty : finalTerms query entries = []).
    { rewrite finalTerms_firstn, Hset. apply firstn_nil. }
    unfold expandQuery. rewrite Hempty. simpl. lia.
  - rewrite splitWs_expandQuery by (rewrite E; discriminate).
    exact H.
Qed.

(** ** Sorting and slicing *)

Lemma sort_insert_perm {A} (cmp : A -> A -> num) (x : A) (l : list A) :
  Permutation (sort_insert cmp x l) (x :: l).
Proof.
  induction l as [|y l IH]; cbn [sort_insert]; [reflexivity|].
  destruct (cmp x y >? Fin 0)%num; [|reflexivity].
  rewrite IH. apply perm_swap.
Qed.

Lemma sort_perm {A} (cmp : A -> A -> num) (l : list A) :
  Permutation (sort cmp l) l.
Proof.
  induction l as [|x l IH]; simpl; [reflexivity|].
  rewrite sort_insert_perm. now constructor.
Qed.

Lemma sort_length {A} (cmp : A -> A -> num) (l : list A) :
  List.length (sort cmp l) = List.length l.
Proof. apply Permutation_length, sort_perm. Qed.

Lemma slice0_length_mono {A B} (l1 : list A) (l2 : list B) (k : num) :
  List.length l1 <= List.length l2 ->
  List.length (slice0 l1 k) <= List.length (slice0 l2 k).
Proof.
  intros H. unfold slice0. destruct k as [| |q|]; simpl; try lia.
  rewrite !length_firstn. destruct (Qtrunc q <? 0)%Z; lia.
Qed.

Lemma Qtrunc_le (q : Q) : (0 <= q)%Q -> (inject_Z (Qtrunc q) <= q)%Q.
Proof.
  intros H. unfold Qtrunc.
  assert (Hn : (0 <= Qnum q)%Z).
  { unfold Qle in H. simpl in H. lia. }
  rewrite Z.quot_div_nonneg by lia. destruct q as [n d].
  apply (Qfloor_le (n # d)).
Qed.

Lemma slice0_length_cap {A} (l : list A) (k : num) :
  (Fin 0 <=? k)%num = true ->
  (of_nat (List.length (slice0 l k)) <=? k)%num = true.
Proof.
  destruct k as [| |q|]; simpl; try discriminate; [|reflexivity].
  intros H. apply le_Fin in H. apply le_Fin.
  pose proof (Qtrunc_le q H) as Ht.
  assert (H0 : (0 <= Qtrunc q)%Z).
  { unfold Qtrunc. apply Z.quot_pos; [|lia].
    unfold Qle in H. simpl in H. lia. }
  destruct (Z.ltb_spec (Qtrunc q) 0); [lia|].
  rewrite length_firstn.
  eapply Qle_trans; [|exact Ht]. rewrite <- Zle_Qle. lia.
Qed.

(** ** The second ranking pass keeps the length *)

Lemma rankResults_length ln query results allEntries :
  List.length (rankResults ln query results allEntries) = List.length results.
Proof.
  unfold rankResults. destruct (Nat.eqb_spec (List.length results) 0) as [E|E].
  - now rewrite E.
  - now rewrite sort_length, length_map.
Qed.

(** ** The occurrence loop ends *)

Lemma startsWith_length (t s : string) :
  startsWith t s = true -> String.length t <= String.length s.
Proof.
  revert s; induction t as [|a t IH]; intros [|b s]; simpl; try lia;
    try discriminate.
  intros H. apply andb_prop in H as [_ H]. apply IH in H. lia.
Qed.

Lemma search_found (t s : string) :
  forall i0 p,
    search t s i0 = p -> p <> (-1)%Z -> (0 <= i0)%Z ->
    (i0 <= p)%Z
    /\ (p - i0 + len t <= len s)%Z
    /\ startsWith t (drop (Z.to_nat (p - i0)) s) = true.
Proof.
  induction s as [|c s IH]; intros i0 p; simpl.
  - destruct (startsWith t "") eqn:E.
    + intros <- _ Hi. replace (i0 - i0)%Z with 0%Z by lia.
      apply startsWith_length in E as HL. unfold len. simpl in *.
      repeat split; try lia; assumption.
    + intros <-. congruence.
  - destruct (startsWith t (String c s)) eqn:E.
    + intros <- _ Hi. replace (i0 - i0)%Z with 0%Z by lia.
      apply startsWith_length in E as HL. unfold len. simpl in *.
      repeat split; try lia; assumption.
    + intros Hp Hne Hi. destruct (IH _ _ Hp Hne ltac:(lia)) as (H1 & H2 & H3).
      unfold len in *. simpl String.length. repeat split; try lia.
      replace (Z.to_nat (p - i0)) with (S (Z.to_nat (p - (i0 + 1)))) by lia.
      exact H3.
Qed.

Lemma drop_length (n : nat) (s : string) :
  String.length (drop n s) = String.length s - n.
Proof.
  revert s; induction n as [|n IH]; intros [|c s]; simpl; auto.
Qed.

Lemma indexOf_found (s t : string) (from p : Z) :
  indexOf s t from = p -> p <> (-1)%Z ->
  (0 <= p)%Z /\ (Z.min from (len s) <= p)%Z /\ (p + len t <= len s)%Z.
Proof.
  unfold indexOf. intros H Hne.
  set (start := Z.min (Z.max from 0) (len s)) in *.
  assert (Hs : (0 <= start <= len s)%Z) by (unfold start, len; lia).
  destruct (search_found _ _ _ _ H Hne ltac:(lia)) as (H1 & H2 & _).
  unfold len in *. rewrite drop_length in H2. lia.
Qed.

Lemma occurrences_returns (text term : string) :
  term <> EmptyString ->
  forall fuel pos acc,
    (0 <= pos <= len text)%Z ->
    (len text < pos + Z.of_nat fuel)%Z ->
    exists r, occurrences fuel text term pos acc = Some r.
Proof.
  intros Hne. induction fuel as [|fuel IH]; intros pos acc Hpos Hfuel;
    [lia|].
  simpl. destruct (Z.eqb_spec (indexOf text term pos) (-1)) as [E|E].
  - eauto.
  - destruct (indexOf_found _ _ _ _ eq_refl E) as (H0 & H1 & H2).
    assert (Hl : (0 < len term)%Z).
    { unfold len. destruct term; [congruence | simpl; lia]. }
    apply IH; lia.
Qed.

Lemma allOccurrences_returns (text term : string) :
  term <> EmptyString -> exists r, allOccurrences text term = Some r.
Proof.
  intros Hne. apply occurrences_returns; [assumption | unfold len; lia ..].
Qed.

(** With the empty term the condition of the loop never fails. *)
Lemma allOccurrences_empty_term (text : string) :
  allOccurrences text EmptyString = None.
Proof.
  unfold allOccurrences. generalize (S (String.length text)) as fuel.
  generalize (@nil (Z * Z)) as acc. generalize 0%Z as pos.
  intros pos acc fuel. revert pos acc.
  induction fuel as [|fuel IH]; intros pos acc; simpl; [reflexivity|].
  assert (E : indexOf text EmptyString pos
              = Z.min (Z.max pos 0) (len text)).
  { unfold indexOf.
    now destruct (drop (Z.to_nat (Z.min (Z.max pos 0) (len text))) text). }
  rewrite E.
  destruct (Z.eqb_spec (Z.min (Z.max pos 0) (len text)) (-1)) as [H|H];
    [unfold len in H; lia | apply IH].
Qed.

Lemma foldM_returns {A B} (f : B -> A -> option B) (P : A -> Prop) l :
  (forall b a, P a -> exists b', f b a = Some b') ->
  Forall P l -> forall b, exists b', foldM f l b = Some b'.
Proof.
  intros Hf Hl. induction Hl as [|a l Ha _ IH]; intros b; simpl; [eauto|].
  destruct (Hf b a Ha) as [b' ->]. simpl. apply IH.
Qed.

Lemma mapM_returns {A B} (f : A -> option B) l :
  (forall a, exists b, f a = Some b) ->
  exists r, mapM f l = Some r /\ List.length r = List.length l.
Proof.
  intros Hf. induction l as [|a l [r [IH1 IH2]]]; simpl; [eauto|].
  destruct (Hf a) as [b ->]. simpl. rewrite IH1. simpl.
  eexists; split; [reflexivity | simpl; congruence].
Qed.

Lemma termMatches_returns fieldName weight text terms acc :
  Forall isWord terms ->
  exists acc', termMatches fieldName weight text terms acc = Some acc'.
Proof.
  intros H. unfold termMatches. revert acc.
  apply foldM_returns with (P := isWord); [|assumption].
  intros [s m] t [Ht _]. destruct (includes text t); [|eauto].
  destruct (allOccurrences_returns text t Ht) as [r ->]. simpl. eauto.
Qed.

Lemma scoreEntry_returns ln nq queryTerms expandedTerms allEntries e :
  Forall isWord queryTerms -> Forall isWord expandedTerms ->
  exists r, scoreEntry ln nq queryTerms expandedTerms allEntries e = Some r.
Proof.
  intros Hq He. unfold scoreEntry, titleTerms, contentTerms.
  set (a0 := exactMatch "title" _ _ _ _).
  destruct (termMatches_returns "title" (Fin 3) (toLowerCase (title e))
              queryTerms a0 Hq) as [a1 ->]. simpl.
  destruct (termMatches_returns "title" (Fin (3 # 2)) (toLowerCase (title e))
              expandedTerms a1 He) as [a2 ->]. simpl.
  set (a3 := exactMatch "content" _ _ _ _).
  destruct (termMatches_returns "content" (Fin 1) (toLowerCase (content e))
              queryTerms a3 Hq) as [a4 ->]. simpl.
  destruct (termMatches_returns "content" (Fin (1 # 2))
              (toLowerCase (content e)) expandedTerms a4 He) as [a5 ->]. simpl.
  eauto.
Qed.

(** ** The pipeline returns *)

Section Pipeline.

Variable ln : Q -> Q.

(** The query terms and the expanded terms of a query that passes the two
    early returns are non-empty words. *)
Lemma pipeline_terms (query : string) (allEntries : list KnowledgeEntry) :
  let normalizedQuery := trim (toLowerCase query) in
  let queryTerms := longerThan 2 (splitWs normalizedQuery) in
  queryTerms <> [] ->
  Forall isWord queryTerms
  /\ Forall isWord
       (filter (fun term => negb (arrIncludes queryTerms term))
               (splitWs (expandQuery normalizedQuery allEntries))).
Proof.
  intros nq qts Hne. split.
  - apply Forall_forall. intros t Ht. eapply longer_isWord. exact Ht.
  - assert (Hlow : toLowerCase nq = nq).
    { unfold nq. now rewrite toLowerCase_trim, toLowerCase_idem. }
    assert (Htok : tokenize nq <> []).
    { unfold tokenize. now rewrite Hlow. }
    rewrite splitWs_expandQuery by assumption.
    apply Forall_forall. intros t Ht. apply filter_In in Ht as [Ht _].
    rewrite finalTerms_firstn in Ht. apply In_firstn in Ht.
    revert t Ht. apply Forall_forall, expandedTermSet_words.
Qed.


(** Every call returns: either by one of the two early returns, with the
    empty list, or with [pipelineOutput] of scored entries that do not
    depend on the settings. *)
Lemma searchKnowledgeBase_returns (query : string)
  (allEntries : list KnowledgeEntry) :
  (forall settings, searchKnowledgeBase ln query allEntries settings = Some [])
  \/ exists scoredEntries,
       forall settings,
         searchKnowledgeBase ln query allEntries settings
         = Some (pipelineOutput ln query allEntries settings scoredEntries).
Proof.
  unfold searchKnowledgeBase.
  destruct (String.eqb (trim query) ""); [now left|].
  destruct (Nat.eqb_spec
              (List.length (longerThan 2 (splitWs (trim (toLowerCase query)))))
              0) as [E|E]; [now left|].
  right.
  assert (Hne : longerThan 2 (splitWs (trim (toLowerCase query))) <> []).
  { intros H. now rewrite H in E. }
  destruct (pipeline_terms query allEntries Hne) as [Hq He].
  destruct (mapM_returns
              (scoreEntry ln (trim (toLowerCase query))
                 (longerThan 2 (splitWs (trim (toLowerCase query))))
                 (filter
                    (fun term =>
                       negb (arrIncludes
                               (longerThan 2
                                  (splitWs (trim (toLowerCase query)))) term))
                    (splitWs (expandQuery (trim (toLowerCase query))
                                allEntries)))
                 allEntries)
              allEntries) as [scored [Hs _]].
  { intros e. now apply scoreEntry_returns. }
  exists scored. intros settings. rewrite Hs. reflexivity.
Qed.

Lemma pipelineOutput_length query allEntries settings scored :
  List.length (pipelineOutput ln query allEntries settings scored)
  = List.length
      (slice0
         (filter
            (fun item =>
               (score item >? relevanceThreshold settings * Fin 10)%num)
            scored)
         (maxResults settings)).
Proof.
  unfold pipelineOutput. rewrite rankResults_length.
  apply Nat.le_antisymm; apply slice0_length_mono; rewrite sort_length; lia.
Qed.

End Pipeline.

(** ** White space, trimming and tokens *)

Lemma trimStart_allSpace (s : string) :
  allSpace s = true -> trimStart s = EmptyString.
Proof.
  induction s as [|c s IH]; simpl; [reflexivity|].
  intros H. apply andb_prop in H as [Hc Hs]. rewrite Hc. auto.
Qed.

Lemma trim_allSpace (s : string) : allSpace s = true -> trim s = EmptyString.
Proof. intros H. unfold trim. now rewrite trimStart_allSpace. Qed.

Lemma trimEnd_empty (s : string) :
  trimEnd s = EmptyString -> allSpace s = true.
Proof.
  induction s as [|c s IH]; simpl; [reflexivity|].
  destruct (trimEnd s); [|discriminate].
  destruct (isSpace c); [auto | discriminate].
Qed.

Lemma splitWsFrom_head (s cur : string) (b : bool) :
  allSpace s = true -> In cur (splitWsFrom s cur b).
Proof.
  revert b. induction s as [|c s IH]; intros b; simpl; [auto|].
  intros H. apply andb_prop in H as [Hc Hs]. rewrite Hc.
  destruct b; [auto | now left].
Qed.

Lemma splitWsFrom_cons (c : codeUnit) (s cur : string) (b : bool) :
  splitWsFrom (String c s) cur b
  = if isSpace c
    then if b then splitWsFrom s cur true
         else cur :: splitWsFrom s EmptyString true
    else splitWsFrom s (cur ++ String c EmptyString) false.
Proof. reflexivity. Qed.

Lemma tokens_trimEnd (s : string) :
  forall cur b t,
    In t (splitWsFrom (trimEnd s) cur b) -> In t (splitWsFrom s cur b).
Proof.
  induction s as [|c s IH]; intros cur b t; [auto|].
  cbn [trimEnd]. destruct (trimEnd s) as [|d u] eqn:E.
  - pose proof (trimEnd_empty s E) as Hs.
    destruct (isSpace c) eqn:Ec; cbn [splitWsFrom]; rewrite ?Ec.
    + intros [<-|[]]. destruct b; [|now left].
      now apply splitWsFrom_head.
    + intros [<-|[]]. now apply splitWsFrom_head.
  - rewrite (splitWsFrom_cons c (String d u)), (splitWsFrom_cons c s).
    destruct (isSpace c).
    + destruct b; [apply IH|]. intros [H|H]; [now left | right; now apply IH].
    + apply IH.
Qed.

Lemma tokens_trimStart (s : string) :
  forall b b' t,
    In t (splitWsFrom (trimStart s) EmptyString b) ->
    In t (splitWsFrom s EmptyString b').
Proof.
  induction s as [|c s IH]; intros b b' t; [auto|].
  cbn [trimStart]. destruct (isSpace c) eqn:Ec.
  - intros H. cbn [splitWsFrom]. rewrite Ec.
    destruct b'; [|right]; eapply IH; exact H.
  - cbn [splitWsFrom]. now rewrite Ec.
Qed.

(** Every token of the trimmed string is a token of the string. *)
Lemma tokens_trim (s t : string) : In t (splitWs (trim s)) -> In t (splitWs s).
Proof.
  unfold splitWs, trim. intros H. apply tokens_trimEnd in H.
  eapply tokens_trimStart. exact H.
Qed.

Lemma splitWsFrom_toLowerCase (s : string) :
  forall cur b,
    splitWsFrom (toLowerCase s) (toLowerCase cur) b
    = map toLowerCase (splitWsFrom s cur b).
Proof.
  induction s as [|c s IH]; intros cur b; simpl; [reflexivity|].
  destruct (isSpace c) eqn:Ec.
  - rewrite (lowerChar_space c Ec). simpl. rewrite Ec.
    destruct b; [apply IH|]. simpl. f_equal. apply (IH EmptyString).
  - destruct (lowerChar_word c Ec) as [Hne Hw].
    rewrite splitWsFrom_word by assumption.
    rewrite <- IH, toLowerCase_app. simpl. now rewrite append_empty_r.
Qed.

Lemma splitWs_toLowerCase (s : string) :
  splitWs (toLowerCase s) = map toLowerCase (splitWs s).
Proof. apply (splitWsFrom_toLowerCase s EmptyString). Qed.

(** ** Thresholds *)

Lemma scaled_threshold_mono (t1 t2 s : num) :
  (t1 <=? t2)%num = true ->
  (s >? t2 * Fin 10)%num = true -> (s >? t1 * Fin 10)%num = true.
Proof.
  unfold gt.
  destruct t1 as [| |p|], t2 as [| |q|]; simpl; try discriminate;
    destruct s as [| |r|]; simpl; try discriminate; try reflexivity.
  intros H. change (Fin p <=? Fin q)%num with (le (Fin p) (Fin q)) in H.
  apply le_Fin in H. intros H2.
  change ((Fin (Qred (q * 10)) <? Fin r)%num = true) in H2.
  change ((Fin (Qred (p * 10)) <? Fin r)%num = true).
  apply lt_Fin in H2. apply lt_Fin. rewrite Qred_correct in *. lra.
Qed.

Lemma filter_length_le {A} (f g : A -> bool) (l : list A) :
  (forall x, f x = true -> g x = true) ->
  List.length (filter f l) <= List.length (filter g l).
Proof.
  intros H. induction l as [|x l IH]; simpl; [lia|].
  destruct (f x) eqn:E.
  - rewrite (H _ E). simpl. lia.
  - destruct (g x); simpl; lia.
Qed.

(** ** The properties of the pipeline *)

Section PipelineProperties.

Variable ln : Q -> Q.

(** C1.  With [maxResults = k >= 0] the search returns, and the list it
    returns has at most [k] elements. *)
Theorem searchKnowledgeBase_cap (query : string)
  (allEntries : list KnowledgeEntry) (settings : Settings) :
  (Fin 0 <=? maxResults settings)%num = true ->
  exists results,
    searchKnowledgeBase ln query allEntries settings = Some results
    /\ (of_nat (List.length results) <=? maxResults settings)%num = true.
Proof.
  intros Hk.
  destruct (searchKnowledgeBase_returns ln query allEntries) as [H|[scored H]].
  - exists []. split; [apply H | exact Hk].
  - eexists. split; [apply H|].
    rewrite pipelineOutput_length. now apply slice0_length_cap.
Qed.

(** C2.  On a query that is empty or made of white space only the search
    returns the empty list. *)
Theorem searchKnowledgeBase_blank_query (query : string)
  (allEntries : list KnowledgeEntry) (settings : Settings) :
  allSpace query = true ->
  searchKnowledgeBase ln query allEntries settings = Some [].
Proof.
  intros H. unfold searchKnowledgeBase. now rewrite trim_allSpace.
Qed.

(** C7.  For a fixed query and entry collection and two settings that
    differ only in [relevanceThreshold], with thresholds [t1 <= t2], both
    searches return and the one at [t2] returns at most as many results
    as the one at [t1]. *)
Theorem searchKnowledgeBase_threshold_antitone (query : string)
  (allEntries : list KnowledgeEntry) (s1 s2 : Settings) :
  sameButThreshold s1 s2 ->
  (relevanceThreshold s1 <=? relevanceThreshold s2)%num = true ->
  exists r1 r2,
    searchKnowledgeBase ln query allEntries s1 = Some r1
    /\ searchKnowledgeBase ln query allEntries s2 = Some r2
    /\ List.length r2 <= List.length r1.
Proof.
  intros (_ & Hk & _) Ht.
  destruct (searchKnowledgeBase_returns ln query allEntries) as [H|[scored H]].
  - exists [], []. rewrite !H. auto.
  - do 2 eexists. split; [apply H|]. split; [apply H|].
    rewrite !pipelineOutput_length, Hk. apply slice0_length_mono.
    apply filter_length_le. intros x. now apply scaled_threshold_mono.
Qed.

(** Without the code unit U+0130 the lower case has the length of the
    string, so the length filter of the search keeps the tokens that
    are longer than two code units in the query itself. *)
Lemma toLowerCase_length_undotted (s : string) :
  undotted s = true -> String.length (toLowerCase s) = String.length s.
Proof.
  induction s as [|c s IH]; simpl; [reflexivity|].
  intros H. apply andb_prop in H as [Hc Hs].
  rewrite append_length, (IH Hs). now destruct c.
Qed.

Lemma undotted_app (s t : string) :
  undotted (s ++ t) = undotted s && undotted t.
Proof.
  induction s as [|c s IH]; simpl; [reflexivity|].
  now rewrite IH, andb_assoc.
Qed.

Lemma splitWsFrom_undotted (s : string) :
  forall cur b t,
    undotted s = true -> undotted cur = true ->
    In t (splitWsFrom s cur b) -> undotted t = true.
Proof.
  induction s as [|c s IH]; intros cur b t Hs Hcur; simpl.
  - intros [<-|[]]. assumption.
  - simpl in Hs. apply andb_prop in Hs as [Hc Hs].
    destruct (isSpace c).
    + destruct b; [now apply IH|]. intros [<-|H]; [assumption|].
      now apply (IH EmptyString true).
    + apply IH; [assumption|]. rewrite undotted_app, Hcur. simpl.
      now rewrite Hc.
Qed.

Lemma short_tokens_undotted (query : string) :
  undotted query = true ->
  Forall (fun t => String.length t <= 2) (splitWs query) ->
  Forall (fun t => String.length (toLowerCase t) <= 2) (splitWs query).
Proof.
  intros Hq H. apply Forall_forall. intros t Ht.
  rewrite toLowerCase_length_undotted.
  - rewrite Forall_forall in H. now apply H.
  - now apply (splitWsFrom_undotted query EmptyString false).
Qed.

(** C9.  When the lower case of every white-space-separated token of the
    query has at most two code units, the search returns the empty list,
    whatever the entries and the settings. *)
Theorem searchKnowledgeBase_short_tokens (query : string)
  (allEntries : list KnowledgeEntry) (settings : Settings) :
  Forall (fun t => String.length (toLowerCase t) <= 2) (splitWs query) ->
  searchKnowledgeBase ln query allEntries settings = Some [].
Proof.
  intros H. unfold searchKnowledgeBase.
  destruct (String.eqb (trim query) ""); [reflexivity|].
  assert (E : longerThan 2 (splitWs (trim (toLowerCase query))) = []).
  { destruct (longerThan 2 (splitWs (trim (toLowerCase query))))
      as [|t l] eqn:E; [reflexivity|]. exfalso.
    assert (Ht : In t (longerThan 2 (splitWs (trim (toLowerCase query)))))
      by (rewrite E; now left).
    apply longerThan_In in Ht as [Ht Hlen]. apply tokens_trim in Ht.
    rewrite splitWs_toLowerCase in Ht. apply in_map_iff in Ht as [u [<- Hu]].
    rewrite Forall_forall in H. specialize (H u Hu). simpl in H. lia. }
  now rewrite E.
Qed.

End PipelineProperties.

(** ** Running sums *)






(** ** The steps of first-pass scoring *)






Lemma search_first (t s : string) :
  forall i0 p,
    search t s i0 = p -> p <> (-1)%Z -> (0 <= i0)%Z ->
    forall i, i < Z.to_nat (p - i0) -> startsWith t (drop i s) = false.
Proof.
  induction s as [|c s IH]; intros i0 p; simpl.
  - destruct (startsWith t "") eqn:E.
    + intros <- _ Hi i Hlt. lia.
    + intros <-. congruence.
  - destruct (startsWith t (String c s)) eqn:E.
    + intros <- _ Hi i Hlt. lia.
    + intros Hp Hne Hi [|i] Hlt; [exact E|]. simpl.
      apply (IH _ _ Hp Hne ltac:(lia)).
      destruct (search_found _ _ _ _ Hp Hne ltac:(lia)) as [H1 _]. lia.
Qed.





(** ** The order of the second pass *)

Lemma ge_trans (a b c : num) :
  (a >=? b)%num = true -> (b >=? c)%num = true -> (a >=? c)%num = true.
Proof.
  unfold ge.
  destruct a as [| |p|], b as [| |q|], c as [| |r|]; simpl;
    try discriminate; try reflexivity.
  intros H1 H2.
  change ((Fin q <=? Fin p)%num = true) in H1.
  change ((Fin r <=? Fin q)%num = true) in H2.
  change ((Fin r <=? Fin p)%num = true).
  apply le_Fin in H1, H2. apply le_Fin. lra.
Qed.

Lemma positive_difference (a b : num) :
  (b - a >? Fin 0)%num = true -> (b >=? a)%num = true.
Proof.
  unfold gt, ge.
  destruct a as [| |p|], b as [| |q|]; cbn [sub lt le];
    try discriminate; try reflexivity.
  intros H. apply lt_Fin in H. rewrite Qred_correct in H.
  apply le_Fin. lra.
Qed.

Lemma no_positive_difference (a b : num) :
  is_nan a = false -> is_nan b = false ->
  (b - a >? Fin 0)%num = false -> (a >=? b)%num = true.
Proof.
  unfold gt, ge.
  destruct a as [| |p|], b as [| |q|]; cbn [sub lt le is_nan];
    try discriminate; try reflexivity.
  intros _ _ H. apply le_Fin.
  destruct (Qlt_le_dec p q) as [Hlt|Hle]; [|assumption].
  exfalso. apply not_true_iff_false in H. apply H.
  apply lt_Fin. rewrite Qred_correct. lra.
Qed.

Lemma sort_insert_descending (x : SearchResult) (l : list SearchResult) :
  scored x -> Forall scored l -> descending l ->
  descending (sort_insert byScoreDesc x l).
Proof.
  intros Hx Hl Hs. induction Hs as [|y l Hs IH Hy]; cbn [sort_insert].
  - repeat constructor.
  - inversion Hl as [|? ? Hy' Hl']; subst.
    unfold byScoreDesc at 1.
    destruct (score y - score x >? Fin 0)%num eqn:E.
    + constructor; [now apply IH|].
      apply Forall_forall. intros z Hz.
      apply (Permutation_in _ (sort_insert_perm byScoreDesc x l)) in Hz.
      destruct Hz as [<-|Hz]; [now apply positive_difference|].
      rewrite Forall_forall in Hy. now apply Hy.
    + pose proof (no_positive_difference _ _ Hx Hy' E) as Hxy.
      constructor; [now constructor|].
      constructor; [assumption|].
      apply Forall_forall. intros z Hz. rewrite Forall_forall in Hy.
      eapply ge_trans; [exact Hxy | now apply Hy].
Qed.

Lemma sort_descending (l : list SearchResult) :
  Forall scored l -> descending (sort byScoreDesc l).
Proof.
  induction l as [|x l IH]; intros H; simpl; [constructor|].
  inversion H as [|? ? Hx Hl]; subst.
  apply sort_insert_descending; auto.
  apply Forall_forall. intros z Hz.
  apply (Permutation_in _ (sort_perm byScoreDesc l)) in Hz.
  rewrite Forall_forall in Hl. now apply Hl.
Qed.

Lemma rankResults_perm ln query results allEntries :
  Permutation (rankResults ln query results allEntries)
    (map (rescore ln query (averageDocLength allEntries)
            (map documentOf allEntries))
         results).
Proof.
  unfold rankResults. destruct results as [|r results]; [reflexivity|].
  cbn [List.length Nat.eqb]. apply sort_perm.
Qed.

Lemma frame_rescore ln query avg docs (results : list SearchResult) :
  map frame (map (rescore ln query avg docs) results) = map frame results.
Proof. rewrite map_map. apply map_ext. reflexivity. Qed.

(** X28.  The second pass returns as many results as it is given; its
    output is a permutation of the re-scored input, so that each result
    keeps its entry and its matches and only the score changes; and when
    every new score is a number (none is NaN) the output is in descending
    order of the new score. *)
Theorem rankResults_frame (ln : Q -> Q) (query : string)
  (results : list SearchResult) (allEntries : list KnowledgeEntry) :
  let out := rankResults ln query results allEntries in
  List.length out = List.length results
  /\ Permutation (map frame out) (map frame results)
  /\ (exists rescored,
        Permutation out rescored
        /\ Forall2 (fun r r' => entry r' = entry r /\ matches r' = matches r)
                   results rescored)
  /\ (Forall scored out -> descending out).
Proof.
  intros out. pose proof (rankResults_perm ln query results allEntries) as HP.
  fold out in HP. split; [apply rankResults_length|].
  split; [|split].
  - rewrite <- (frame_rescore ln query (averageDocLength allEntries)
                  (map documentOf allEntries) results).
    now apply Permutation_map.
  - eexists. split; [exact HP|].
    clear. induction results as [|r l IH]; simpl; constructor; auto.
  - intros Hsc. unfold out, rankResults in *.
    destruct results as [|r results]; [constructor|].
    cbn [List.length Nat.eqb] in *. apply sort_descending.
    apply Forall_forall. intros z Hz. rewrite Forall_forall in Hsc.
    apply Hsc. apply (Permutation_in _ (Permutation_sym HP)). exact Hz.
Qed.

(** C10.  The second pass does not always return its results in
    descending order of the new score.  For the query [ab], which has no
    term longer than two characters, and an entry without keywords, the
    keyword similarity of that entry is [0 / 0]; its new score is NaN,
    the comparator of the sort returns NaN on it, and the output, with
    the scores 1.2, NaN and 5.13..., is not in descending order.  No
    logarithm is taken on the way. *)
Theorem rankResults_order_broken (ln : Q -> Q) :
  let out :=
    rankResults ln "ab" Sample.firstPass
      [Sample.enb; Sample.untagged; Sample.ballistic] in
  map score out = [Fin (6 # 5); NaN; Fin (77 # 15)] /\ ~ descending out.
Proof.
  intros out.
  assert (E : map score out = [Fin (6 # 5); NaN; Fin (77 # 15)])
    by (vm_compute; reflexivity).
  split; [exact E|]. intros H.
  destruct out as [|r [|x l]]; try discriminate.
  injection E as Hr Hx _.
  inversion H as [|? ? _ HF]; subst.
  inversion HF as [|? ? Hge _]; subst.
  rewrite Hr, Hx in Hge. discriminate.
Qed.

(** ** The theorems at sample inputs *)

Module Witness.

Import Sample.
Local Open Scope string_scope.

Lemma searchKnowledgeBase_cap_witness :
  (Fin 0 <=? maxResults defaults)%num = true
  /\ exists results,
       searchKnowledgeBase ln "ballistic weave" [ballistic; enb] defaults
       = Some results
       /\ (of_nat (List.length results) <=? maxResults defaults)%num = true.
Proof.
  split; [reflexivity|].
  apply (searchKnowledgeBase_cap ln "ballistic weave" [ballistic; enb]
           defaults).
  reflexivity.
Defined.

Lemma searchKnowledgeBase_blank_query_witness :
  allSpace "   " = true
  /\ searchKnowledgeBase ln "   " [ballistic; enb] defaults = Some [].
Proof.
  split; [reflexivity|].
  apply (searchKnowledgeBase_blank_query ln "   " [ballistic; enb] defaults).
  reflexivity.
Defined.

Lemma searchKnowledgeBase_threshold_antitone_witness :
  (sameButThreshold defaults strict
   /\ (relevanceThreshold defaults <=? relevanceThreshold strict)%num = true)
  /\ exists r1 r2,
       searchKnowledgeBase ln "ballistic weave" [ballistic; enb] defaults
       = Some r1
       /\ searchKnowledgeBase ln "ballistic weave" [ballistic; enb] strict
          = Some r2
       /\ List.length r2 <= List.length r1.
Proof.
  assert (H1 : sameButThreshold defaults strict) by (repeat split).
  assert (H2 : (relevanceThreshold defaults <=? relevanceThreshold strict)%num
               = true) by reflexivity.
  split; [split; assumption|].
  exact (searchKnowledgeBase_threshold_antitone
           ln "ballistic weave" [ballistic; enb] defaults strict H1 H2).
Defined.

Lemma searchKnowledgeBase_short_tokens_witness :
  Forall (fun t => String.length (toLowerCase t) <= 2) (splitWs "A bc")
  /\ includes (toLowerCase (title shortTitle)) "a bc" = true
  /\ searchKnowledgeBase ln "A bc" [shortTitle; enb] defaults = Some [].
Proof.
  assert (H : Forall (fun t => String.length (toLowerCase t) <= 2)
                (splitWs "A bc")).
  { repeat constructor. }
  split; [exact H|]. split; [reflexivity|].
  exact (searchKnowledgeBase_short_tokens ln "A bc" [shortTitle; enb]
           defaults H).
Defined.

(** C9 as stated fails.  The query of the two code units U+0130 and [x]
    is one token of length 2; its lower case, [i] U+0307 [x], has length
    3, so it is a query term, and the entry whose title is the query is
    returned. *)
Lemma short_token_found :
  let query := String CapitalIDot "x" in
  let dotted := mkEntry "e5" "misc" query "notes" [] None None in
  Forall (fun t => String.length t <= 2) (splitWs query)
  /\ option_map (map entry)
       (searchKnowledgeBase ln query [dotted; enb] defaults)
     = Some [dotted].
Proof.
  intros query dotted. split.
  - repeat constructor.
  - vm_compute. reflexivity.
Qed.



Lemma rankResults_frame_witness :
  Forall scored (rankResults ln "ballistic weave" firstPass
                   [enb; untagged; ballistic])
  /\ descending (rankResults ln "ballistic weave" firstPass
                   [enb; untagged; ballistic]).
Proof.
  assert (H : Forall scored (rankResults ln "ballistic weave" firstPass
                               [enb; untagged; ballistic])).
  { vm_compute. repeat constructor. }
  split; [exact H|].
  exact (proj2 (proj2 (proj2 (rankResults_frame ln "ballistic weave" firstPass
                                [enb; untagged; ballistic]))) H).
Defined.

End Witness.

(** ** The run time and the measures at concrete values *)

Module Examples.

Import Sample.
Local Open Scope string_scope.

Example splitWs_edges :
  splitWs " a  b " = [""; "a"; "b"; ""] /\ splitWs "" = [""].
Proof. split; reflexivity. Qed.

Example split_by_string :
  split "abcabc" "bc" = ["a"; "a"; ""] /\ split "abc" "" = ["a"; "b"; "c"].
Proof. split; reflexivity. Qed.

Example indexOf_edges :
  indexOf "hello world" "o" 5 = 7%Z
  /\ indexOf "hello" "" 10 = 5%Z
  /\ indexOf "hello" "z" 0 = (-1)%Z.
Proof. repeat split. Qed.

Example allOccurrences_steps :
  allOccurrences "abcabcabc" "abc" = Some [(0, 3); (3, 6); (6, 9)]%Z
  /\ allOccurrences "abc" "" = None.
Proof. split; reflexivity. Qed.

Example slice0_ends :
  slice0 [1; 2; 3; 4] (Fin (5 # 2)) = [1; 2]
  /\ slice0 [1; 2; 3; 4] (Fin (-1)) = [1; 2; 3]
  /\ slice0 [1; 2; 3; 4] NaN = [].
Proof. repeat split. Qed.

Example levenshteinDistance_kitten :
  levenshteinDistance "kitten" "sitting" = 3.
Proof. reflexivity. Qed.

(** The misspelt keyword of the fuzzy scenario: similarity 11/12, above
    the 0.8 of the keyword loop. *)
Example levenshteinSimilarity_instalation :
  levenshteinSimilarity "instalation" "installation" = Fin (11 # 12)
  /\ (levenshteinSimilarity "instalation" "installation" >? Fin (4 # 5))%num
     = true.
Proof. split; reflexivity. Qed.

Example jaccardSimilarity_third :
  jaccardSimilarity ["a"; "b"] ["b"; "c"] = Fin (1 # 3).
Proof. reflexivity. Qed.

(** A query of two terms against an entry with four related words: the
    expansion stops at five terms. *)
Example expandQuery_two_terms :
  expandQuery "weave armor"
    [mkEntry "e" "m" "weave armor" "weaves armors weaver armory" [] None None]
  = "weave armor weaves armors weaver".
Proof. vm_compute. reflexivity. Qed.

(** The exact title hit: the entry comes first, with a title span over
    the whole query. *)
Example search_exact_title :
  option_map (map (fun r => (id (entry r), matches r)))
    (searchKnowledgeBase ln "ballistic weave" [ballistic; enb] defaults)
  = Some
      [("e1",
        Some [mkMatch "title" [(0, 15)]; mkMatch "title" [(0, 9)];
              mkMatch "title" [(10, 15)]; mkMatch "content" [(18, 33)];
              mkMatch "content" [(18, 27)]; mkMatch "content" [(28, 33)]]%Z)].
Proof. vm_compute. reflexivity. Qed.

(** The second pass on a query without a term longer than two
    characters: the entry without keywords gets the score NaN. *)
Example rankResults_NaN_score :
  map score (rankResults ln "ab" firstPass [enb; untagged; ballistic])
  = [Fin (6 # 5); NaN; Fin (77 # 15)].
Proof. vm_compute. reflexivity. Qed.

End Examples.

(* ===================================================================== *)
(** * Further properties *)
(* ===================================================================== *)

(** ** Edit distance *)

Lemma indicator_sym (a b : string) (i j : nat) :
  indicator a b i j = indicator b a j i.
Proof.
  unfold indicator. destruct (charAt a i) as [x|], (charAt b j) as [y|];
    try reflexivity.
  now rewrite codeUnit_eqb_sym.
Qed.

Lemma min3_swap (x y z : nat) : min3 x y z = min3 y x z.
Proof. unfold min3. lia. Qed.

Lemma lev_rec_sym (a b : string) (j i : nat) :
  lev_rec a b j i = lev_rec b a i j.
Proof.
  revert i. induction j as [|j IHj]; intros i.
  - now rewrite lev_rec_row0.
  - induction i as [|i IHi].
    + reflexivity.
    + rewrite !lev_rec_step, IHi, !IHj, indicator_sym. apply min3_swap.
Qed.

Lemma lev_rec_gap (a b : string) (j i : nat) :
  i <= lev_rec a b j i + j /\ j <= lev_rec a b j i + i.
Proof.
  revert i. induction j as [|j IHj]; intros i.
  - simpl. lia.
  - induction i as [|i IHi].
    + simpl. lia.
    + rewrite lev_rec_step. unfold min3.
      pose proof (IHj i). pose proof (IHj (S i)). lia.
Qed.

Lemma charAt_cons (c : codeUnit) (s : string) (k : nat) :
  charAt (String c s) (S k) = charAt s k.
Proof. reflexivity. Qed.

Lemma charAt_in_range (s : string) (k : nat) :
  k < String.length s -> exists c, charAt s k = Some c.
Proof.
  revert k. induction s as [|c s IH]; intros k Hk; simpl in Hk; [lia|].
  destruct k as [|k]; [now exists c|].
  rewrite charAt_cons. apply IH. lia.
Qed.

Lemma same_chars_eq (a b : string) :
  String.length a = String.length b ->
  (forall k, k < String.length a -> charAt a k = charAt b k) ->
  a = b.
Proof.
  revert b. induction a as [|x a IH]; intros [|y b] Hlen Hk;
    try discriminate; [reflexivity|].
  simpl in Hlen. f_equal.
  - specialize (Hk 0 ltac:(simpl; lia)). now injection Hk.
  - apply IH; [lia|]. intros k Hlt.
    apply (Hk (S k)). simpl. lia.
Qed.

(** A cell of the recurrence that is zero lies on the diagonal, and the
    two prefixes it compares are equal. *)
Lemma lev_rec_zero (a b : string) (j i : nat) :
  i <= String.length a -> j <= String.length b ->
  lev_rec a b j i = 0 ->
  i = j /\ forall k, k < i -> charAt a k = charAt b k.
Proof.
  revert i. induction j as [|j IHj]; intros i Hi Hj H.
  - simpl in H. subst. split; [reflexivity | lia].
  - destruct i as [|i]; [discriminate|].
    rewrite lev_rec_step in H. unfold min3 in H.
    assert (H0 : lev_rec a b j i = 0 /\ indicator a b i j = 0) by lia.
    destruct H0 as [H0 Hind].
    destruct (IHj i ltac:(lia) ltac:(lia) H0) as [-> Hk].
    split; [reflexivity|]. intros k Hlt.
    destruct (Nat.eq_dec k j) as [->|Hne]; [|apply Hk; lia].
    unfold indicator in Hind.
    destruct (charAt_in_range a j ltac:(lia)) as [x Hx].
    destruct (charAt_in_range b j ltac:(lia)) as [y Hy].
    rewrite Hx, Hy in *. destruct (codeUnit_eqb_spec x y); [congruence|lia].
Qed.

Lemma Fin_Qred_is_1 (q : Q) : Fin (Qred q) = Fin 1 -> (q == 1)%Q.
Proof.
  intros H. injection H as H. rewrite <- (Qred_correct q), H. reflexivity.
Qed.

Lemma levenshteinSimilarity_refl (a : string) :
  levenshteinSimilarity a a = Fin 1.
Proof.
  unfold levenshteinSimilarity. rewrite Nat.max_id.
  destruct (Nat.eqb_spec (String.length a) 0) as [|E]; [reflexivity|].
  rewrite levenshteinDistance_refl, div_of_nat by lia.
  change (Fin 1) with (Fin (Qred 1)) at 2. apply Fin_Qred_eq.
  rewrite Qred_correct. unfold Qdiv. simpl inject_Z. rewrite Qmult_0_l. lra.
Qed.

Lemma levenshteinDistance_sym (a b : string) :
  levenshteinDistance a b = levenshteinDistance b a.
Proof. rewrite !levenshteinDistance_rec. apply lev_rec_sym. Qed.

Lemma levenshteinSimilarity_sym (a b : string) :
  levenshteinSimilarity a b = levenshteinSimilarity b a.
Proof.
  unfold levenshteinSimilarity.
  now rewrite levenshteinDistance_sym, Nat.max_comm.
Qed.

Lemma levenshteinDistance_zero (a b : string) :
  levenshteinDistance a b = 0 -> a = b.
Proof.
  rewrite levenshteinDistance_rec. intros H.
  destruct (lev_rec_zero a b _ _ (Nat.le_refl _) (Nat.le_refl _) H)
    as [Hlen Hk].
  now apply same_chars_eq.
Qed.

Lemma levenshteinSimilarity_one (a b : string) :
  levenshteinSimilarity a b = Fin 1 <-> a = b.
Proof.
  split; [|intros ->; apply levenshteinSimilarity_refl].
  intros H. apply levenshteinDistance_zero.
  destruct (Nat.eq_dec (Nat.max (String.length a) (String.length b)) 0)
    as [E|E].
  - pose proof (levenshteinDistance_le_max a b). lia.
  - rewrite levenshteinSimilarity_formula in H by lia.
    rewrite <- levenshteinDistance_rec in H.
    apply Fin_Qred_is_1 in H. rewrite Qred_correct in H.
    set (d := inject_Z (Z.of_nat (levenshteinDistance a b))) in *.
    set (m := inject_Z
                (Z.of_nat (Nat.max (String.length a) (String.length b))))
      in *.
    assert (Hm : (0 < m)%Q) by (apply inject_nat_pos; lia).
    assert (Hd : (d == 0)%Q).
    { assert (Hq : (d / m == 0)%Q).
      { remember (d / m)%Q as x. clear - H. lra. }
      assert (Hne : ~ (m == 0)%Q) by lra.
      rewrite <- (Qmult_div_r d m) by exact Hne.
      rewrite Hq. ring. }
    unfold d, Qeq in Hd. simpl in Hd. lia.
Qed.

(** X1.  The edit distance and the similarity do not depend on the order
    of the two strings. *)
Theorem levenshtein_symmetric (a b : string) :
  levenshteinDistance a b = levenshteinDistance b a
  /\ levenshteinSimilarity a b = levenshteinSimilarity b a.
Proof.
  split; [apply levenshteinDistance_sym | apply levenshteinSimilarity_sym].
Qed.

(** X2.  The edit distance is 0 exactly between equal strings, and the
    similarity is 1 exactly between equal strings. *)
Theorem levenshtein_identity (a b : string) :
  (levenshteinDistance a b = 0 <-> a = b)
  /\ (levenshteinSimilarity a b = Fin 1 <-> a = b).
Proof.
  split; [|apply levenshteinSimilarity_one].
  split; [apply levenshteinDistance_zero|].
  intros ->. apply levenshteinDistance_refl.
Qed.

(** X3.  The edit distance is at least the difference of the two
    lengths; against the empty string it is the length of the other
    string. *)
Theorem levenshtein_length_gap (a b : string) :
  Nat.max (String.length a) (String.length b)
  - Nat.min (String.length a) (String.length b)
  <= levenshteinDistance a b
  /\ levenshteinDistance a "" = String.length a
  /\ levenshteinDistance "" b = String.length b.
Proof.
  split; [|split].
  - rewrite levenshteinDistance_rec.
    pose proof (lev_rec_gap a b (String.length b) (String.length a)). lia.
  - rewrite levenshteinDistance_rec. reflexivity.
  - rewrite levenshteinDistance_rec. apply lev_rec_row0.
Qed.

(** ** Numbers between 0 and 1 *)

Lemma Fin_Qred_inv (q r : Q) : Fin (Qred q) = Fin r -> (q == r)%Q.
Proof.
  intros H. injection H as H. rewrite <- (Qred_correct q), H. reflexivity.
Qed.

Lemma inUnit_spec (a : num) :
  inUnit a = true <-> exists q, a = Fin q /\ (0 <= q <= 1)%Q.
Proof.
  unfold inUnit. rewrite andb_true_iff. split.
  - intros [H0 H1]. destruct a as [| |q|]; try discriminate.
    exists q. split; [reflexivity|]. split; now apply le_Fin.
  - intros [q [-> [H0 H1]]]. split; now apply le_Fin.
Qed.

Lemma inUnit_Fin (q : Q) : (0 <= q <= 1)%Q -> inUnit (Fin q) = true.
Proof. intros H. apply inUnit_spec. eauto. Qed.

Lemma inUnit_ratio (a b : nat) :
  a <= b -> 0 < b -> inUnit (of_nat a / of_nat b)%num = true.
Proof.
  intros Hab Hb. rewrite div_of_nat by assumption.
  apply inUnit_Fin. rewrite Qred_correct. now apply ratio_bounds.
Qed.

Lemma inUnit_blend (a b : num) :
  inUnit a = true -> inUnit b = true ->
  inUnit (a * Fin (7 # 10) + b * Fin (3 # 10))%num = true.
Proof.
  intros Ha Hb. apply inUnit_spec in Ha as [p [-> Hp]].
  apply inUnit_spec in Hb as [q [-> Hq]].
  cbn [mul add]. apply inUnit_Fin. rewrite !Qred_correct. lra.
Qed.

Lemma levenshteinSimilarity_inUnit (a b : string) :
  inUnit (levenshteinSimilarity a b) = true.
Proof.
  destruct (Nat.eq_dec (Nat.max (String.length a) (String.length b)) 0)
    as [E|E].
  - unfold levenshteinSimilarity. now rewrite E.
  - rewrite levenshteinSimilarity_formula by lia.
    pose proof (lev_rec_le_max a b (String.length b) (String.length a)) as Hd.
    pose proof (ratio_bounds _ _ Hd ltac:(lia)) as [H0 H1].
    apply inUnit_Fin. rewrite !Qred_correct. lra.
Qed.

(** ** Jaccard similarity *)

Lemma intersection_le_union (A B : JSSet.t) :
  JSSet.size (JSSet.of_list (filter (fun x => JSSet.has B x) A))
  <= JSSet.size (JSSet.of_list (A ++ B)).
Proof.
  unfold JSSet.size. apply NoDup_incl_length; [apply NoDup_of_list|].
  intros x. rewrite !In_of_list, filter_In, in_app_iff. tauto.
Qed.

Lemma union_size_pos (A B : JSSet.t) :
  A ++ B <> [] -> 0 < JSSet.size (JSSet.of_list (A ++ B)).
Proof.
  intros H. apply of_list_nonempty in H. unfold JSSet.size.
  destruct (JSSet.of_list (A ++ B)); [congruence | simpl; lia].
Qed.

Lemma jaccardSimilarity_value (A B : JSSet.t) :
  A ++ B <> [] ->
  jaccardSimilarity A B
  = Fin (Qred
           (inject_Z
              (Z.of_nat
                 (JSSet.size
                    (JSSet.of_list (filter (fun x => JSSet.has B x) A))))
            / inject_Z (Z.of_nat (JSSet.size (JSSet.of_list (A ++ B)))))).
Proof.
  intros H. unfold jaccardSimilarity. apply div_of_nat.
  now apply union_size_pos.
Qed.

Lemma jaccardSimilarity_inUnit (A B : JSSet.t) :
  A ++ B <> [] -> inUnit (jaccardSimilarity A B) = true.
Proof.
  intros H. apply inUnit_ratio;
    [apply intersection_le_union | now apply union_size_pos].
Qed.

Lemma jaccardSimilarity_nil : jaccardSimilarity [] [] = NaN.
Proof. reflexivity. Qed.

(** X4.  [jaccardSimilarity] does not depend on the order of its two
    sets. *)
Theorem jaccardSimilarity_symmetric (A B : JSSet.t) :
  jaccardSimilarity A B = jaccardSimilarity B A.
Proof.
  unfold jaccardSimilarity. f_equal; f_equal; apply size_of_list_ext; intros y.
  - rewrite !filter_In, !has_In. tauto.
  - rewrite !in_app_iff. tauto.
Qed.

(** X5.  [jaccardSimilarity] is NaN when both sets are empty and only
    then; in every other case it is a number between 0 and 1. *)
Theorem jaccardSimilarity_range (A B : JSSet.t) :
  (jaccardSimilarity A B = NaN <-> A = [] /\ B = [])
  /\ (inUnit (jaccardSimilarity A B) = true <-> A ++ B <> []).
Proof.
  destruct (list_eq_dec string_dec (A ++ B) []) as [E|E].
  - apply app_eq_nil in E as [-> ->]. split; split; try discriminate.
    + now intros _.
    + reflexivity.
    + intros H. now contradiction H.
  - pose proof (jaccardSimilarity_inUnit A B E) as HU. split; split.
    + intros H. rewrite H in HU. discriminate.
    + intros [-> ->]. now contradiction E.
    + now intros _.
    + now intros _.
Qed.

(** X6.  On two sets that are not both empty, [jaccardSimilarity] is 1
    exactly when the two sets have the same elements, and 0 exactly when
    they have no element in common. *)
Theorem jaccardSimilarity_extremes (A B : JSSet.t) :
  (jaccardSimilarity A B = Fin 1
   <-> A ++ B <> [] /\ forall x, In x A <-> In x B)
  /\ (jaccardSimilarity A B = Fin 0
      <-> A ++ B <> [] /\ forall x, In x A -> ~ In x B).
Proof.
  destruct (list_eq_dec string_dec (A ++ B) []) as [E|E].
  { apply app_eq_nil in E as [-> ->].
    split; split; try discriminate; intros [H _]; now contradiction H. }
  pose proof (union_size_pos A B E) as Hu.
  pose proof (intersection_le_union A B) as Hle.
  rewrite (jaccardSimilarity_value A B E).
  set (i := JSSet.size (JSSet.of_list (filter (fun x => JSSet.has B x) A)))
    in *.
  set (u := JSSet.size (JSSet.of_list (A ++ B))) in *.
  assert (Hpos : (0 < inject_Z (Z.of_nat u))%Q) by now apply inject_nat_pos.
  assert (Hne : ~ (inject_Z (Z.of_nat u) == 0)%Q) by lra.
  split; split.
  - intros H. split; [exact E|].
    apply Fin_Qred_is_1 in H.
    assert (Hiu : i = u).
    { assert (Hq : (inject_Z (Z.of_nat i) == inject_Z (Z.of_nat u))%Q).
      { rewrite <- (Qmult_div_r (inject_Z (Z.of_nat i)) _ Hne), H. ring. }
      unfold Qeq in Hq. simpl in Hq. lia. }
    assert (Hincl : incl (JSSet.of_list (A ++ B))
                      (JSSet.of_list (filter (fun x => JSSet.has B x) A))).
    { apply NoDup_length_incl.
      - apply NoDup_of_list.
      - fold (JSSet.size (JSSet.of_list (A ++ B))).
        fold (JSSet.size
                (JSSet.of_list (filter (fun x => JSSet.has B x) A))).
        fold i u. lia.
      - intros x. rewrite !In_of_list, filter_In, in_app_iff. tauto. }
    intros x.
    assert (Hx : In x A \/ In x B -> In x A /\ In x B).
    { intros H'. specialize (Hincl x).
      rewrite !In_of_list, filter_In, in_app_iff, has_In in Hincl. tauto. }
    tauto.
  - intros [_ Hsame].
    assert (Hiu : i = u).
    { unfold i, u. apply size_of_list_ext. intros x.
      rewrite filter_In, has_In, in_app_iff. specialize (Hsame x). tauto. }
    rewrite Hiu. change (Fin 1) with (Fin (Qred 1)). apply Fin_Qred_eq.
    now apply Qmult_inv_r.
  - intros H. split; [exact E|].
    assert (Hq : (inject_Z (Z.of_nat i) / inject_Z (Z.of_nat u) == 0)%Q)
      by exact (Fin_Qred_inv _ _ H).
    assert (Hi : i = 0).
    { assert (Hz : (inject_Z (Z.of_nat i) == 0)%Q).
      { rewrite <- (Qmult_div_r (inject_Z (Z.of_nat i)) _ Hne), Hq. ring. }
      unfold Qeq in Hz. simpl in Hz. lia. }
    intros x HA HB.
    assert (Hin : In x (JSSet.of_list (filter (fun x => JSSet.has B x) A))).
    { rewrite In_of_list, filter_In, has_In. tauto. }
    unfold i, JSSet.size in Hi.
    destruct (JSSet.of_list (filter (fun x => JSSet.has B x) A));
      [contradiction | discriminate].
  - intros [_ Hdis].
    assert (Hi : i = 0).
    { unfold i. rewrite (size_of_list_ext _ []); [reflexivity|].
      intros x. rewrite filter_In, has_In. simpl. split; [|tauto].
      intros [HA HB]. exact (Hdis x HA HB). }
    rewrite Hi. change (Fin 0) with (Fin (Qred 0)). apply Fin_Qred_eq.
    unfold Qdiv. simpl inject_Z. ring.
Qed.

(** ** The blended similarities *)

Lemma of_list_app_nil (l1 l2 : list string) :
  JSSet.of_list l1 ++ JSSet.of_list l2 = [] <-> l1 = [] /\ l2 = [].
Proof.
  split.
  - intros H. apply app_eq_nil in H as [H1 H2]. split.
    + destruct l1; [reflexivity|].
      exfalso. revert H1. now apply of_list_nonempty.
    + destruct l2; [reflexivity|].
      exfalso. revert H2. now apply of_list_nonempty.
  - now intros [-> ->].
Qed.

(** The second term of the blend of [calculateSimilarity]. *)
Lemma levenshteinScore_inUnit (text1 text2 : string) :
  inUnit (if (String.length text1 <? 100) && (String.length text2 <? 100)
          then levenshteinSimilarity text1 text2 else Fin 0) = true.
Proof.
  destruct (_ && _); [apply levenshteinSimilarity_inUnit | reflexivity].
Qed.

Lemma calculateSimilarity_blend (text1 text2 : string) :
  calculateSimilarity text1 text2
  = (jaccardSimilarity (JSSet.of_list (tokenize text1))
                       (JSSet.of_list (tokenize text2)) * Fin (7 # 10)
     + (if ((String.length text1 <? 100) && (String.length text2 <? 100))%nat
        then levenshteinSimilarity text1 text2 else Fin 0) * Fin (3 # 10))%num.
Proof. reflexivity. Qed.

Lemma NaN_blend (b : num) : (NaN * Fin (7 # 10) + b * Fin (3 # 10))%num = NaN.
Proof. reflexivity. Qed.

(** X7.  [calculateSimilarity] is NaN when neither text has a token
    longer than two characters, and only then; in every other case it is
    a number between 0 and 1. *)
Theorem calculateSimilarity_range (text1 text2 : string) :
  (calculateSimilarity text1 text2 = NaN
   <-> tokenize text1 = [] /\ tokenize text2 = [])
  /\ (inUnit (calculateSimilarity text1 text2) = true
      <-> tokenize text1 ++ tokenize text2 <> []).
Proof.
  rewrite calculateSimilarity_blend.
  destruct (list_eq_dec string_dec
              (JSSet.of_list (tokenize text1) ++ JSSet.of_list (tokenize text2))
              []) as [E|E].
  - pose proof (proj1 (of_list_app_nil _ _) E) as [E1 E2].
    rewrite E1, E2.
    change (jaccardSimilarity (JSSet.of_list []) (JSSet.of_list [])) with NaN.
    rewrite NaN_blend.
    split; split; try discriminate; tauto.
  - assert (Hne : tokenize text1 ++ tokenize text2 <> []).
    { intros H. apply app_eq_nil in H as [H1 H2]. apply E.
      now rewrite H1, H2. }
    assert (HU : inUnit
                   (jaccardSimilarity (JSSet.of_list (tokenize text1))
                      (JSSet.of_list (tokenize text2)) * Fin (7 # 10)
                    + (if ((String.length text1 <? 100)
                           && (String.length text2 <? 100))%nat
                       then levenshteinSimilarity text1 text2 else Fin 0)
                      * Fin (3 # 10))%num = true).
    { apply inUnit_blend;
        [now apply jaccardSimilarity_inUnit | apply levenshteinScore_inUnit]. }
    split; split; try tauto.
    + intros H. rewrite H in HU. discriminate.
    + intros [H1 H2]. rewrite H1, H2 in Hne. now contradiction Hne.
Qed.

(** X8.  [calculateSimilarity] does not depend on the order of the two
    texts. *)
Theorem calculateSimilarity_symmetric (text1 text2 : string) :
  calculateSimilarity text1 text2 = calculateSimilarity text2 text1.
Proof.
  rewrite !calculateSimilarity_blend.
  rewrite (jaccardSimilarity_sym (JSSet.of_list (tokenize text1))).
  rewrite (levenshteinSimilarity_sym text1 text2).
  now rewrite (andb_comm (String.length text1 <? 100)).
Qed.

(** X9.  [fuzzySearch] is a number between 0 and 1, does not depend on
    the order of its arguments nor on the letter case of either, and is 1
    exactly when the two strings are equal up to letter case. *)
Theorem fuzzySearch_properties (text query : string) :
  inUnit (fuzzySearch text query) = true
  /\ fuzzySearch text query = fuzzySearch query text
  /\ fuzzySearch (toLowerCase text) query = fuzzySearch text query
  /\ fuzzySearch text (toLowerCase query) = fuzzySearch text query
  /\ (fuzzySearch text query = Fin 1
      <-> toLowerCase text = toLowerCase query).
Proof.
  unfold fuzzySearch. rewrite !toLowerCase_idem. repeat split.
  - apply levenshteinSimilarity_inUnit.
  - apply levenshteinSimilarity_sym.
  - apply levenshteinSimilarity_one.
  - apply levenshteinSimilarity_one.
Qed.

Lemma fuzzySearch_inUnit (text query : string) :
  inUnit (fuzzySearch text query) = true.
Proof. apply levenshteinSimilarity_inUnit. Qed.

(** The two loops of [neuralTextSimilarity] keep the sum of the
    similarities between 0 and the number of matches. *)
Lemma fuzzyStep_bounds (token1 token2 : string) (f : Q) (n : nat) :
  (0 <= f <= inject_Z (Z.of_nat n))%Q ->
  exists f' n',
    fuzzyStep token1 (Fin f, n) token2 = (Fin f', n')
    /\ (0 <= f' <= inject_Z (Z.of_nat n'))%Q.
Proof.
  intros H. unfold fuzzyStep.
  destruct (negb (String.eqb token1 token2)); [|eauto].
  pose proof (fuzzySearch_inUnit token1 token2) as HU.
  apply inUnit_spec in HU as [s [-> Hs]].
  destruct (Fin s >? Fin (4 # 5))%num; [|eauto].
  eexists _, (S n). split; [reflexivity|].
  rewrite Qred_correct, Nat2Z.inj_succ, <- Z.add_1_r, inject_Z_plus.
  change (inject_Z 1) with 1%Q. lra.
Qed.

Lemma fuzzy_inner_bounds (token1 : string) (tokens2 : list string) :
  forall f n,
    (0 <= f <= inject_Z (Z.of_nat n))%Q ->
    exists f' n',
      fold_left (fuzzyStep token1) tokens2 (Fin f, n) = (Fin f', n')
      /\ (0 <= f' <= inject_Z (Z.of_nat n'))%Q.
Proof.
  induction tokens2 as [|t ts IH]; intros f n H; cbn [fold_left]; [eauto|].
  destruct (fuzzyStep_bounds token1 t f n H) as (f1 & n1 & -> & H1).
  now apply IH.
Qed.

Lemma fuzzy_loops_bounds (tokens1 tokens2 : list string) :
  forall f n,
    (0 <= f <= inject_Z (Z.of_nat n))%Q ->
    exists f' n',
      fold_left (fun acc token1 => fold_left (fuzzyStep token1) tokens2 acc)
                tokens1 (Fin f, n)
      = (Fin f', n')
      /\ (0 <= f' <= inject_Z (Z.of_nat n'))%Q.
Proof.
  induction tokens1 as [|t ts IH]; intros f n H; cbn [fold_left]; [eauto|].
  destruct (fuzzy_inner_bounds t tokens2 f n H) as (f1 & n1 & -> & H1).
  now apply IH.
Qed.

Lemma normalized_inUnit (f : Q) (n : nat) :
  (0 <= f <= inject_Z (Z.of_nat n))%Q ->
  inUnit (if 0 <? n then (Fin f / of_nat n)%num else Fin 0) = true.
Proof.
  intros H. destruct (Nat.ltb_spec 0 n) as [Hn|Hn]; [|reflexivity].
  pose proof (inject_nat_pos n Hn) as Hpos.
  unfold of_nat, of_Z, div. rewrite (sgn_pos _ Hpos).
  apply inUnit_Fin. rewrite Qred_correct. split.
  - apply Qle_shift_div_l; [assumption|]. rewrite Qmult_0_l. apply H.
  - apply Qle_shift_div_r; [assumption|]. rewrite Qmult_1_l. apply H.
Qed.

(** X10.  [neuralTextSimilarity] is NaN when neither text has a token
    longer than two characters, and only then; in every other case it is
    a number between 0 and 1. *)
Theorem neuralTextSimilarity_range (text1 text2 : string) :
  (neuralTextSimilarity text1 text2 = NaN
   <-> tokenize text1 = [] /\ tokenize text2 = [])
  /\ (inUnit (neuralTextSimilarity text1 text2) = true
      <-> tokenize text1 ++ tokenize text2 <> []).
Proof.
  unfold neuralTextSimilarity. cbv zeta.
  assert (H0 : (0 <= 0 <= inject_Z (Z.of_nat 0))%Q) 
    by (split; apply Qle_refl).
  destruct (fuzzy_loops_bounds (tokenize text1) (tokenize text2) 0 0 H0)
    as (f & n & -> & Hb).
  fold (jaccardSimilarity (JSSet.of_list (tokenize text1))
                          (JSSet.of_list (tokenize text2))).
  destruct (list_eq_dec string_dec
              (JSSet.of_list (tokenize text1) ++ JSSet.of_list (tokenize text2))
              []) as [E|E].
  - pose proof (proj1 (of_list_app_nil _ _) E) as [E1 E2].
    rewrite E1, E2.
    change (jaccardSimilarity (JSSet.of_list []) (JSSet.of_list [])) with NaN.
    rewrite NaN_blend.
    split; split; try discriminate; tauto.
  - assert (Hne : tokenize text1 ++ tokenize text2 <> []).
    { intros H. apply app_eq_nil in H as [H1 H2]. apply E.
      now rewrite H1, H2. }
    assert (HU : inUnit
                   (jaccardSimilarity (JSSet.of_list (tokenize text1))
                      (JSSet.of_list (tokenize text2)) * Fin (7 # 10)
                    + (if (0 <? n)%nat then (Fin f / of_nat n)%num else Fin 0)
                      * Fin (3 # 10))%num = true).
    { apply inUnit_blend;
        [now apply jaccardSimilarity_inUnit | now apply normalized_inUnit]. }
    split; split; try tauto.
    + intros H. rewrite H in HU. discriminate.
    + intros [H1 H2]. rewrite H1, H2 in Hne. now contradiction Hne.
Qed.

(** ** Searching a string *)

Lemma drop_drop (n m : nat) (s : string) : drop n (drop m s) = drop (m + n) s.
Proof.
  revert s. induction m as [|m IH]; intros s; [reflexivity|].
  destruct s as [|c s]; simpl; [now destruct n | apply IH].
Qed.

Lemma startsWith_nonempty_nil (t : string) :
  t <> EmptyString -> startsWith t EmptyString = false.
Proof. destruct t; [congruence | reflexivity]. Qed.

Lemma drop_nil (n : nat) : drop n EmptyString = EmptyString.
Proof. now destruct n. Qed.

Lemma search_none (t s : string) :
  forall i0, search t s i0 = (-1)%Z -> (0 <= i0)%Z ->
             forall i, startsWith t (drop i s) = false.
Proof.
  induction s as [|c s IH]; intros i0; simpl.
  - destruct (startsWith t "") eqn:E; [lia|]. intros _ _ i.
    now rewrite drop_nil.
  - destruct (startsWith t (String c s)) eqn:E; [lia|].
    intros H Hi [|i]; [exact E|]. simpl. apply (IH _ H). lia.
Qed.

(** What [indexOf] returns from a position inside the string. *)
Lemma indexOf_spec (s t : string) (from p : Z) :
  (0 <= from <= len s)%Z ->
  indexOf s t from = p -> p <> (-1)%Z ->
  (from <= p /\ p + len t <= len s)%Z
  /\ occursAt t s (Z.to_nat p)
  /\ forall i, Z.to_nat from <= i < Z.to_nat p -> ~ occursAt t s i.
Proof.
  intros Hfrom H Hne. unfold indexOf in H.
  replace (Z.min (Z.max from 0) (len s)) with from in H by lia.
  destruct (search_found _ _ _ _ H Hne ltac:(lia)) as (H1 & H2 & H3).
  pose proof (search_first _ _ _ _ H Hne ltac:(lia)) as H4.
  unfold len in *. rewrite drop_length in H2.
  rewrite drop_drop in H3.
  replace (Z.to_nat from + Z.to_nat (p - from)) with (Z.to_nat p) in H3 by lia.
  repeat split; try lia; try exact H3.
  intros i Hi. unfold occursAt.
  specialize (H4 (i - Z.to_nat from) ltac:(lia)).
  rewrite drop_drop in H4.
  replace (Z.to_nat from + (i - Z.to_nat from)) with i in H4 by lia.
  congruence.
Qed.

Lemma indexOf_none (s t : string) (from : Z) :
  (0 <= from <= len s)%Z ->
  indexOf s t from = (-1)%Z ->
  forall i, Z.to_nat from <= i -> ~ occursAt t s i.
Proof.
  intros Hfrom H i Hi. unfold indexOf in H.
  replace (Z.min (Z.max from 0) (len s)) with from in H by lia.
  pose proof (search_none _ _ _ H ltac:(lia) (i - Z.to_nat from)) as H'.
  rewrite drop_drop in H'.
  replace (Z.to_nat from + (i - Z.to_nat from)) with i in H' by lia.
  unfold occursAt. congruence.
Qed.

Lemma includes_occurs (s t : string) :
  includes s t = true <-> exists i, occursAt t s i.
Proof.
  unfold includes. rewrite negb_true_iff, Z.eqb_neq. split.
  - intros H.
    destruct (indexOf_spec s t 0 _ ltac:(unfold len; lia) eq_refl H)
      as (_ & Hocc & _).
    eauto.
  - intros [i Hi] H.
    exact (indexOf_none s t 0 ltac:(unfold len; lia) H i ltac:(lia) Hi).
Qed.

(** ** The occurrence loop *)

Lemma len_pos (t : string) : t <> EmptyString -> (0 < len t)%Z.
Proof. unfold len. destruct t; [congruence | simpl; lia]. Qed.

(** What one run of the loop appends to the positions it starts with. *)
Lemma occurrences_spec (text term : string) :
  term <> EmptyString ->
  forall fuel pos acc ps,
    (0 <= pos <= len text)%Z ->
    occurrences fuel text term pos acc = Some ps ->
    exists new,
      ps = acc ++ new
      /\ ascendingFrom pos new
      /\ Forall (fun p => spanIn text p
                          /\ snd p = (fst p + len term)%Z
                          /\ occursAt term text (Z.to_nat (fst p))) new
      /\ forall i, Z.to_nat pos <= i -> occursAt term text i ->
                   exists p, In p new /\ (fst p <= Z.of_nat i < snd p)%Z.
Proof.
  intros Hne. pose proof (len_pos term Hne) as Hlen.
  induction fuel as [|fuel IH]; intros pos acc ps Hpos; [discriminate|].
  simpl. destruct (Z.eqb_spec (indexOf text term pos) (-1)) as [E|E].
  - intros [= <-]. exists []. rewrite app_nil_r.
    repeat split; try constructor.
    intros i Hi Hocc. exfalso.
    exact (indexOf_none text term pos Hpos E i Hi Hocc).
  - destruct (indexOf_spec text term pos _ Hpos eq_refl E)
      as ((H1 & H2) & Hocc & Hfirst).
    set (p := indexOf text term pos) in *.
    intros H. apply IH in H as (new & -> & Hasc & Hall & Hcov); [|lia].
    exists ((p, (p + len term)%Z) :: new). rewrite <- app_assoc.
    split; [reflexivity|]. split; [|split].
    + simpl. repeat split; try lia. exact Hasc.
    + constructor; [|exact Hall]. unfold spanIn. simpl.
      repeat split; try lia. exact Hocc.
    + intros i Hi Hi'.
      destruct (Z_lt_le_dec (Z.of_nat i) (p + len term)) as [Hlt|Hge].
      * exists (p, (p + len term)%Z). split; [now left|]. simpl.
        split; [|exact Hlt].
        destruct (Z_lt_le_dec (Z.of_nat i) p) as [Hlt'|]; [|assumption].
        exfalso. apply (Hfirst i); [lia | exact Hi'].
      * destruct (Hcov i ltac:(lia) Hi') as [q [Hq Hq']].
        exists q. split; [now right | exact Hq'].
Qed.

(** X11.  When the occurrence loop of the scoring returns, the term is
    not empty and the spans it has recorded are in ascending order and do
    not overlap; each one lies inside the text, has the length of the
    term and covers an occurrence of the term; and every occurrence of
    the term in the text starts inside one of the spans. *)
Theorem allOccurrences_spans (text term : string) (ps : list (Z * Z)) :
  allOccurrences text term = Some ps ->
  term <> EmptyString
  /\ ascendingFrom 0 ps
  /\ Forall (fun p => spanIn text p
                      /\ snd p = (fst p + len term)%Z
                      /\ occursAt term text (Z.to_nat (fst p))) ps
  /\ forall i, occursAt term text i ->
               exists p, In p ps /\ (fst p <= Z.of_nat i < snd p)%Z.
Proof.
  intros H.
  assert (Hne : term <> EmptyString).
  { intros ->. rewrite allOccurrences_empty_term in H. discriminate. }
  split; [exact Hne|]. unfold allOccurrences in H.
  destruct (occurrences_spec text term Hne _ 0%Z [] ps
              ltac:(unfold len; lia) H) as (new & -> & Hasc & Hall & Hcov).
  simpl. repeat split; try assumption.
  intros i Hi. apply Hcov; [lia | exact Hi].
Qed.

(** ** Term frequency and inverse document frequency *)

Lemma splitWsFrom_nonempty (s cur : string) (b : bool) :
  0 < List.length (splitWsFrom s cur b).
Proof.
  revert cur b. induction s as [|c s IH]; intros cur b; simpl; [lia|].
  destruct (isSpace c); [destruct b; [apply IH | simpl; lia] | apply IH].
Qed.

Lemma splitOn_nonempty (sep s cur : string) (skip : nat) :
  0 < List.length (splitOn sep s cur skip).
Proof.
  revert cur skip. induction s as [|c s IH]; intros cur skip; simpl; [lia|].
  destruct skip; [|apply IH].
  destruct (startsWith sep (String c s)); [simpl; lia | apply IH].
Qed.

(** The split at a separator has one piece exactly when the separator
    does not occur. *)
Lemma splitOn_single (sep s : string) :
  sep <> EmptyString ->
  forall cur,
    List.length (splitOn sep s cur 0) = 1
    <-> forall i, ~ occursAt sep s i.
Proof.
  intros Hne. unfold occursAt.
  induction s as [|c s IH]; intros cur.
  - simpl. split; [|reflexivity]. intros _ i.
    rewrite drop_nil, startsWith_nonempty_nil by assumption. discriminate.
  - cbn [splitOn]. destruct (startsWith sep (String c s)) eqn:E.
    + split.
      * simpl. pose proof (splitOn_nonempty sep s EmptyString
                             (String.length sep - 1)). lia.
      * intros H. exfalso. apply (H 0). exact E.
    + rewrite IH. split.
      * intros H [|i]; [simpl; congruence | apply H].
      * intros H i. apply (H (S i)).
Qed.

Lemma split_count (s sep : string) :
  sep <> EmptyString ->
  (0 <= Z.of_nat (List.length (split s sep)) - 1)%Z
  /\ ((Z.of_nat (List.length (split s sep)) - 1 = 0)%Z
      <-> includes s sep = false).
Proof.
  intros Hne. unfold split. destruct sep as [|a sep]; [congruence|].
  pose proof (splitOn_nonempty (String a sep) s EmptyString 0) as Hpos.
  split; [lia|].
  rewrite <- not_true_iff_false, includes_occurs.
  split; intros H.
  - assert (E : List.length (splitOn (String a sep) s "" 0) = 1) by lia.
    rewrite splitOn_single in E by assumption.
    intros [i Hi]. exact (E i Hi).
  - assert (E : List.length (splitOn (String a sep) s "" 0) = 1).
    { apply splitOn_single; [assumption|]. intros i Hi. apply H. eauto. }
    lia.
Qed.

Lemma toLowerCase_nonempty (s : string) :
  s <> EmptyString -> toLowerCase s <> EmptyString.
Proof. intros H E. apply H. now apply toLowerCase_empty. Qed.

Lemma div_Z_nat (z : Z) (n : nat) :
  0 < n ->
  (of_Z z / of_nat n)%num
  = Fin (Qred (inject_Z z / inject_Z (Z.of_nat n))).
Proof.
  intros H. unfold of_nat, of_Z, div.
  now rewrite (sgn_pos _ (inject_nat_pos n H)).
Qed.

(** X12.  For a term that is not empty, [calculateTF] is a finite number,
    never negative, and it is 0 exactly when the lowercased document does
    not include the lowercased term. *)
Theorem calculateTF_zero_iff_absent (term document : string) :
  term <> EmptyString ->
  exists q,
    calculateTF term document = Fin q
    /\ (0 <= q)%Q
    /\ ((q == 0)%Q
        <-> includes (toLowerCase document) (toLowerCase term) = false).
Proof.
  intros Hne. unfold calculateTF.
  pose proof (splitWsFrom_nonempty document EmptyString false) as Hwc.
  fold (splitWs document) in Hwc.
  destruct (split_count (toLowerCase document) (toLowerCase term)
              (toLowerCase_nonempty term Hne)) as [Hc Hz].
  set (tc := (Z.of_nat (List.length (split (toLowerCase document)
                                           (toLowerCase term))) - 1)%Z) in *.
  rewrite div_Z_nat by assumption.
  pose proof (inject_nat_pos _ Hwc) as Hpos.
  set (wc := inject_Z (Z.of_nat (List.length (splitWs document)))) in *.
  assert (Htc : (0 <= inject_Z tc)%Q).
  { change 0%Q with (inject_Z 0). rewrite <- Zle_Qle. exact Hc. }
  eexists. split; [reflexivity|]. rewrite Qred_correct. split.
  - apply Qle_shift_div_l; [assumption|]. now rewrite Qmult_0_l.
  - rewrite <- Hz. split; intros H.
    + assert (Hq : (inject_Z tc == 0)%Q).
      { assert (Hw : ~ (wc == 0)%Q) by lra.
        rewrite <- (Qmult_div_r (inject_Z tc) wc Hw), H. ring. }
      unfold Qeq in Hq. simpl in Hq. lia.
    + rewrite H. unfold Qdiv. simpl inject_Z. ring.
Qed.

Lemma Math_log_pos (ln : Q -> Q) (q : Q) :
  (0 < q)%Q -> Math_log ln (Fin q) = Fin (Qred (ln q)).
Proof. intros H. unfold Math_log. now rewrite sgn_pos. Qed.

Lemma calculateIDF_finite (ln : Q -> Q) (term : string)
  (documents : list string) :
  documents <> [] -> finite (calculateIDF ln term documents).
Proof.
  intros Hne. unfold calculateIDF.
  rewrite div_of_nat by lia.
  rewrite Math_log_pos.
  - cbn [add]. eexists. reflexivity.
  - rewrite Qred_correct. apply Qlt_shift_div_l.
    + apply inject_nat_pos. lia.
    + rewrite Qmult_0_l. apply inject_nat_pos.
      destruct documents; [congruence | simpl; lia].
Qed.

(** X13.  Over a collection of documents that is not empty,
    [calculateIDF] is a finite number, whatever [Math.log] returns; over
    the empty collection it is -Infinity, and then [calculateTFIDF] is
    never a finite number. *)
Theorem calculateIDF_finite_iff (ln : Q -> Q) (term document : string)
  (documents : list string) :
  (finite (calculateIDF ln term documents) <-> documents <> [])
  /\ calculateIDF ln term [] = NegInf
  /\ ~ finite (calculateTFIDF ln term document []).
Proof.
  split; [|split].
  - split; [|apply calculateIDF_finite].
    intros [q Hq] ->. discriminate.
  - reflexivity.
  - unfold calculateTFIDF.
    change (calculateIDF ln term []) with NegInf.
    intros [q Hq]. destruct (calculateTF term document) as [| |p|];
      try discriminate.
    cbn [mul] in Hq. destruct (sgn p); discriminate.
Qed.

(** ** What the expansion adds *)

Lemma fold_left_inv_In {A B} (P : B -> Prop) (f : B -> A -> B) (l : list A) :
  (forall b a, In a l -> P b -> P (f b a)) ->
  forall b, P b -> P (fold_left f l b).
Proof.
  induction l as [|a l IH]; intros Hf b Hb; simpl; [assumption|].
  apply IH.
  - intros b' a' Hin. apply Hf. now right.
  - apply Hf; [now left | assumption].
Qed.

Lemma arrIncludes_In (l : list string) (x : string) :
  arrIncludes l x = true <-> In x l.
Proof. apply has_In. Qed.

Lemma of_list_length_le (l : list string) :
  List.length (JSSet.of_list l) <= List.length l.
Proof.
  apply NoDup_incl_length; [apply NoDup_of_list|].
  intros x. now rewrite In_of_list.
Qed.

Lemma fold_add_NoDup (l acc : list string) :
  NoDup (acc ++ l) -> fold_left JSSet.add l acc = acc ++ l.
Proof.
  revert acc. induction l as [|x l IH]; intros acc H; simpl.
  - now rewrite app_nil_r.
  - assert (Hx : JSSet.has acc x = false).
    { apply not_true_iff_false. rewrite has_In. intros Hin.
      apply NoDup_remove_2 in H. apply H. apply in_or_app. now left. }
    unfold JSSet.add at 2. rewrite Hx.
    rewrite IH; rewrite <- app_assoc; [reflexivity | exact H].
Qed.

(** A set built from an array without repetition lists the array. *)
Lemma of_list_NoDup (l : list string) : NoDup l -> JSSet.of_list l = l.
Proof. intros H. apply (fold_add_NoDup l []). exact H. Qed.

Lemma add_cases (s : JSSet.t) (x : string) :
  (JSSet.has s x = true /\ JSSet.add s x = s)
  \/ (JSSet.has s x = false /\ JSSet.add s x = s ++ [x]).
Proof. unfold JSSet.add. destruct (JSSet.has s x); auto. Qed.

(** The set and the term list of [expandQuery] are those of the
    definitions with parameters, at the tests of the model. *)
Lemma expandedTermSet_when (query : string) (entries : list KnowledgeEntry) :
  expandedTermSet query entries
  = expandedTermSetWhen (similarEnough query) closeEnough query entries.
Proof. reflexivity. Qed.

Lemma finalTerms_when (query : string) (entries : list KnowledgeEntry) :
  finalTerms query entries
  = finalTermsWhen (similarEnough query) closeEnough query entries.
Proof. reflexivity. Qed.

Section Expansion.

Variable similar : KnowledgeEntry -> bool.
Variable close : string -> string -> bool.

(** The expansion set: the set of the query terms, followed by terms
    that the loop over the entries has added. *)
Lemma expandedTermSet_shape (query : string) (entries : list KnowledgeEntry) :
  exists added,
    expandedTermSetWhen similar close query entries
    = JSSet.of_list (tokenize query) ++ added
    /\ NoDup (expandedTermSetWhen similar close query entries)
    /\ Forall (expansionWhen similar close query entries) added.
Proof.
  unfold expandedTermSetWhen.
  apply (fold_left_inv_In
           (fun s : JSSet.t =>
              exists added,
                s = JSSet.of_list (tokenize query) ++ added
                /\ NoDup s
                /\ Forall (expansionWhen similar close query entries) added)).
  - intros s e He (added & -> & Hnd & Hall).
    destruct (similar e) eqn:Esim; [|eauto].
    set (terms := filter _ _).
    assert (Hterms :
              forall t, In t terms ->
                relatedWhen close (tokenize query) t = true ->
                expansionWhen similar close query entries t).
    { intros t Ht Hrel. unfold terms in Ht. apply filter_In in Ht as [Ht Hc].
      apply andb_prop in Hc as [Hc Hstop]. apply andb_prop in Hc as [Hlen Hq].
      exists e. repeat split; try assumption.
      - now apply Nat.ltb_lt.
      - rewrite <- arrIncludes_In.
        now apply negb_true_iff, not_true_iff_false in Hq.
      - now apply negb_true_iff. }
    clearbody terms. revert added Hnd Hall.
    induction terms as [|t terms IH]; intros added Hnd Hall; simpl; [eauto|].
    destruct (relatedWhen close (tokenize query) t) eqn:Erel.
    + pose proof (NoDup_add _ t Hnd) as Hnd'.
      destruct (add_cases (JSSet.of_list (tokenize query) ++ added) t)
        as [[Ehas Eadd]|[Ehas Eadd]]; rewrite Eadd in *.
      * apply IH; auto. intros t' Ht'. apply Hterms. now right.
      * rewrite <- app_assoc in *. apply IH.
        -- intros t' Ht'. apply Hterms. now right.
        -- exact Hnd'.
        -- apply Forall_app. split; [assumption|].
           constructor; [|constructor]. apply Hterms; [now left | assumption].
    + apply IH; auto. intros t' Ht'. apply Hterms. now right.
  - exists []. rewrite app_nil_r. repeat split; [apply NoDup_of_list|].
    constructor.
Qed.

Lemma NoDup_firstn {A} (n : nat) (l : list A) : NoDup l -> NoDup (firstn n l).
Proof.
  revert l. induction n as [|n IH]; intros [|x l] H; simpl; try constructor.
  - inversion H as [|? ? Hx Hl]; subst. intros Hin. apply Hx.
    now apply In_firstn in Hin.
  - inversion H; subst. now apply IH.
Qed.

Lemma finalTerms_shape (query : string) (entries : list KnowledgeEntry) :
  exists kept,
    finalTermsWhen similar close query entries
    = JSSet.of_list (tokenize query) ++ kept
    /\ NoDup (finalTermsWhen similar close query entries)
    /\ Forall (expansionWhen similar close query entries) kept.
Proof.
  destruct (expandedTermSet_shape query entries) as (added & E & Hnd & Hall).
  unfold finalTermsWhen. rewrite slice0_of_nat.
  pose proof (of_list_length_le (tokenize query)).
  exists (firstn (List.length (tokenize query) + 3
                  - List.length (JSSet.of_list (tokenize query))) added).
  split; [|split].
  - rewrite E, firstn_app. f_equal. apply firstn_all2. lia.
  - now apply NoDup_firstn.
  - apply Forall_forall. intros t Ht. apply In_firstn in Ht.
    revert t Ht. now apply Forall_forall.
Qed.

End Expansion.

(** X14.  The term list of [expandQuery] starts with the terms of the
    query, each of them once (the list of the query terms itself when no
    term is repeated), and no term occurs twice in it. *)
Theorem expandQuery_keeps_query_terms (query : string)
  (entries : list KnowledgeEntry) :
  (exists kept,
     finalTerms query entries = JSSet.of_list (tokenize query) ++ kept)
  /\ NoDup (finalTerms query entries)
  /\ NoDup (JSSet.of_list (tokenize query))
  /\ (forall t, In t (JSSet.of_list (tokenize query)) <-> In t (tokenize query))
  /\ (NoDup (tokenize query) -> JSSet.of_list (tokenize query) = tokenize query).
Proof.
  rewrite finalTerms_when.
  destruct (finalTerms_shape (similarEnough query) closeEnough query entries)
    as (kept & E & Hnd & _).
  split; [eauto|]. split; [exact Hnd|]. split; [apply NoDup_of_list|].
  split; [intros t; apply In_of_list | apply of_list_NoDup].
Qed.

(** X15.  Whichever entries pass the similarity test of [expandQuery]
    and whichever pairs of terms pass the edit-distance test of its
    relatedness check, every term of its term list is a term of the query
    or comes from an entry that passed the similarity test: it is then a
    word of that entry longer than three characters, not a query term,
    not a stop word, and related to a query term. *)
Theorem expandQuery_added_terms (similar : KnowledgeEntry -> bool)
  (close : string -> string -> bool) (query : string)
  (entries : list KnowledgeEntry) (term : string) :
  In term (finalTermsWhen similar close query entries) ->
  In term (tokenize query) \/ expansionWhen similar close query entries term.
Proof.
  destruct (finalTerms_shape similar close query entries)
    as (kept & E & _ & Hall).
  rewrite E, in_app_iff, In_of_list. intros [H|H]; [now left | right].
  revert term H. now apply Forall_forall.
Qed.

(** X16.  Without entries the expansion adds nothing: [expandQuery]
    returns the distinct terms of the query joined by spaces. *)
Theorem expandQuery_no_entries (query : string) :
  finalTerms query [] = JSSet.of_list (tokenize query)
  /\ expandQuery query [] = join " " (JSSet.of_list (tokenize query)).
Proof.
  assert (H : finalTerms query [] = JSSet.of_list (tokenize query)).
  { rewrite finalTerms_firstn. unfold expandedTermSet. simpl.
    apply firstn_all2. pose proof (of_list_length_le (tokenize query)). lia. }
  split; [exact H|]. unfold expandQuery. now rewrite H.
Qed.

(** ** Where the results of the pipeline come from *)

Lemma mapM_Forall2 {A B} (f : A -> option B) (l : list A) (r : list B) :
  mapM f l = Some r -> Forall2 (fun a b => f a = Some b) l r.
Proof.
  revert r. induction l as [|a l IH]; intros r; simpl.
  - intros [= <-]. constructor.
  - destruct (f a) as [b|] eqn:E; [|discriminate]. simpl.
    destruct (mapM f l) as [bs|]; [|discriminate]. simpl.
    intros [= <-]. constructor; [exact E | now apply IH].
Qed.

Lemma In_slice0 {A} (l : list A) (k : num) (x : A) :
  In x (slice0 l k) -> In x l.
Proof.
  unfold slice0. destruct k as [| |q|]; simpl; try tauto.
  apply In_firstn.
Qed.

Lemma Forall2_In_r {A B} (R : A -> B -> Prop) (l : list A) (r : list B) b :
  Forall2 R l r -> In b r -> exists a, In a l /\ R a b.
Proof.
  induction 1 as [|a' b' l r Hab _ IH]; intros Hin; [contradiction|].
  destruct Hin as [<-|Hin]; [exists a'; split; [now left | assumption]|].
  destruct (IH Hin) as [a [Ha HR]]. exists a. split; [now right | exact HR].
Qed.

Section Provenance.

Variable ln : Q -> Q.

(** A call that passes the two early returns scores every entry, and
    returns [pipelineOutput] of the scored entries. *)
Lemma searchKnowledgeBase_structure (query : string)
  (allEntries : list KnowledgeEntry) :
  (forall settings, searchKnowledgeBase ln query allEntries settings = Some [])
  \/ (longerThan 2 (splitWs (trim (toLowerCase query))) <> []
      /\ exists scoredEntries,
           Forall2
             (fun e r =>
                scoreEntry ln (trim (toLowerCase query))
                  (longerThan 2 (splitWs (trim (toLowerCase query))))
                  (filter
                     (fun term =>
                        negb (arrIncludes
                                (longerThan 2
                                   (splitWs (trim (toLowerCase query))))
                                term))
                     (splitWs (expandQuery (trim (toLowerCase query))
                                 allEntries)))
                  allEntries e = Some r)
             allEntries scoredEntries
           /\ forall settings,
                searchKnowledgeBase ln query allEntries settings
                = Some (pipelineOutput ln query allEntries settings
                          scoredEntries)).
Proof.
  unfold searchKnowledgeBase.
  destruct (String.eqb (trim query) ""); [now left|].
  destruct (Nat.eqb_spec
              (List.length (longerThan 2 (splitWs (trim (toLowerCase query)))))
              0) as [E|E]; [now left|].
  right.
  assert (Hne : longerThan 2 (splitWs (trim (toLowerCase query))) <> []).
  { intros H. now rewrite H in E. }
  split; [exact Hne|].
  destruct (pipeline_terms query allEntries Hne) as [Hq He].
  destruct (mapM _ allEntries) as [scored|] eqn:Hs.
  - exists scored. split; [now apply mapM_Forall2 | reflexivity].
  - exfalso.
    destruct (mapM_returns
                (scoreEntry ln (trim (toLowerCase query))
                   (longerThan 2 (splitWs (trim (toLowerCase query))))
                   (filter
                      (fun term =>
                         negb (arrIncludes
                                 (longerThan 2
                                    (splitWs (trim (toLowerCase query))))
                                 term))
                      (splitWs (expandQuery (trim (toLowerCase query))
                                  allEntries)))
                   allEntries)
                allEntries) as [r [Hr _]].
    { intros e. now apply scoreEntry_returns. }
    congruence.
Qed.

(** A result of [pipelineOutput] is the re-scoring of a scored entry
    that passed the threshold. *)
Lemma pipelineOutput_In (query : string) (allEntries : list KnowledgeEntry)
  (settings : Settings) (scoredEntries : list SearchResult)
  (r : SearchResult) :
  In r (pipelineOutput ln query allEntries settings scoredEntries) ->
  exists r0,
    In r0 scoredEntries
    /\ (score r0 >? relevanceThreshold settings * Fin 10)%num = true
    /\ r = rescore ln (trim (toLowerCase query))
             (averageDocLength allEntries) (map documentOf allEntries) r0.
Proof.
  unfold pipelineOutput. intros H.
  apply (Permutation_in _ (rankResults_perm _ _ _ _)) in H.
  apply in_map_iff in H as [r0 [<- H]].
  apply In_slice0 in H.
  apply (Permutation_in _ (sort_perm _ _)) in H.
  apply filter_In in H as [H1 H2]. eauto.
Qed.

End Provenance.

(** ** The spans recorded by the first pass *)

Lemma exactMatch_records (fieldName : string) (weight : num)
  (text nq : string) (P : FieldMatch -> Prop) (acc : Acc) :
  nq <> EmptyString ->
  (forall ps, ps <> [] -> Forall (spanIn text) ps -> P (mkMatch fieldName ps)) ->
  Forall P (snd acc) ->
  Forall P (snd (exactMatch fieldName weight text nq acc)).
Proof.
  intros Hne HP Hacc. destruct acc as [s ms]. unfold exactMatch.
  destruct (includes text nq) eqn:E; [|assumption].
  simpl. apply Forall_app. split; [assumption|].
  constructor; [|constructor]. apply HP; [discriminate|].
  constructor; [|constructor].
  unfold includes in E. apply negb_true_iff, Z.eqb_neq in E.
  destruct (indexOf_spec text nq 0 _ ltac:(unfold len; lia) eq_refl E)
    as ((H1 & H2) & _).
  pose proof (len_pos nq Hne). unfold spanIn. simpl. lia.
Qed.

Lemma termMatches_records (fieldName : string) (weight : num)
  (text : string) (P : FieldMatch -> Prop) (terms : list string) :
  (forall ps, ps <> [] -> Forall (spanIn text) ps -> P (mkMatch fieldName ps)) ->
  forall acc acc',
    termMatches fieldName weight text terms acc = Some acc' ->
    Forall P (snd acc) -> Forall P (snd acc').
Proof.
  intros HP. unfold termMatches.
  induction terms as [|t terms IH]; intros [s ms] acc'; simpl.
  - now intros [= <-].
  - destruct (includes text t); [|apply IH].
    destruct (allOccurrences text t) as [ps|] eqn:E; [|discriminate].
    simpl. intros H Hacc. apply IH in H; [exact H|]. simpl.
    destruct (Nat.ltb_spec 0 (List.length ps)) as [Hlen|Hlen]; [|assumption].
    apply Forall_app. split; [assumption|]. constructor; [|constructor].
    apply HP; [now destruct ps; [simpl in Hlen; lia|]|].
    unfold allOccurrences in E.
    assert (Hne : t <> EmptyString).
    { intros ->. fold (allOccurrences text "") in E.
      rewrite allOccurrences_empty_term in E. discriminate. }
    destruct (occurrences_spec text t Hne _ 0%Z [] ps
                ltac:(unfold len; lia) E) as (new & -> & _ & Hall & _).
    simpl. eapply Forall_impl; [|exact Hall]. now intros p [Hp _].
Qed.

Lemma scoreEntry_records ln nq queryTerms expandedTerms allEntries e r :
  nq <> EmptyString ->
  scoreEntry ln nq queryTerms expandedTerms allEntries e = Some r ->
  entry r = e /\ exists ms, matches r = Some ms /\ Forall (recordIn e) ms.
Proof.
  intros Hne. unfold scoreEntry, titleTerms, contentTerms.
  set (a0 := exactMatch "title" _ _ _ _).
  assert (HT : forall ps, ps <> [] ->
                 Forall (spanIn (toLowerCase (title e))) ps ->
                 recordIn e (mkMatch "title" ps)).
  { intros ps H1 H2. split; [exact H1 | left; now split]. }
  assert (HC : forall ps, ps <> [] ->
                 Forall (spanIn (toLowerCase (content e))) ps ->
                 recordIn e (mkMatch "content" ps)).
  { intros ps H1 H2. split; [exact H1 | right; now split]. }
  assert (H0 : Forall (recordIn e) (snd a0)).
  { apply exactMatch_records; auto. }
  destruct (termMatches "title" _ _ queryTerms a0) as [a1|] eqn:E1;
    [|discriminate].
  apply (termMatches_records _ _ _ _ _ HT) in E1; [|exact H0]. simpl.
  destruct (termMatches "title" _ _ expandedTerms a1) as [a2|] eqn:E2;
    [|discriminate].
  apply (termMatches_records _ _ _ _ _ HT) in E2; [|exact E1]. simpl.
  set (a3 := exactMatch "content" _ _ _ a2).
  assert (H3 : Forall (recordIn e) (snd a3)).
  { apply exactMatch_records; auto. }
  destruct (termMatches "content" _ _ queryTerms a3) as [a4|] eqn:E4;
    [|discriminate].
  apply (termMatches_records _ _ _ _ _ HC) in E4; [|exact H3]. simpl.
  destruct (termMatches "content" _ _ expandedTerms a4) as [a5|] eqn:E5;
    [|discriminate].
  apply (termMatches_records _ _ _ _ _ HC) in E5; [|exact E4]. simpl.
  intros [= <-]. destruct a5 as [s ms]. simpl. eauto.
Qed.

Lemma splitWs_nil : splitWs EmptyString = [EmptyString].
Proof. reflexivity. Qed.

Lemma queryTerms_query_nonempty (nq : string) :
  longerThan 2 (splitWs nq) <> [] -> nq <> EmptyString.
Proof. intros H ->. now apply H. Qed.

(** X17.  Every result of the search carries an entry of the collection
    and a list of match records; each record names the title or the
    content and holds at least one span, and each of its spans lies
    inside the lowercased text of that field of the entry:
    [0 <= start < end <= length]. *)
Theorem searchKnowledgeBase_spans_in_range (ln : Q -> Q) (query : string)
  (allEntries : list KnowledgeEntry) (settings : Settings)
  (results : list SearchResult) :
  searchKnowledgeBase ln query allEntries settings = Some results ->
  Forall
    (fun r =>
       In (entry r) allEntries
       /\ exists ms, matches r = Some ms /\ Forall (recordIn (entry r)) ms)
    results.
Proof.
  intros H.
  destruct (searchKnowledgeBase_structure ln query allEntries)
    as [H0|(Hne & scored & HF & H1)].
  - rewrite H0 in H. injection H as <-. constructor.
  - rewrite H1 in H. injection H as <-.
    apply Forall_forall. intros r Hr.
    apply pipelineOutput_In in Hr as (r0 & Hr0 & _ & ->).
    destruct (Forall2_In_r _ _ _ _ HF Hr0) as (e & He & Hs).
    apply scoreEntry_records in Hs as (Hent & ms & Hm & Hrec);
      [|now apply queryTerms_query_nonempty].
    simpl. rewrite Hent, Hm. eauto.
Qed.

(** ** The entries of the results *)

Lemma filter_complement {A} (f : A -> bool) (l : list A) :
  Permutation (filter f l ++ filter (fun x => negb (f x)) l) l.
Proof.
  induction l as [|x l IH]; simpl; [constructor|].
  destruct (f x); simpl.
  - now constructor.
  - rewrite <- Permutation_middle. now constructor.
Qed.

Lemma slice0_firstn {A} (l : list A) (k : num) :
  exists n, slice0 l k = firstn n l.
Proof.
  unfold slice0. destruct k as [| |q|].
  - now exists 0.
  - now exists 0.
  - eauto.
  - exists (List.length l). now rewrite firstn_all.
Qed.

Lemma scoreEntry_entry ln nq queryTerms expandedTerms allEntries e r :
  scoreEntry ln nq queryTerms expandedTerms allEntries e = Some r ->
  entry r = e.
Proof.
  unfold scoreEntry.
  destruct (titleTerms _ _ _ _) as [a1|]; [|discriminate]. simpl.
  destruct (contentTerms _ _ _ _) as [a2|]; [|discriminate]. simpl.
  intros [= <-]. now destruct a2.
Qed.

Lemma Forall2_map_eq {A B} (f : A -> option B) (g : B -> A) l r :
  Forall2 (fun a b => f a = Some b) l r ->
  (forall a b, f a = Some b -> g b = a) ->
  map g r = l.
Proof.
  intros H Hg. induction H as [|a b l r Hab _ IH]; simpl; [reflexivity|].
  now rewrite (Hg a b Hab), IH.
Qed.

(** X18.  The entries of the results are entries of the collection, each
    returned at most as often as it occurs there: the list of the
    returned entries can be completed to a permutation of the
    collection.  In particular an empty collection gives no result. *)
Theorem searchKnowledgeBase_entries (ln : Q -> Q) (query : string)
  (allEntries : list KnowledgeEntry) (settings : Settings)
  (results : list SearchResult) :
  searchKnowledgeBase ln query allEntries settings = Some results ->
  exists others, Permutation (map entry results ++ others) allEntries.
Proof.
  intros H.
  destruct (searchKnowledgeBase_structure ln query allEntries)
    as [H0|(Hne & scored & HF & H1)].
  - rewrite H0 in H. injection H as <-. exists allEntries. reflexivity.
  - rewrite H1 in H. injection H as <-. unfold pipelineOutput.
    set (f := fun item : SearchResult =>
                (score item >? relevanceThreshold settings * Fin 10)%num).
    set (sorted := sort byScoreDesc (filter f scored)).
    destruct (slice0_firstn sorted (maxResults settings)) as [n ->].
    exists (map entry (skipn n sorted)
            ++ map entry (filter (fun x => negb (f x)) scored)).
    assert (Hent : map entry scored = allEntries).
    { apply (Forall2_map_eq _ _ _ _ HF). intros e r.
      apply scoreEntry_entry. }
    assert (HP : Permutation
                   (map entry (rankResults ln (trim (toLowerCase query))
                                 (firstn n sorted) allEntries))
                   (map entry (firstn n sorted))).
    { pose proof (rankResults_perm ln (trim (toLowerCase query))
                    (firstn n sorted) allEntries) as HP.
      apply (Permutation_map entry) in HP. now rewrite map_map in HP. }
    assert (HS : Permutation (map entry sorted) (map entry (filter f scored))).
    { apply Permutation_map, sort_perm. }
    assert (HC : Permutation
                   (map entry (filter f scored)
                    ++ map entry (filter (fun x => negb (f x)) scored))
                   allEntries).
    { rewrite <- map_app, <- Hent. apply Permutation_map, filter_complement. }
    eapply Permutation_trans; [|exact HC].
    rewrite app_assoc. apply Permutation_app_tail.
    eapply Permutation_trans; [|exact HS].
    rewrite <- (firstn_skipn n sorted) at 3. rewrite map_app.
    now apply Permutation_app_tail.
Qed.

(** ** Finite scores *)

Lemma finite_add (a b : num) : finite a -> finite b -> finite (a + b)%num.
Proof. intros [p ->] [q ->]. eexists. reflexivity. Qed.

Lemma finite_mul (a b : num) : finite a -> finite b -> finite (a * b)%num.
Proof. intros [p ->] [q ->]. eexists. reflexivity. Qed.

Lemma finite_Fin (q : Q) : finite (Fin q).
Proof. now exists q. Qed.

Lemma finite_inUnit (a : num) : inUnit a = true -> finite a.
Proof. intros H. apply inUnit_spec in H as [q [-> _]]. apply finite_Fin. Qed.

Lemma finite_scored (r : SearchResult) : finite (score r) -> scored r.
Proof. intros [q H]. unfold scored. now rewrite H. Qed.

Lemma div_Fin_pos (p q : Q) :
  (0 < q)%Q -> (Fin p / Fin q)%num = Fin (Qred (p / q)).
Proof. intros H. unfold div. now rewrite sgn_pos. Qed.

Lemma calculateTF_nonnegative (term document : string) :
  term <> EmptyString -> nonnegative (calculateTF term document).
Proof.
  intros Hne. unfold calculateTF.
  pose proof (splitWsFrom_nonempty document EmptyString false) as Hwc.
  fold (splitWs document) in Hwc.
  destruct (split_count (toLowerCase document) (toLowerCase term)
              (toLowerCase_nonempty term Hne)) as [Hc _].
  rewrite div_Z_nat by assumption.
  eexists. split; [reflexivity|]. rewrite Qred_correct.
  apply Qle_shift_div_l; [now apply inject_nat_pos|].
  rewrite Qmult_0_l. change 0%Q with (inject_Z 0). now rewrite <- Zle_Qle.
Qed.

Lemma docLength_sum (entries : list KnowledgeEntry) :
  forall s0,
    (0 <= s0)%Q ->
    exists s,
      fold_left
        (fun sum entry =>
           (sum + of_nat (List.length (splitWs (content entry))))%num)
        entries (Fin s0) = Fin s
      /\ (s0 + inject_Z (Z.of_nat (List.length entries)) <= s)%Q.
Proof.
  induction entries as [|e entries IH]; intros s0 H0.
  - exists s0. split; [reflexivity|].
    change (inject_Z (Z.of_nat (@List.length KnowledgeEntry []))) with 0%Q.
    lra.
  - cbn [fold_left]. unfold of_nat at 1, of_Z at 1. cbn [add].
    pose proof (splitWsFrom_nonempty (content e) EmptyString false) as Hlen.
    fold (splitWs (content e)) in Hlen.
    assert (H1 : (1 <= inject_Z
                         (Z.of_nat (List.length (splitWs (content e)))))%Q).
    { change 1%Q with (inject_Z 1). rewrite <- Zle_Qle. lia. }
    destruct (IH (Qred (s0 + inject_Z
                               (Z.of_nat
                                  (List.length (splitWs (content e)))))))
      as (s & Hs & Hle).
    { rewrite Qred_correct. lra. }
    exists s. split; [exact Hs|].
    rewrite Qred_correct in Hle.
    cbn [List.length]. rewrite Nat2Z.inj_succ, <- Z.add_1_l, inject_Z_plus.
    change (inject_Z 1) with 1%Q. lra.
Qed.

Lemma averageDocLength_positive (allEntries : list KnowledgeEntry) :
  allEntries <> [] -> positive (averageDocLength allEntries).
Proof.
  intros Hne. unfold averageDocLength.
  destruct (docLength_sum allEntries 0 (Qle_refl 0)) as (s & -> & Hs).
  assert (Hn : 0 < List.length allEntries)
    by (destruct allEntries; [congruence | simpl; lia]).
  pose proof (inject_nat_pos _ Hn) as Hpos.
  unfold of_nat, of_Z. rewrite div_Fin_pos by assumption.
  eexists. split; [reflexivity|]. rewrite Qred_correct.
  apply Qlt_shift_div_l; [assumption|]. lra.
Qed.

(** One term of the sum of [calculateBM25]. *)
Lemma bm25_term_finite (tf idf avgDocLength : num) (docLength : nat) :
  nonnegative tf -> finite idf -> positive avgDocLength ->
  finite
    (idf * (tf * (Fin (3 # 2) + Fin 1)
            / (tf + Fin (3 # 2)
                    * (Fin 1 - Fin (3 # 4)
                       + Fin (3 # 4) * (of_nat docLength / avgDocLength)))))%num.
Proof.
  intros (t & -> & Ht) (i & ->) (a & -> & Ha).
  unfold of_nat, of_Z. rewrite div_Fin_pos by assumption.
  cbn [add sub mul].
  assert (Hx : (0 <= inject_Z (Z.of_nat docLength) / a)%Q).
  { apply Qle_shift_div_l; [assumption|]. rewrite Qmult_0_l.
    change 0%Q with (inject_Z 0). rewrite <- Zle_Qle. lia. }
  rewrite div_Fin_pos.
  - cbn [mul]. apply finite_Fin.
  - rewrite !Qred_correct.
    remember (inject_Z (Z.of_nat docLength) / a)%Q as x.
    clear - Ht Hx. lra.
Qed.

Section FiniteScores.

Variable ln : Q -> Q.

Lemma calculateTFIDF_finite (term document : string)
  (documents : list string) :
  documents <> [] -> finite (calculateTFIDF ln term document documents).
Proof.
  intros Hne. unfold calculateTFIDF. apply finite_mul.
  - unfold calculateTF.
    pose proof (splitWsFrom_nonempty document EmptyString false) as Hwc.
    fold (splitWs document) in Hwc.
    rewrite div_Z_nat by assumption. apply finite_Fin.
  - now apply calculateIDF_finite.
Qed.

Lemma tokenize_nonempty_terms (query term : string) :
  In term (tokenize query) -> term <> EmptyString.
Proof.
  unfold tokenize. rewrite longerThan_In. intros [_ H] ->. simpl in H. lia.
Qed.

Lemma calculateBM25_finite (query document : string) (avgDocLength : num)
  (documents : list string) :
  documents <> [] -> positive avgDocLength ->
  finite (calculateBM25 ln query document avgDocLength documents
            (Fin (3 # 2)) (Fin (3 # 4))).
Proof.
  intros Hne Havg. unfold calculateBM25.
  apply (fold_left_inv_In finite); [|apply finite_Fin].
  intros s term Hterm Hs. apply finite_add; [assumption|].
  apply bm25_term_finite; [|now apply calculateIDF_finite | assumption].
  apply calculateTF_nonnegative. eapply tokenize_nonempty_terms; eassumption.
Qed.

Lemma jaccard_terms_finite (terms : list string) (B : JSSet.t) :
  terms <> [] -> finite (jaccardSimilarity (JSSet.of_list terms) B).
Proof.
  intros H. apply finite_inUnit, jaccardSimilarity_inUnit.
  apply of_list_nonempty in H.
  destruct (JSSet.of_list terms); [congruence | discriminate].
Qed.

Lemma rescore_finite (query : string) (allEntries : list KnowledgeEntry)
  (r : SearchResult) :
  allEntries <> [] -> tokenize query <> [] -> finite (score r) ->
  finite (score (rescore ln query (averageDocLength allEntries)
                   (map documentOf allEntries) r)).
Proof.
  intros Hne Hq Hr. unfold rescore. cbn [score].
  assert (Hdocs : map documentOf allEntries <> []).
  { destruct allEntries; [congruence | discriminate]. }
  apply finite_add; [apply finite_add|].
  - apply (fold_left_inv finite).
    + intros s t Hs. apply finite_add; [assumption|].
      apply finite_mul; [now apply calculateTFIDF_finite | apply finite_Fin].
    + apply finite_add; [assumption|].
      apply finite_mul; [|apply finite_Fin].
      apply calculateBM25_finite; [assumption|].
      now apply averageDocLength_positive.
  - apply finite_mul; [|apply finite_Fin].
    apply finite_inUnit, levenshteinSimilarity_inUnit.
  - apply finite_mul; [|apply finite_Fin]. now apply jaccard_terms_finite.
Qed.

Lemma exactMatch_finite fieldName (weight : Q) text nq (acc : Acc) :
  finite (fst acc) ->
  finite (fst (exactMatch fieldName (Fin weight) text nq acc)).
Proof.
  destruct acc as [s ms]. unfold exactMatch. intros H.
  destruct (includes text nq); [|assumption].
  apply finite_add; [assumption | apply finite_Fin].
Qed.

Lemma termMatches_finite fieldName (weight : Q) text terms :
  forall acc acc',
    termMatches fieldName (Fin weight) text terms acc = Some acc' ->
    finite (fst acc) -> finite (fst acc').
Proof.
  unfold termMatches.
  induction terms as [|t terms IH]; intros [s ms] acc'; simpl.
  - now intros [= <-].
  - destruct (includes text t); [|apply IH].
    destruct (allOccurrences text t) as [ps|]; [|discriminate]. simpl.
    intros H Hs. apply IH in H; [exact H|].
    apply finite_add; [assumption | apply finite_Fin].
Qed.

Lemma keywordMatches_finite nq queryTerms kws (s : num) :
  finite s -> finite (keywordMatches nq queryTerms kws s).
Proof.
  unfold keywordMatches. apply fold_left_inv. clear s. intros s kw Hs.
  apply fold_left_inv.
  - intros s' t Hs'. destruct (_ >? _)%num; [|assumption].
    apply finite_add; [assumption|]. apply finite_mul; [|apply finite_Fin].
    apply finite_inUnit, levenshteinSimilarity_inUnit.
  - apply fold_left_inv.
    + intros s' t Hs'. destruct (includes _ t); [|assumption].
      apply finite_add; [assumption | apply finite_Fin].
    + destruct (String.eqb _ _);
        [apply finite_add; [assumption | apply finite_Fin]|].
      destruct (includes _ _); [|assumption].
      apply finite_add; [assumption | apply finite_Fin].
Qed.

Lemma statisticalScore_finite queryTerms allEntries e (s : num) :
  allEntries <> [] -> queryTerms <> [] -> finite s ->
  finite (statisticalScore ln queryTerms allEntries e s).
Proof.
  intros Hne Hq Hs. unfold statisticalScore.
  assert (Hdocs : map documentOf allEntries <> []).
  { destruct allEntries; [congruence | discriminate]. }
  apply finite_add.
  - apply fold_left_inv; [|assumption].
    intros s' t Hs'. apply finite_add; [assumption|].
    apply finite_mul; [now apply calculateTFIDF_finite | apply finite_Fin].
  - apply finite_mul; [|apply finite_Fin]. now apply jaccard_terms_finite.
Qed.

Lemma scoreEntry_finite nq queryTerms expandedTerms allEntries e r :
  allEntries <> [] -> queryTerms <> [] ->
  scoreEntry ln nq queryTerms expandedTerms allEntries e = Some r ->
  finite (score r).
Proof.
  intros Hne Hq. unfold scoreEntry, titleTerms, contentTerms.
  set (a0 := exactMatch "title" _ _ _ _).
  assert (H0 : finite (fst a0))
    by (apply exactMatch_finite; apply finite_Fin).
  destruct (termMatches "title" _ _ queryTerms a0) as [a1|] eqn:E1;
    [|discriminate].
  apply termMatches_finite in E1; [|exact H0]. simpl.
  destruct (termMatches "title" _ _ expandedTerms a1) as [a2|] eqn:E2;
    [|discriminate].
  apply termMatches_finite in E2; [|exact E1]. simpl.
  set (a3 := exactMatch "content" _ _ _ a2).
  assert (H3 : finite (fst a3)) by now apply exactMatch_finite.
  destruct (termMatches "content" _ _ queryTerms a3) as [a4|] eqn:E4;
    [|discriminate].
  apply termMatches_finite in E4; [|exact H3]. simpl.
  destruct (termMatches "content" _ _ expandedTerms a4) as [a5|] eqn:E5;
    [|discriminate].
  apply termMatches_finite in E5; [|exact E4]. simpl.
  intros [= <-]. destruct a5 as [s ms]. simpl.
  apply statisticalScore_finite; try assumption.
  now apply keywordMatches_finite.
Qed.

(** X19.  When the collection has an entry and the query a token longer
    than two characters, the second pass turns finite scores into finite
    scores, and its output is in descending order of the new score. *)
Theorem rankResults_sorted (query : string) (results : list SearchResult)
  (allEntries : list KnowledgeEntry) :
  allEntries <> [] -> tokenize query <> [] ->
  Forall (fun r => finite (score r)) results ->
  Forall (fun r => finite (score r))
         (rankResults ln query results allEntries)
  /\ descending (rankResults ln query results allEntries).
Proof.
  intros Hne Hq Hres.
  assert (HF : Forall (fun r => finite (score r))
                 (rankResults ln query results allEntries)).
  { apply Forall_forall. intros r Hr.
    apply (Permutation_in _ (rankResults_perm _ _ _ _)) in Hr.
    apply in_map_iff in Hr as [r0 [<- Hr0]].
    apply rescore_finite; try assumption.
    rewrite Forall_forall in Hres. now apply Hres. }
  split; [exact HF|].
  unfold rankResults in *. destruct results as [|r0 results]; [constructor|].
  cbn [List.length Nat.eqb] in *. apply sort_descending.
  apply Forall_forall. intros r Hr.
  apply (Permutation_in _ (Permutation_sym (sort_perm byScoreDesc _))) in Hr.
  rewrite Forall_forall in HF. now apply finite_scored, HF.
Qed.

(** X20.  Every score that the search returns is a finite number, and
    the results are in descending order of score. *)
Theorem searchKnowledgeBase_sorted (query : string)
  (allEntries : list KnowledgeEntry) (settings : Settings)
  (results : list SearchResult) :
  searchKnowledgeBase ln query allEntries settings = Some results ->
  Forall (fun r => finite (score r)) results /\ descending results.
Proof.
  intros H.
  destruct (searchKnowledgeBase_structure ln query allEntries)
    as [H0|(Hne & scored & HF & H1)].
  - rewrite H0 in H. injection H as <-. split; constructor.
  - rewrite H1 in H. injection H as <-.
    assert (Hlow : toLowerCase (trim (toLowerCase query))
                   = trim (toLowerCase query)).
    { now rewrite toLowerCase_trim, toLowerCase_idem. }
    assert (Hq : tokenize (trim (toLowerCase query)) <> []).
    { unfold tokenize. now rewrite Hlow. }
    assert (Hfin : Forall (fun r => finite (score r))
                     (pipelineOutput ln query allEntries settings scored)).
    { apply Forall_forall. intros r Hr.
      apply pipelineOutput_In in Hr as (r0 & Hr0 & _ & ->).
      destruct (Forall2_In_r _ _ _ _ HF Hr0) as (e & He & Hs).
      assert (Hes : allEntries <> []) by (intros ->; contradiction).
      apply rescore_finite; try assumption.
      exact (scoreEntry_finite _ _ _ _ _ _ Hes Hne Hs). }
    split; [exact Hfin|].
    unfold pipelineOutput, rankResults in *.
    destruct (slice0 _ _) as [|r0 input]; [constructor|].
    cbn [List.length Nat.eqb] in *. apply sort_descending.
    apply Forall_forall. intros r Hr.
    apply (Permutation_in _ (Permutation_sym (sort_perm byScoreDesc _))) in Hr.
    rewrite Forall_forall in Hfin. now apply finite_scored, Hfin.
Qed.

End FiniteScores.

(** ** Sorting by a numeric key *)

Lemma sort_insert_key_descending {A} (key : A -> num) (x : A) (l : list A) :
  is_nan (key x) = false ->
  Forall (fun y => is_nan (key y) = false) l ->
  StronglySorted (fun a b => (key a >=? key b)%num = true) l ->
  StronglySorted (fun a b => (key a >=? key b)%num = true)
                 (sort_insert (fun a b => (key b - key a)%num) x l).
Proof.
  intros Hx Hl Hs. induction Hs as [|y l Hs IH Hy]; cbn [sort_insert].
  - repeat constructor.
  - inversion Hl as [|? ? Hy' Hl']; subst.
    destruct (key y - key x >? Fin 0)%num eqn:E.
    + constructor; [now apply IH|].
      apply Forall_forall. intros z Hz.
      apply (Permutation_in _ (sort_insert_perm _ x l)) in Hz.
      destruct Hz as [<-|Hz]; [now apply positive_difference|].
      rewrite Forall_forall in Hy. now apply Hy.
    + pose proof (no_positive_difference _ _ Hx Hy' E) as Hxy.
      constructor; [now constructor|].
      constructor; [assumption|].
      apply Forall_forall. intros z Hz. rewrite Forall_forall in Hy.
      eapply ge_trans; [exact Hxy | now apply Hy].
Qed.

Lemma sort_key_descending {A} (key : A -> num) (l : list A) :
  Forall (fun y => is_nan (key y) = false) l ->
  StronglySorted (fun a b => (key a >=? key b)%num = true)
                 (sort (fun a b => (key b - key a)%num) l).
Proof.
  induction l as [|x l IH]; intros H; simpl; [constructor|].
  inversion H as [|? ? Hx Hl]; subst.
  apply sort_insert_key_descending; auto.
  apply Forall_forall. intros z Hz.
  apply (Permutation_in _ (sort_perm _ l)) in Hz.
  rewrite Forall_forall in Hl. now apply Hl.
Qed.

Lemma StronglySorted_firstn {A} (R : A -> A -> Prop) (n : nat) (l : list A) :
  StronglySorted R l -> StronglySorted R (firstn n l).
Proof.
  revert l. induction n as [|n IH]; intros l H; [constructor|].
  destruct l as [|x l]; [constructor|].
  inversion H as [|? ? Hs Hx]; subst. simpl. constructor; [now apply IH|].
  apply Forall_forall. intros y Hy. apply In_firstn in Hy.
  rewrite Forall_forall in Hx. now apply Hx.
Qed.

Lemma StronglySorted_slice0 {A} (R : A -> A -> Prop) (k : num) (l : list A) :
  StronglySorted R l -> StronglySorted R (slice0 l k).
Proof.
  intros H. destruct (slice0_firstn l k) as [n ->].
  now apply StronglySorted_firstn.
Qed.

Lemma StronglySorted_map {A B} (f : A -> B) (R : A -> A -> Prop)
  (S : B -> B -> Prop) (l : list A) :
  (forall a b, In a l -> In b l -> R a b -> S (f a) (f b)) ->
  StronglySorted R l -> StronglySorted S (map f l).
Proof.
  intros HRS H. induction H as [|x l Hs IH Hx]; simpl; constructor.
  - apply IH. intros a b Ha Hb. apply HRS; now right.
  - apply Forall_forall. intros y Hy. apply in_map_iff in Hy as [z [<- Hz]].
    rewrite Forall_forall in Hx. apply HRS; [now left | now right | auto].
Qed.

Lemma ge_of_nat (a b : nat) : (of_nat a >=? of_nat b)%num = true <-> b <= a.
Proof.
  unfold ge, of_nat, of_Z. rewrite le_Fin, <- Zle_Qle. lia.
Qed.

(** ** The keyword search of the database *)

Lemma fold_bonus_positive {A} (c : A -> bool) (w : nat) (l : list A) :
  0 < w ->
  forall s0,
    0 < fold_left (fun s k => if c k then s + w else s) l s0
    <-> 0 < s0 \/ exists k, In k l /\ c k = true.
Proof.
  intros Hw. induction l as [|k l IH]; intros s0; simpl.
  - split; [auto | intros [H|[k [[] _]]]; exact H].
  - rewrite IH. split.
    + intros [H|[k' [Hk' Hc]]]; [|right; eauto].
      destruct (c k) eqn:E; [right; eauto | now left].
    + intros [H|[k' [[<-|Hk'] Hc]]].
      * left. destruct (c k); lia.
      * left. rewrite Hc. lia.
      * right. eauto.
Qed.

Lemma entryScore_positive (query : string) (e : KnowledgeEntry) :
  0 < Database.entryScore query (Database.queryKeywords query) e
  <-> mentions query e.
Proof.
  unfold Database.entryScore, mentions. cbv zeta.
  set (kws := Database.queryKeywords query).
  set (ET := includes (toLowerCase (title e)) (toLowerCase query)).
  set (EC := includes (toLowerCase (content e)) (toLowerCase query)).
  set (s2 := fold_left
               (fun score keyword =>
                  if includes (toLowerCase (title e)) keyword
                  then score + 3 else score)
               kws (if ET then 0 + 10 else 0)).
  assert (H2 : 0 < s2
               <-> ET = true
                   \/ exists k,
                        In k kws
                        /\ includes (toLowerCase (title e)) k = true).
  { unfold s2. rewrite fold_bonus_positive by lia.
    destruct ET; split; auto; intros [H|H]; auto; try lia; try discriminate. }
  set (s3 := if EC then s2 + 5 else s2).
  assert (H3 : 0 < s3 <-> EC = true \/ 0 < s2).
  { unfold s3. destruct EC; split; auto; intros [H|H]; auto; try lia;
      try discriminate. }
  rewrite !fold_bonus_positive by lia. fold s3. rewrite H3, H2.
  split.
  - intros [[[H|[H|[k [Hk Hc]]]]|[k [Hk Hc]]]|[k [Hk Hc]]]; auto.
    + do 2 right. exists k. auto.
    + do 2 right. exists k. auto.
    + do 2 right. exists k. split; [assumption|]. do 2 right.
      apply existsb_exists in Hc as [k' [Hk' Hc]]. eauto.
  - intros [H|[H|[k [Hk [Hc|[Hc|[k' [Hk' Hc]]]]]]]]; auto.
    + left. left. right. right. eauto.
    + left. right. eauto.
    + right. exists k. split; [assumption|].
      apply existsb_exists. eauto.
Qed.

(** The scored items of [searchKnowledgeBase] that pass the filter, in
    the order in which they are returned. *)
Lemma database_sorted_items (query : string) (allEntries : list KnowledgeEntry) :
  let items :=
    sort Database.byScoreDesc
      (filter (fun item => 0 <? snd item)
         (map (fun entry =>
                 (entry,
                  Database.entryScore query (Database.queryKeywords query)
                    entry))
              allEntries)) in
  Forall
    (fun item =>
       In (fst item) allEntries
       /\ snd item
          = Database.entryScore query (Database.queryKeywords query) (fst item)
       /\ 0 < snd item)
    items
  /\ StronglySorted (fun a b => snd b <= snd a) items.
Proof.
  intros items. split.
  - apply Forall_forall. intros item Hitem. unfold items in Hitem.
    apply (Permutation_in _ (sort_perm _ _)) in Hitem.
    apply filter_In in Hitem as [Hin Hpos].
    apply in_map_iff in Hin as [e [<- He]]. simpl in *.
    apply Nat.ltb_lt in Hpos. auto.
  - unfold items, Database.byScoreDesc.
    pose proof (sort_key_descending
                  (fun item : KnowledgeEntry * nat => of_nat (snd item))
                  (filter (fun item => 0 <? snd item)
                     (map (fun entry =>
                             (entry,
                              Database.entryScore query
                                (Database.queryKeywords query) entry))
                          allEntries))) as H.
    cbv beta in H.
    eapply StronglySorted_ind with (P := fun l => StronglySorted _ l);
      [constructor | | apply H].
    + intros a l _ IH Ha. constructor; [exact IH|].
      eapply Forall_impl; [|exact Ha]. intros b Hb. now apply ge_of_nat.
    + apply Forall_forall. reflexivity.
Qed.

(** X21.  The keyword search returns entries of the collection, each at
    most as often as it occurs there; every returned entry mentions the
    query or one of its keywords, and the entries come in descending
    order of score.  A query of white space gives no result. *)
Theorem database_search_results (query : string) (limit : num)
  (allEntries : list KnowledgeEntry) :
  let results := Database.searchKnowledgeBase query limit allEntries in
  (exists others, Permutation (results ++ others) allEntries)
  /\ Forall (mentions query) results
  /\ byDatabaseScore query results
  /\ (if allSpace query then results = [] else True).
Proof.
  intros results. unfold results, Database.searchKnowledgeBase.
  destruct (allSpace query) eqn:Eblank.
  { rewrite trim_allSpace by assumption. simpl.
    repeat split; try constructor. exists allEntries. reflexivity. }
  destruct (String.eqb (trim query) "").
  { repeat split; try constructor. exists allEntries. reflexivity. }
  destruct (database_sorted_items query allEntries) as [Hall Hsorted].
  set (score := Database.entryScore query (Database.queryKeywords query)) in *.
  set (scored := map (fun entry => (entry, score entry)) allEntries) in *.
  set (items := sort Database.byScoreDesc
                  (filter (fun item => 0 <? snd item) scored)) in *.
  split; [|split; [|split; [|exact I]]].
  - destruct (slice0_firstn items limit) as [n ->].
    exists (map fst (skipn n items)
            ++ map fst (filter (fun item => negb (0 <? snd item)) scored)).
    rewrite app_assoc, <- map_app, firstn_skipn, <- map_app.
    assert (E : map fst scored = allEntries).
    { unfold scored. rewrite map_map. apply map_id. }
    rewrite <- E. apply Permutation_map.
    eapply Permutation_trans; [|apply (filter_complement
                                         (fun item => 0 <? snd item))].
    apply Permutation_app_tail, sort_perm.
  - apply Forall_forall. intros e He. apply in_map_iff in He as [item [<- Hi]].
    apply In_slice0 in Hi. rewrite Forall_forall in Hall.
    destruct (Hall item Hi) as (_ & Hs & Hpos).
    apply entryScore_positive. fold score. lia.
  - unfold byDatabaseScore. fold score.
    apply (StronglySorted_map fst (fun a b => snd b <= snd a)).
    + intros a b Ha Hb Hab. apply In_slice0 in Ha, Hb.
      rewrite Forall_forall in Hall.
      destruct (Hall a Ha) as (_ & <- & _).
      destruct (Hall b Hb) as (_ & <- & _). exact Hab.
    + now apply StronglySorted_slice0.
Qed.

(** X22.  With a limit that is not negative the keyword search returns
    at most [limit] entries; with a limit of at least the size of the
    collection it returns every entry that mentions the query or one of
    its keywords, unless the query is blank. *)
Theorem database_search_limit (query : string) (limit : num)
  (allEntries : list KnowledgeEntry) :
  (Fin 0 <=? limit)%num = true ->
  let results := Database.searchKnowledgeBase query limit allEntries in
  (of_nat (List.length results) <=? limit)%num = true
  /\ ((of_nat (List.length allEntries) <=? limit)%num = true ->
      trim query <> EmptyString ->
      forall e, In e allEntries -> mentions query e -> In e results).
Proof.
  intros Hlimit results. unfold results, Database.searchKnowledgeBase. split.
  - destruct (String.eqb (trim query) ""); [exact Hlimit|].
    rewrite length_map. now apply slice0_length_cap.
  - intros Hbig Hq e He Hm.
    destruct (string_eqb_spec (trim query) ""); [contradiction|].
    set (items := sort Database.byScoreDesc _).
    assert (Hall : slice0 items limit = items).
    { assert (Hlen : List.length items <= List.length allEntries).
      { unfold items. rewrite sort_length.
        etransitivity; [apply List.filter_length_le|]. now rewrite length_map. }
      unfold slice0. destruct limit as [| |q|]; try discriminate;
        [|reflexivity].
      apply le_Fin in Hbig, Hlimit.
      assert (Hq0 : (0 <= Qtrunc q)%Z).
      { unfold Qtrunc. apply Z.quot_pos; [|lia].
        unfold Qle in Hlimit. simpl in Hlimit. lia. }
      destruct (Z.ltb_spec (Qtrunc q) 0); [lia|].
      apply firstn_all2.
      assert (Hqn : (Z.of_nat (List.length allEntries) <= Qtrunc q)%Z).
      { unfold Qtrunc. apply Z.quot_le_lower_bound; [lia|].
        unfold of_nat, of_Z, Qle in Hbig. simpl in Hbig. lia. }
      lia. }
    rewrite Hall. apply in_map_iff.
    exists (e, Database.entryScore query (Database.queryKeywords query) e).
    split; [reflexivity|]. unfold items.
    apply (Permutation_in _ (Permutation_sym (sort_perm _ _))).
    apply filter_In. split.
    + apply in_map_iff. eauto.
    + simpl. apply Nat.ltb_lt. now apply entryScore_positive.
Qed.

(** ** The contextual memory *)

Lemma pair_induction {A} (P : list A -> Prop) :
  P [] -> (forall a, P [a]) -> (forall a b l, P l -> P (a :: b :: l)) ->
  forall l, P l.
Proof.
  intros H0 H1 H2 l.
  assert (H : P l /\ forall a, P (a :: l)).
  { induction l as [|b l [IH IH']]; [now split|].
    split; [apply IH'|]. intros a. now apply H2. }
  apply H.
Qed.

Lemma relevantExchanges_spec (currentQuery : string)
  (history : list Chat.Message) (x : Chat.Exchange) :
  In x (relevantExchanges currentQuery history) ->
  exchangeOf history x
  /\ Chat.relevance x = neuralTextSimilarity currentQuery (Chat.query x)
  /\ (Chat.relevance x >? Fin (3 # 10))%num = true.
Proof.
  induction history as [|a|m m' rest IH] using pair_induction;
    cbn [relevantExchanges]; try contradiction.
  intros H. apply in_app_or in H as [H|H].
  - destruct (string_eqb_spec (Chat.role m) "user") as [Hu|];
      [|contradiction].
    destruct (string_eqb_spec (Chat.role m') "assistant") as [Ha|];
      [|contradiction].
    cbn [andb] in H.
    destruct (neuralTextSimilarity currentQuery (Chat.content m)
              >? Fin (3 # 10))%num eqn:E; [|contradiction].
    destruct H as [<-|[]]. cbn [Chat.relevance Chat.query].
    split; [|now split].
    exists 0, m, m'. repeat split; assumption.
  - destruct (IH H) as [(i & u & v & Hu & Hv & Hrest) Hrel].
    split; [|exact Hrel].
    exists (S i), u, v. split; [|split; [|exact Hrest]].
    + replace (2 * S i) with (S (S (2 * i))) by lia. exact Hu.
    + replace (2 * S i + 1) with (S (S (2 * i + 1))) by lia. exact Hv.
Qed.

Lemma gt_not_nan (a b : num) : (a >? b)%num = true -> is_nan a = false.
Proof. now destruct a, b. Qed.

(** X23.  The contextual memory holds at most three exchanges; each is
    a message of the user followed by the answer of the assistant, the
    pair starting at an even position of the history, with the
    similarity of its query to the current query as relevance, which is
    above 0.3; the exchanges come in descending order of relevance.  A
    history of fewer than four messages gives no exchange. *)
Theorem retrieveContextualMemory_exchanges (currentQuery : string)
  (history : list Chat.Message) :
  let memory := retrieveContextualMemory currentQuery history in
  List.length memory <= 3
  /\ Forall
       (fun x =>
          exchangeOf history x
          /\ Chat.relevance x
             = neuralTextSimilarity currentQuery (Chat.query x)
          /\ (Chat.relevance x >? Fin (3 # 10))%num = true)
       memory
  /\ StronglySorted
       (fun a b => (Chat.relevance a >=? Chat.relevance b)%num = true)
       memory
  /\ (if List.length history <? 4 then memory = [] else True).
Proof.
  intros memory. unfold memory, retrieveContextualMemory.
  destruct (List.length history <? 4).
  { repeat split; try constructor. simpl. lia. }
  change (Fin 3) with (of_nat 3). rewrite slice0_of_nat.
  assert (Hall : forall x,
             In x (sort byRelevanceDesc
                     (relevantExchanges currentQuery history)) ->
             exchangeOf history x
             /\ Chat.relevance x
                = neuralTextSimilarity currentQuery (Chat.query x)
             /\ (Chat.relevance x >? Fin (3 # 10))%num = true).
  { intros x Hx. apply (Permutation_in _ (sort_perm _ _)) in Hx.
    now apply relevantExchanges_spec in Hx. }
  split; [|split; [|split; [|exact I]]].
  - rewrite length_firstn. lia.
  - apply Forall_forall. intros x Hx. apply Hall. now apply In_firstn in Hx.
  - apply StronglySorted_firstn.
    apply (sort_key_descending Chat.relevance).
    apply Forall_forall. intros x Hx.
    apply relevantExchanges_spec in Hx as (_ & _ & Hx).
    now apply gt_not_nan in Hx.
Qed.

(** ** Substrings *)

Lemma take_length (n : nat) (s : string) :
  String.length (take n s) = Nat.min n (String.length s).
Proof.
  revert s. induction n as [|n IH]; intros [|c s]; simpl; auto.
Qed.

Lemma take_all (n : nat) (s : string) : String.length s <= n -> take n s = s.
Proof.
  revert s. induction n as [|n IH]; intros [|c s]; simpl; auto; [lia|].
  intros H. f_equal. apply IH. lia.
Qed.

Lemma take_drop (n : nat) (s : string) : (take n s ++ drop n s)%string = s.
Proof.
  revert s. induction n as [|n IH]; intros [|c s]; simpl; auto.
  now rewrite IH.
Qed.

Lemma take_app (n : nat) (s t : string) :
  n <= String.length s -> take n (s ++ t) = take n s.
Proof.
  revert s. induction n as [|n IH]; intros [|c s]; simpl; auto; [lia|].
  intros H. f_equal. apply IH. lia.
Qed.

Lemma drop_app (n : nat) (s t : string) :
  n <= String.length s -> drop n (s ++ t) = (drop n s ++ t)%string.
Proof.
  revert s. induction n as [|n IH]; intros [|c s]; simpl; auto; [lia|].
  intros H. apply IH. lia.
Qed.

Lemma take_take (n m : nat) (s : string) :
  n <= m -> take n (take m s) = take n s.
Proof.
  revert m s. induction n as [|n IH]; intros [|m] [|c s] H; simpl; auto;
    [lia|].
  f_equal. apply IH. lia.
Qed.

Lemma drop_take (n m : nat) (s : string) :
  drop n (take m s) = take (m - n) (drop n s).
Proof.
  revert m s. induction n as [|n IH]; intros m s.
  - simpl. now rewrite Nat.sub_0_r.
  - destruct m as [|m], s as [|c s]; simpl; auto.
    now destruct (m - n).
Qed.

Lemma take_split (a b : nat) (s : string) :
  a <= b -> take b s = (take a s ++ take (b - a) (drop a s))%string.
Proof.
  intros H. rewrite <- drop_take.
  rewrite <- (take_take a b s H) at 1. now rewrite take_drop.
Qed.

(** [substring] between two ordered indices, in terms of the clamped
    indices. *)
Lemma substring_ordered (s : string) (a b : Z) :
  (a <= b)%Z ->
  substring s a b
  = take (clampIndex s b - clampIndex s a) (drop (clampIndex s a) s).
Proof.
  intros H. unfold substring. cbv zeta.
  assert (clampIndex s a <= clampIndex s b) by (unfold clampIndex; lia).
  now rewrite Nat.max_r, Nat.min_l by assumption.
Qed.

Lemma clampIndex_le (s : string) (a : Z) : clampIndex s a <= String.length s.
Proof. unfold clampIndex, len. lia. Qed.

Lemma clampIndex_in (s : string) (a : Z) :
  (0 <= a <= len s)%Z -> clampIndex s a = Z.to_nat a.
Proof. unfold clampIndex. intros H. f_equal. lia. Qed.

Lemma clampIndex_len (s : string) : clampIndex s (len s) = String.length s.
Proof. unfold clampIndex, len. lia. Qed.

Lemma substringFrom_drop (s : string) (a : Z) :
  substringFrom s a = drop (clampIndex s a) s.
Proof.
  unfold substringFrom.
  destruct (Z.le_gt_cases a (len s)) as [H|H].
  - rewrite substring_ordered by assumption. rewrite clampIndex_len.
    apply take_all. rewrite drop_length. lia.
  - unfold substring. cbv zeta. rewrite clampIndex_len.
    assert (E : clampIndex s a = String.length s)
      by (unfold clampIndex, len in *; lia).
    rewrite E, Nat.max_id, Nat.min_id, Nat.sub_diag. simpl.
    symmetry. rewrite <- (take_drop (String.length s) s) at 1.
    rewrite take_all by lia.
    clear. induction s as [|c s IH]; simpl; auto.
Qed.

(** A substring between ordered indices is cut in two at any index
    between them. *)
Lemma substring_split (s : string) (a b c : Z) :
  (a <= b <= c)%Z ->
  substring s a c = (substring s a b ++ substring s b c)%string.
Proof.
  intros H. rewrite !substring_ordered by lia.
  assert (clampIndex s a <= clampIndex s b <= clampIndex s c)
    by (unfold clampIndex; lia).
  rewrite (take_split (clampIndex s b - clampIndex s a)
             (clampIndex s c - clampIndex s a)) by lia.
  rewrite drop_drop.
  replace (clampIndex s c - clampIndex s a
           - (clampIndex s b - clampIndex s a))
    with (clampIndex s c - clampIndex s b) by lia.
  replace (clampIndex s a + (clampIndex s b - clampIndex s a))
    with (clampIndex s b) by lia.
  reflexivity.
Qed.

Lemma substring_whole (s : string) : substring s 0 (len s) = s.
Proof.
  rewrite substring_ordered by (unfold len; lia).
  rewrite clampIndex_len. unfold clampIndex. simpl.
  rewrite Z.min_l by (unfold len; lia). simpl. apply take_all. lia.
Qed.

Lemma substring_length (s : string) (a b : Z) :
  (a <= b)%Z ->
  String.length (substring s a b) = clampIndex s b - clampIndex s a.
Proof.
  intros H. rewrite substring_ordered by assumption.
  rewrite take_length, drop_length.
  pose proof (clampIndex_le s b). lia.
Qed.

(** ** Highlighting *)

(** With [start <= end], [insertMark] cuts the text in three and puts
    the two tags between the parts. *)
Lemma insertMark_parts (result : string) (a b : Z) :
  (a <= b)%Z ->
  (substring result 0 a ++ substring result a b ++ substringFrom result b)%string
  = result.
Proof.
  intros H. rewrite substringFrom_drop.
  destruct (Z.le_gt_cases 0 a) as [H0|H0].
  - rewrite <- append_assoc, <- substring_split by lia.
    rewrite substring_ordered by lia.
    replace (clampIndex result 0) with 0 by (unfold clampIndex; lia).
    rewrite Nat.sub_0_r. simpl. apply take_drop.
  - assert (Ea : clampIndex result a = 0) by (unfold clampIndex; lia).
    unfold substring at 1. cbv zeta. rewrite Ea.
    replace (clampIndex result 0) with 0 by (unfold clampIndex; lia).
    simpl. rewrite substring_ordered by lia. rewrite Ea, Nat.sub_0_r.
    simpl. apply take_drop.
Qed.

Lemma insertMark_length (result : string) (p : Z * Z) :
  (fst p <= snd p)%Z ->
  String.length (insertMark result p)
  = String.length result + String.length markOpen + String.length markClose.
Proof.
  destruct p as [a b]. simpl fst. simpl snd. intros H.
  unfold insertMark. rewrite !append_length.
  rewrite <- (insertMark_parts result a b H) at 4.
  rewrite !append_length. lia.
Qed.

Lemma fold_insertMark_length (ps : list (Z * Z)) :
  Forall (fun p => (fst p <= snd p)%Z) ps ->
  forall text,
    String.length (fold_left insertMark ps text)
    = String.length text
      + List.length ps * (String.length markOpen + String.length markClose).
Proof.
  induction 1 as [|p ps Hp _ IH]; intros text; cbn [fold_left List.length];
    [lia|].
  rewrite IH, insertMark_length by assumption.
  generalize (String.length markOpen), (String.length markClose).
  intros o c. lia.
Qed.

Lemma sort_insert_last {A} (comparefn : A -> A -> num) (x : A) (l : list A) :
  Forall (fun y => (comparefn x y >? Fin 0)%num = true) l ->
  sort_insert comparefn x l = l ++ [x].
Proof.
  induction 1 as [|y l Hy _ IH]; cbn [sort_insert]; [reflexivity|].
  rewrite Hy, IH. reflexivity.
Qed.

Lemma byStartDesc_positive (a b : Z * Z) :
  (fst a < fst b)%Z -> (byStartDesc a b >? Fin 0)%num = true.
Proof.
  intros H. unfold byStartDesc, gt, of_Z. cbn [sub].
  apply lt_Fin. rewrite Qred_correct.
  unfold Qminus, Qlt. simpl. lia.
Qed.

Lemma ascending_sort (text : string) (ps : list (Z * Z)) :
  Forall (spanIn text) ps ->
  forall lo,
    ascendingFrom lo ps ->
    sort byStartDesc ps = rev ps /\ Forall (fun p => (lo <= fst p)%Z) ps.
Proof.
  induction 1 as [|p ps Hp _ IH]; intros lo Hasc; [now split|].
  destruct Hasc as [[Hlo _] Hrest].
  destruct (IH _ Hrest) as [Hsort Hfrom].
  destruct Hp as (_ & Hlt & _). split.
  - simpl. rewrite Hsort. apply sort_insert_last.
    apply Forall_rev. revert Hfrom. apply Forall_impl.
    intros q Hq. apply byStartDesc_positive. lia.
  - constructor; [assumption|]. revert Hfrom. apply Forall_impl.
    intros q Hq. lia.
Qed.

(** Marking from the last span to the first leaves the text before the
    spans as it is. *)
Lemma fold_insertMark_marked (text : string) (ps : list (Z * Z)) :
  Forall (spanIn text) ps ->
  forall lo,
    (0 <= lo <= len text)%Z ->
    ascendingFrom lo ps ->
    fold_right (fun p result => insertMark result p) text ps
    = (take (Z.to_nat lo) text ++ markedFrom text lo ps)%string.
Proof.
  induction 1 as [|[a b] ps Hp _ IH]; intros lo Hlo Hasc.
  - simpl. rewrite substringFrom_drop, clampIndex_in by assumption.
    now rewrite take_drop.
  - destruct Hasc as [[Hloa _] Hrest]. destruct Hp as (Ha & Hab & Hb).
    simpl in Ha, Hab, Hb, Hloa, Hrest.
    cbn [fold_right markedFrom fst snd].
    rewrite (IH b) by (assumption || lia).
    set (R := markedFrom text b ps).
    set (r := (take (Z.to_nat b) text ++ R)%string).
    assert (HB : String.length (take (Z.to_nat b) text) = Z.to_nat b).
    { rewrite take_length. unfold len in Hb. lia. }
    assert (Hr : (len r = Z.of_nat (Z.to_nat b + String.length R))%Z).
    { unfold len, r. now rewrite append_length, HB. }
    assert (Ca : clampIndex r a = Z.to_nat a)
      by (apply clampIndex_in; lia).
    assert (Cb : clampIndex r b = Z.to_nat b)
      by (apply clampIndex_in; lia).
    assert (C0 : clampIndex r 0 = 0) by (apply clampIndex_in; lia).
    unfold insertMark.
    assert (E1 : substring r 0 a = take (Z.to_nat a) text).
    { rewrite substring_ordered, C0, Ca by lia. rewrite Nat.sub_0_r. simpl.
      unfold r. rewrite take_app by lia. apply take_take. lia. }
    assert (E2 : substring r a b = substring text a b).
    { rewrite !substring_ordered, Ca, Cb by lia.
      rewrite !clampIndex_in by lia.
      unfold r. rewrite drop_app by lia.
      rewrite take_app by (rewrite drop_length; lia).
      rewrite drop_take.
      apply take_take. lia. }
    assert (E3 : substringFrom r b = R).
    { rewrite substringFrom_drop, Cb. unfold r.
      rewrite drop_app by lia.
      replace (drop (Z.to_nat b) (take (Z.to_nat b) text)) with EmptyString;
        [reflexivity|].
      rewrite drop_take, Nat.sub_diag. reflexivity. }
    rewrite E1, E2, E3.
    rewrite (take_split (Z.to_nat lo) (Z.to_nat a)) by lia.
    rewrite append_assoc. do 2 f_equal.
    rewrite substring_ordered by lia.
    rewrite !clampIndex_in by lia. reflexivity.
Qed.

(** X24.  For spans inside the text that come in ascending order
    without overlap, the highlighted text is the text written from left
    to right with each span between the two tags. *)
Theorem highlightMatches_ascending (text : string) (positions : list (Z * Z)) :
  Forall (spanIn text) positions ->
  ascendingFrom 0 positions ->
  highlightMatches text positions = markedFrom text 0 positions.
Proof.
  intros Hin Hasc. unfold highlightMatches.
  destruct (Nat.eqb_spec (List.length positions) 0) as [E|_].
  - destruct positions; [|discriminate]. simpl.
    rewrite substringFrom_drop.
    replace (clampIndex text 0) with 0 by (unfold clampIndex, len; lia).
    reflexivity.
  - destruct (ascending_sort text positions Hin 0 Hasc) as [-> _].
    rewrite <- fold_left_rev_right, rev_involutive.
    rewrite (fold_insertMark_marked text positions Hin 0);
      [reflexivity | unfold len; lia | assumption].
Qed.

(** X25.  When no span ends before it starts, the highlighted text is
    longer than the text by the length of the two tags for each span,
    whatever the order of the spans and wherever they lie, also outside
    the text or over each other. *)
Theorem highlightMatches_length (text : string) (positions : list (Z * Z)) :
  Forall (fun p => (fst p <= snd p)%Z) positions ->
  String.length (highlightMatches text positions)
  = String.length text
    + List.length positions
      * (String.length markOpen + String.length markClose).
Proof.
  intros H. unfold highlightMatches.
  destruct (Nat.eqb_spec (List.length positions) 0) as [E|_].
  - rewrite E. lia.
  - rewrite fold_insertMark_length, sort_length; [reflexivity|].
    apply Forall_forall. intros p Hp.
    apply (Permutation_in _ (sort_perm _ _)) in Hp.
    rewrite Forall_forall in H. now apply H.
Qed.

(** ** The context of a match *)

(** X26.  For a span inside the text and a context size that is not
    negative, the context is the matched part of the text with at most
    [contextSize] characters of the text and an ellipsis on either side;
    when the context reaches both ends of the text it is the whole
    text. *)
Theorem getMatchContext_contains (text : string) (position : Z * Z)
  (contextSize : Z) :
  (0 <= fst position <= snd position)%Z ->
  (snd position <= len text)%Z ->
  (0 <= contextSize)%Z ->
  (exists before after,
      getMatchContext text position contextSize
      = (before ++ substring text (fst position) (snd position) ++ after)%string
      /\ (len before <= contextSize + 3)%Z
      /\ (len after <= contextSize + 3)%Z)
  /\ ((fst position <= contextSize)%Z ->
      (len text <= snd position + contextSize)%Z ->
      getMatchContext text position contextSize = text).
Proof.
  destruct position as [a b]. cbn [fst snd]. intros Hab Hb Hc.
  unfold getMatchContext.
  set (cs := Z.max 0 (a - contextSize)).
  set (ce := Z.min (len text) (b + contextSize)).
  split.
  - rewrite (substring_split text cs a ce) by (unfold cs, ce; lia).
    rewrite (substring_split text a b ce) by (unfold cs, ce; lia).
    assert (H1 : (len (substring text cs a) <= contextSize)%Z).
    { unfold len. rewrite substring_length by (unfold cs; lia).
      rewrite !clampIndex_in by (unfold cs; lia). unfold cs. lia. }
    assert (H2 : (len (substring text b ce) <= contextSize)%Z).
    { unfold len. rewrite substring_length by (unfold ce; lia).
      rewrite !clampIndex_in by (unfold ce; lia). unfold ce. lia. }
    exists ((if (0 <? cs)%Z then "..." else "")
            ++ substring text cs a)%string.
    exists (substring text b ce
            ++ (if (ce <? len text)%Z then "..." else ""))%string.
    split; [|split].
    + destruct (0 <? cs)%Z, (ce <? len text)%Z; simpl;
        rewrite ?append_assoc, ?append_empty_r; reflexivity.
    + destruct (0 <? cs)%Z; unfold len in *; rewrite append_length;
        simpl String.length; lia.
    + destruct (ce <? len text)%Z; unfold len in *; rewrite append_length;
        simpl String.length; lia.
  - intros Ha He.
    replace cs with 0%Z by (unfold cs; lia).
    replace ce with (len text) by (unfold ce; lia).
    rewrite Z.ltb_irrefl. rewrite Z.ltb_irrefl. apply substring_whole.
Qed.

(** ** The response *)

Lemma calculateSimilarity_self (text : string) :
  tokenize text <> [] ->
  (calculateSimilarity text text >? Fin (3 # 10))%num = true.
Proof.
  intros H. rewrite calculateSimilarity_blend.
  rewrite jaccardSimilarity_self by now apply of_list_nonempty.
  rewrite levenshteinSimilarity_refl.
  now destruct ((String.length text <? 100) && (String.length text <? 100))%nat.
Qed.

(** X27.  Without results the response is the fixed message that
    nothing was found.  With results it is the content of the first
    result, after the follow-up prefix or nothing and before the note
    on more information or nothing: no prefix with a history of fewer
    than three messages, no note with a single result, and the prefix
    whenever the user asks the previous question again. *)
Theorem generateResponse_parts (query : string) (results : list SearchResult)
  (history : list Chat.Message) :
  let response := generateResponse query results history in
  match results with
  | [] => response = noResultsMessage
  | topResult :: others =>
      exists prefix suffix,
        response = (prefix ++ content (entry topResult) ++ suffix)%string
        /\ (prefix = EmptyString \/ prefix = followUpPrefix)
        /\ (suffix = EmptyString \/ suffix = moreInformationNote)
        /\ (List.length history < 3 -> prefix = EmptyString)
        /\ (others = [] -> suffix = EmptyString)
        /\ (asksAgain query history -> prefix = followUpPrefix)
  end.
Proof.
  intros response. unfold response. clear response.
  destruct results as [|topResult others]; [reflexivity|].
  unfold generateResponse.
  set (n := List.length history).
  set (previous := nth_error history (n - 2)).
  set (isFollowUp :=
         (3 <=? n)
         && match previous with
            | Some m => String.eqb (Chat.role m) "user"
            | None => false
            end).
  set (similar :=
         (calculateSimilarity
            match previous with
            | Some m => Chat.content m
            | None => EmptyString
            end query >? Fin (3 # 10))%num).
  set (noted :=
         match others with
         | second :: _ =>
             (score second >? score topResult * Fin (7 # 10))%num
         | [] => false
         end).
  exists (if isFollowUp && similar then followUpPrefix else EmptyString).
  exists (if noted then moreInformationNote else EmptyString).
  split; [|split; [|split; [|split; [|split]]]].
  - unfold noted. destruct isFollowUp, similar; cbn [andb];
      destruct others as [|second rest];
      try destruct (score second >? score topResult * Fin (7 # 10))%num;
      rewrite ?append_assoc, ?append_empty_r; reflexivity.
  - destruct (isFollowUp && similar); auto.
  - destruct noted; auto.
  - intros Hn. unfold isFollowUp.
    destruct (Nat.leb_spec 3 n); [lia | reflexivity].
  - intros ->. reflexivity.
  - intros (Hn & Htokens & m & Hm & Hrole & Hcontent).
    unfold isFollowUp, similar, previous. fold n in Hn, Hm. rewrite Hm.
    destruct (Nat.leb_spec 3 n); [|lia].
    rewrite Hrole, Hcontent, calculateSimilarity_self by assumption.
    reflexivity.
Qed.

(** ** The arrays of the pipeline as objects *)

Lemma nth_error_fresh {A} (h : list A) (a : A) (rest : list A) :
  nth_error (h ++ a :: rest) (List.length h) = Some a.
Proof. induction h as [|x h IH]; simpl; auto. Qed.

Lemma upd_fresh {A} (h : list A) (a b : A) (rest : list A) :
  upd (h ++ a :: rest) (List.length h) b = h ++ b :: rest.
Proof. induction h as [|x h IH]; simpl; congruence. Qed.

Lemma nth_error_kept {A} (h extra : list A) (r : nat) (a : A) :
  nth_error h r = Some a -> nth_error (h ++ extra) r = Some a.
Proof.
  intros H. rewrite nth_error_app1; [assumption|].
  apply nth_error_Some. congruence.
Qed.

Section ObjectRuns.

Variable ln : Q -> Q.

(** A run of [rankResultsIn] on the array created last adds one array
    to the store, the one it returns, which holds the list of
    [rankResults]. *)
Lemma rankResultsIn_run (query : string) (store : Store.t)
  (allEntries : Store.ref) (entries : list KnowledgeEntry)
  (created : list Store.array) (items : list SearchResult) :
  nth_error store allEntries = Some (Store.Entries entries) ->
  let before := store ++ created in
  rankResultsIn ln query (List.length before) allEntries
    (before ++ [Store.Results items])
  = Some (S (List.length before),
          before
          ++ [Store.Results items;
              Store.Results (rankResults ln query items entries)]).
Proof.
  intros Ha before. unfold rankResultsIn, Store.bind, Store.readResults.
  rewrite nth_error_fresh. unfold rankResults.
  destruct (List.length items =? 0).
  - unfold Store.alloc. rewrite length_app, <- app_assoc. simpl.
    now rewrite Nat.add_1_r.
  - unfold Store.readEntries.
    assert (Hk : nth_error (before ++ [Store.Results items]) allEntries
                 = Some (Store.Entries entries)).
    { unfold before. rewrite <- app_assoc. now apply nth_error_kept. }
    rewrite Hk. unfold Store.alloc, Store.sortResults.
    set (mapped := Store.Results _).
    rewrite nth_error_fresh. unfold mapped. rewrite upd_fresh.
    rewrite length_app, <- app_assoc. simpl. now rewrite Nat.add_1_r.
Qed.

(** A run of the search adds arrays to the store and changes none that
    was there; the array it returns is the last one, and it holds the
    list that [searchKnowledgeBase] gives for the elements of the array
    of entries. *)
Lemma searchKnowledgeBaseIn_run (query : string) (settings : Settings)
  (store : Store.t) (allEntries : Store.ref)
  (entries : list KnowledgeEntry) :
  nth_error store allEntries = Some (Store.Entries entries) ->
  exists results created,
    searchKnowledgeBase ln query entries settings = Some results
    /\ searchKnowledgeBaseIn ln query allEntries settings store
       = Some (List.length (store ++ created),
               (store ++ created) ++ [Store.Results results]).
Proof.
  intros Ha. unfold searchKnowledgeBase, searchKnowledgeBaseIn.
  destruct (String.eqb (trim query) "").
  { exists [], []. split; [reflexivity|]. unfold Store.alloc.
    now rewrite app_nil_r. }
  unfold Store.bind at 1. unfold Store.readEntries at 1. rewrite Ha.
  destruct (Nat.eqb_spec
              (List.length (longerThan 2 (splitWs (trim (toLowerCase query)))))
              0) as [E|E].
  { exists [], []. split; [reflexivity|]. unfold Store.alloc.
    now rewrite app_nil_r. }
  assert (Hne : longerThan 2 (splitWs (trim (toLowerCase query))) <> []).
  { intros H. now rewrite H in E. }
  destruct (pipeline_terms query entries Hne) as [Hq He].
  destruct (mapM_returns
              (scoreEntry ln (trim (toLowerCase query))
                 (longerThan 2 (splitWs (trim (toLowerCase query))))
                 (filter
                    (fun term =>
                       negb (arrIncludes
                               (longerThan 2
                                  (splitWs (trim (toLowerCase query)))) term))
                    (splitWs (expandQuery (trim (toLowerCase query))
                                entries)))
                 entries)
              entries) as [scored [Hs _]].
  { intros e. now apply scoreEntry_returns. }
  rewrite Hs. cbn [bind].
  set (keep := fun item : SearchResult =>
                 (score item >? relevanceThreshold settings * Fin 10)%num).
  set (sorted := sort byScoreDesc (filter keep scored)).
  exists (rankResults ln (trim (toLowerCase query))
            (slice0 sorted (maxResults settings)) entries).
  exists [Store.Results scored; Store.Results sorted;
          Store.Results (slice0 sorted (maxResults settings))].
  split; [reflexivity|].
  unfold Store.bind, Store.lift, Store.alloc, Store.readResults,
    Store.sortResults.
  rewrite nth_error_fresh.
  rewrite nth_error_fresh, upd_fresh.
  fold keep. fold sorted.
  rewrite nth_error_fresh.
  pose proof (rankResultsIn_run (trim (toLowerCase query)) store allEntries
                entries [Store.Results scored; Store.Results sorted]
                (slice0 sorted (maxResults settings)) Ha) as Hrank.
  cbv zeta in Hrank.
  replace ((store ++ [Store.Results scored]) ++ [Store.Results sorted])
    with (store ++ [Store.Results scored; Store.Results sorted])
    by (now rewrite <- app_assoc).
  rewrite Hrank. f_equal. f_equal.
  - rewrite !length_app. simpl. lia.
  - rewrite <- !app_assoc. reflexivity.
Qed.

(** C8.  Two invocations of the search with the same query, the same
    settings and arrays of entries that hold the same elements return
    arrays that hold the same list of results, scores and match spans
    included.  Every invocation returns; the list is the one that
    [searchKnowledgeBase] gives for the query, the elements of the array
    of entries and the settings, whatever else the store holds and
    whatever arrays are created between the two invocations; and an
    invocation changes no array that was in the store before it, neither
    the array of the entries nor the array that an earlier invocation
    has returned. *)
Theorem searchKnowledgeBase_deterministic (query : string)
  (settings : Settings) (entries : list KnowledgeEntry) (store : Store.t)
  (allEntries : Store.ref) :
  nth_error store allEntries = Some (Store.Entries entries) ->
  exists results first store1,
    searchKnowledgeBase ln query entries settings = Some results
    /\ searchKnowledgeBaseIn ln query allEntries settings store
       = Some (first, store1)
    /\ nth_error store1 first = Some (Store.Results results)
    /\ (forall r a, nth_error store r = Some a -> nth_error store1 r = Some a)
    /\ forall (later : Store.t) (again : Store.ref),
         nth_error (store1 ++ later) again = Some (Store.Entries entries) ->
         exists second store2,
           searchKnowledgeBaseIn ln query again settings (store1 ++ later)
           = Some (second, store2)
           /\ nth_error store2 second = Some (Store.Results results)
           /\ nth_error store2 first = Some (Store.Results results)
           /\ forall r a,
                nth_error (store1 ++ later) r = Some a ->
                nth_error store2 r = Some a.
Proof.
  intros Ha.
  destruct (searchKnowledgeBaseIn_run query settings store allEntries entries
              Ha) as (results & created & Hpure & Hrun).
  exists results. eexists. eexists.
  split; [exact Hpure|]. split; [exact Hrun|].
  assert (H1 : nth_error ((store ++ created) ++ [Store.Results results])
                 (List.length (store ++ created))
               = Some (Store.Results results)) by apply nth_error_fresh.
  split; [exact H1|]. split.
  - intros r a Hr. rewrite <- app_assoc. now apply nth_error_kept.
  - intros later again Hagain.
    destruct (searchKnowledgeBaseIn_run query settings _ again entries Hagain)
      as (results' & created' & Hpure' & Hrun').
    rewrite Hpure in Hpure'. injection Hpure' as <-.
    eexists. eexists. split; [exact Hrun'|].
    split; [apply nth_error_fresh|].
    split; [do 3 apply nth_error_kept; exact H1|].
    intros r a Hr. do 2 apply nth_error_kept. exact Hr.
Qed.

End ObjectRuns.

(** ** The further theorems at sample inputs *)

Module Instances.

Import Sample.
Local Open Scope string_scope.

Lemma allOccurrences_spans_witness :
  allOccurrences "ballistic weave armor weave" "weave"
  = Some [(10, 15); (22, 27)]%Z
  /\ ascendingFrom 0 [(10, 15); (22, 27)]%Z
  /\ Forall (spanIn "ballistic weave armor weave") [(10, 15); (22, 27)]%Z.
Proof.
  assert (H : allOccurrences "ballistic weave armor weave" "weave"
              = Some [(10, 15); (22, 27)]%Z) by reflexivity.
  split; [exact H|].
  destruct (allOccurrences_spans _ _ _ H) as (_ & Hasc & Hall & _).
  split; [exact Hasc|].
  revert Hall. apply Forall_impl. intros p Hp. exact (proj1 Hp).
Defined.

Lemma calculateTF_zero_iff_absent_witness :
  "weave" <> ""
  /\ exists q,
       calculateTF "weave" "Ballistic Weave" = Fin q
       /\ (0 <= q)%Q
       /\ ((q == 0)%Q
           <-> includes (toLowerCase "Ballistic Weave") (toLowerCase "weave")
               = false).
Proof.
  assert (H : "weave" <> "") by discriminate.
  split; [exact H|].
  exact (calculateTF_zero_iff_absent "weave" "Ballistic Weave" H).
Defined.

Lemma expandQuery_added_terms_witness :
  let entries :=
    [mkEntry "e" "m" "weave armor" "weaves armors weaver armory" []
       None None] in
  let similar := similarEnough "weave armor" in
  finalTerms "weave armor" entries
  = finalTermsWhen similar closeEnough "weave armor" entries
  /\ In "weaves" (finalTerms "weave armor" entries)
  /\ (In "weaves" (tokenize "weave armor")
      \/ expansionWhen similar closeEnough "weave armor" entries "weaves").
Proof.
  intros entries similar.
  assert (H : In "weaves" (finalTerms "weave armor" entries)).
  { vm_compute. auto. }
  split; [reflexivity|]. split; [exact H|].
  exact (expandQuery_added_terms similar closeEnough "weave armor" entries
           "weaves" H).
Defined.

Lemma searchKnowledgeBase_spans_in_range_witness :
  exists results,
    searchKnowledgeBase ln "ballistic weave" [ballistic; enb] defaults
    = Some results
    /\ Forall
         (fun r =>
            In (entry r) [ballistic; enb]
            /\ exists ms,
                 matches r = Some ms /\ Forall (recordIn (entry r)) ms)
         results.
Proof.
  destruct (searchKnowledgeBase ln "ballistic weave" [ballistic; enb]
              defaults) as [results|] eqn:H.
  - exists results. split; [reflexivity|].
    exact (searchKnowledgeBase_spans_in_range
             ln "ballistic weave" [ballistic; enb] defaults results H).
  - exfalso. vm_compute in H. discriminate.
Defined.

Lemma searchKnowledgeBase_entries_witness :
  exists results,
    searchKnowledgeBase ln "enb preset" [ballistic; enb] defaults
    = Some results
    /\ exists others,
         Permutation (map entry results ++ others) [ballistic; enb].
Proof.
  destruct (searchKnowledgeBase ln "enb preset" [ballistic; enb]
              defaults) as [results|] eqn:H.
  - exists results. split; [reflexivity|].
    exact (searchKnowledgeBase_entries
             ln "enb preset" [ballistic; enb] defaults results H).
  - exfalso. vm_compute in H. discriminate.
Defined.

Lemma rankResults_sorted_witness :
  [enb; untagged; ballistic] <> []
  /\ tokenize "ballistic weave" <> []
  /\ Forall (fun r => finite (score r)) firstPass
  /\ Forall (fun r => finite (score r))
       (rankResults ln "ballistic weave" firstPass [enb; untagged; ballistic])
  /\ descending
       (rankResults ln "ballistic weave" firstPass [enb; untagged; ballistic]).
Proof.
  assert (H1 : [enb; untagged; ballistic] <> []) by discriminate.
  assert (H2 : tokenize "ballistic weave" <> []) by discriminate.
  assert (H3 : Forall (fun r => finite (score r)) firstPass).
  { repeat constructor; eexists; reflexivity. }
  split; [exact H1|]. split; [exact H2|]. split; [exact H3|].
  exact (rankResults_sorted ln "ballistic weave" firstPass
           [enb; untagged; ballistic] H1 H2 H3).
Defined.

Lemma searchKnowledgeBase_sorted_witness :
  exists results,
    searchKnowledgeBase ln "weave preset" [ballistic; enb] defaults
    = Some results
    /\ Forall (fun r => finite (score r)) results
    /\ descending results.
Proof.
  destruct (searchKnowledgeBase ln "weave preset" [ballistic; enb]
              defaults) as [results|] eqn:H.
  - exists results. split; [reflexivity|].
    exact (searchKnowledgeBase_sorted
             ln "weave preset" [ballistic; enb] defaults results H).
  - exfalso. vm_compute in H. discriminate.
Defined.

Lemma database_search_limit_witness :
  (Fin 0 <=? Fin 3)%num = true
  /\ (of_nat
        (List.length
           (Database.searchKnowledgeBase "weave preset" (Fin 3)
              [ballistic; enb; untagged])) <=? Fin 3)%num = true
  /\ In enb
        (Database.searchKnowledgeBase "weave preset" (Fin 3)
           [ballistic; enb; untagged]).
Proof.
  assert (H : (Fin 0 <=? Fin 3)%num = true) by reflexivity.
  split; [exact H|].
  destruct (database_search_limit "weave preset" (Fin 3)
              [ballistic; enb; untagged] H) as [Hcap Hall].
  split; [exact Hcap|].
  apply Hall.
  - reflexivity.
  - discriminate.
  - simpl. auto.
  - right. right. exists "preset". split; [simpl; auto|].
    right. left. reflexivity.
Defined.

Lemma highlightMatches_ascending_witness :
  Forall (spanIn "ballistic weave") [(0, 9); (10, 15)]%Z
  /\ ascendingFrom 0 [(0, 9); (10, 15)]%Z
  /\ highlightMatches "ballistic weave" [(0, 9); (10, 15)]%Z
     = markedFrom "ballistic weave" 0 [(0, 9); (10, 15)]%Z.
Proof.
  assert (H1 : Forall (spanIn "ballistic weave") [(0, 9); (10, 15)]%Z).
  { constructor; [|constructor; [|constructor]];
      unfold spanIn, len; simpl; lia. }
  assert (H2 : ascendingFrom 0 [(0, 9); (10, 15)]%Z).
  { simpl. lia. }
  split; [exact H1|]. split; [exact H2|].
  exact (highlightMatches_ascending "ballistic weave" _ H1 H2).
Defined.

Lemma highlightMatches_length_witness :
  Forall (fun p => (fst p <= snd p)%Z) [(10, 15); (0, 12); (-3, 40)]%Z
  /\ String.length
       (highlightMatches "ballistic weave" [(10, 15); (0, 12); (-3, 40)]%Z)
     = String.length "ballistic weave"
       + 3 * (String.length markOpen + String.length markClose).
Proof.
  assert (H : Forall (fun p => (fst p <= snd p)%Z)
                [(10, 15); (0, 12); (-3, 40)]%Z).
  { constructor; [|constructor; [|constructor; [|constructor]]];
      simpl; lia. }
  split; [exact H|].
  exact (highlightMatches_length "ballistic weave" _ H).
Defined.

Lemma getMatchContext_contains_witness :
  (0 <= 10 <= 15)%Z
  /\ (15 <= len "ballistic weave armor")%Z
  /\ (0 <= 2)%Z
  /\ exists before after,
       getMatchContext "ballistic weave armor" (10, 15)%Z 2
       = (before ++ substring "ballistic weave armor" 10 15 ++ after)
       /\ (len before <= 2 + 3)%Z
       /\ (len after <= 2 + 3)%Z.
Proof.
  assert (H1 : (0 <= 10 <= 15)%Z) by lia.
  assert (H2 : (15 <= len "ballistic weave armor")%Z)
    by (unfold len; simpl; lia).
  assert (H3 : (0 <= 2)%Z) by lia.
  split; [exact H1|]. split; [exact H2|]. split; [exact H3|].
  exact (proj1 (getMatchContext_contains "ballistic weave armor"
                  (10, 15)%Z 2 H1 H2 H3)).
Defined.

Lemma searchKnowledgeBase_deterministic_witness :
  let store := [Store.Results firstPass; Store.Entries [ballistic; enb]] in
  nth_error store 1 = Some (Store.Entries [ballistic; enb])
  /\ exists results first store1 second store2,
       searchKnowledgeBaseIn ln "ballistic weave" 1 defaults store
       = Some (first, store1)
       /\ searchKnowledgeBaseIn ln "ballistic weave" 1 defaults store1
          = Some (second, store2)
       /\ nth_error store2 first = Some (Store.Results results)
       /\ nth_error store2 second = Some (Store.Results results)
       /\ first <> second
       /\ List.length results = 1.
Proof.
  intros store.
  assert (H : nth_error store 1 = Some (Store.Entries [ballistic; enb]))
    by reflexivity.
  split; [exact H|].
  destruct (searchKnowledgeBase_deterministic ln "ballistic weave" defaults
              [ballistic; enb] store 1 H)
    as (results & first & store1 & Hpure & Hrun & Hfirst & Hkept & Hagain).
  assert (H1 : nth_error (store1 ++ []) 1
               = Some (Store.Entries [ballistic; enb])).
  { apply nth_error_kept. now apply Hkept. }
  destruct (Hagain [] 1 H1) as (second & store2 & Hrun2 & Hsecond & Hf & _).
  rewrite app_nil_r in Hrun2.
  exists results, first, store1, second, store2.
  split; [exact Hrun|]. split; [exact Hrun2|].
  split; [exact Hf|]. split; [exact Hsecond|]. split.
  - vm_compute in Hrun. injection Hrun as <- <-.
    vm_compute in Hrun2. injection Hrun2 as <- _. discriminate.
  - vm_compute in Hpure. injection Hpure as <-. reflexivity.
Defined.

End Instances.
